(** * Job specification transform ([jobspec/parse.go])

    A shallow embedding of the transform that turns an already tokenized
    HCL tree into the typed job model, the properties the specification
    states about it (C1 to C10), and further properties of the code (X1 to
    X19).

    Layout, mirroring the Go packages the source imports:
    - [Go]: outcomes of a call (value, error, run-time panic), the byte
      strings of Go and the [strconv] functions the source calls;
    - [hcl]: the generic tree of the tokenizer ([ast.Node],
      [ast.ObjectItem]) with [Filter], [Children] and [Elem];
    - [mapstructure]: the weak coercions of [mapstructure.WeakDecode];
    - [helper]: [CheckHCLKeys];
    - [api]: the records of the job model;
    - [jobspec]: the functions of [parse.go], in source order. *)

From Stdlib Require Import ZArith Lia Ascii String.
From stdpp Require Import base option list gmap strings pretty fin_maps.

#[local] Open Scope string_scope.
#[local] Open Scope Z_scope.
#[local] Open Scope list_scope.
#[local] Set Warnings "-register-all,-clear-no-such-hyp".

(** ** Go: outcomes, strings, strconv *)
Module Go.

(** A Go call of type [(T, error)] either returns a value, returns an
    error (here its message), or panics at run time (index out of range). *)
Inductive result (A : Type) : Type :=
| Ok (a : A)
| Err (msg : string)
| Panic.
Arguments Ok {A} a.
Arguments Err {A} msg.
Arguments Panic {A}.

#[global] Instance result_ret : MRet result := @Ok.
#[global] Instance result_bind : MBind result := λ A B f r,
  match r with
  | Ok a => f a
  | Err e => Err e
  | Panic => Panic
  end.
#[global] Instance result_fmap : FMap result := λ A B f r,
  match r with
  | Ok a => Ok (f a)
  | Err e => Err e
  | Panic => Panic
  end.

Definition is_Ok {A} (r : result A) : bool :=
  match r with Ok _ => true | _ => false end.

(** [fmt.Errorf] *)
Definition Errorf {A} (msg : string) : result A := Err msg.

(** [multierror.Prefix(err, prefix)] on a plain error:
    [fmt.Errorf("%s %s", prefix, err)]. *)
Definition Prefix {A} (r : result A) (prefix : string) : result A :=
  match r with
  | Err e => Err (prefix +:+ " " +:+ e)
  | other => other
  end.

(** [list.Items[i]]: indexing past the end panics. *)
Definition index {A} (l : list A) (i : nat) : result A :=
  match l !! i with
  | Some x => Ok x
  | None => Panic
  end.

(** Left-to-right loop over a slice that stops at the first failure. *)
Fixpoint foldM {A B} (f : B → A → result B) (acc : B) (l : list A)
  : result B :=
  match l with
  | [] => Ok acc
  | x :: l' => acc' ← f acc x; foldM f acc' l'
  end.

(** The same loop when each element yields one element of the result. *)
Fixpoint traverse {A B} (f : A → result B) (l : list A) : result (list B) :=
  match l with
  | [] => Ok []
  | x :: l' => y ← f x; ys ← traverse f l'; Ok (y :: ys)
  end.

(** [if o := ...; len(o.Items) > 0 { ... }]: the block runs only when the
    filtered list is not empty. *)
Definition when_present {A B} (o : list A) (cur : B) (f : list A → result B)
  : result B :=
  if bool_decide (0 < length o)%nat then f o else Ok cur.

(** Strings are byte strings; the case functions act on the ASCII range,
    where [strings.ToLower] and [strings.EqualFold] are byte-wise. *)
Definition is_upper (c : ascii) : bool :=
  let n := N_of_ascii c in ((65 <=? n) && (n <=? 90))%N.
Definition is_lower (c : ascii) : bool :=
  let n := N_of_ascii c in ((97 <=? n) && (n <=? 122))%N.
Definition is_digit (c : ascii) : bool :=
  let n := N_of_ascii c in ((48 <=? n) && (n <=? 57))%N.

Definition lower_ascii (c : ascii) : ascii :=
  if is_upper c then ascii_of_N (N_of_ascii c + 32) else c.

Fixpoint ToLower (s : string) : string :=
  match s with
  | EmptyString => EmptyString
  | String c s' => String (lower_ascii c) (ToLower s')
  end.

Definition EqualFold (a b : string) : bool :=
  bool_decide (ToLower a = ToLower b).

Fixpoint all_chars (p : ascii → bool) (s : string) : bool :=
  match s with
  | EmptyString => true
  | String c s' => p c && all_chars p s'
  end.

(** [strconv.ParseBool] *)
Definition ParseBool (s : string) : result bool :=
  if bool_decide (s ∈ ["1"; "t"; "T"; "TRUE"; "true"; "True"]) then Ok true
  else if bool_decide (s ∈ ["0"; "f"; "F"; "FALSE"; "false"; "False"])
  then Ok false
  else Err ("strconv.ParseBool: parsing " +:+ s +:+ ": invalid syntax").

(** [strconv.Itoa] *)
Definition Itoa (n : Z) : string := pretty n.

(** Two's complement truncation to [bits] bits, as [reflect.Value.SetInt]
    stores an [int64] into a narrower integer field. *)
Definition wrap (bits : Z) (n : Z) : Z :=
  let m := 2 ^ bits in
  let r := n mod m in
  if r <? 2 ^ (bits - 1) then r else r - m.

(** What the source takes from the Go runtime and [strconv]/[time] without
    this development fixing it: the 64-bit floats of the tokenizer with
    their conversions, and the number and duration syntaxes. *)
Class Runtime := {
  float64 : Type;
  (** [strconv.FormatFloat(f, 'f', -1, 64)] *)
  FormatFloat : float64 → string;
  (** the conversion [int64(f)] *)
  float_to_int : float64 → Z;
  (** [f != 0] *)
  float_nonzero : float64 → bool;
  (** [strconv.ParseInt(s, 0, bits)] *)
  ParseInt : string → Z → result Z;
  (** [strconv.ParseUint(s, 0, bits)] *)
  ParseUint : string → Z → result Z;
  (** [time.ParseDuration], in nanoseconds *)
  ParseDuration : string → result Z;
}.

End Go.
Export Go.

(** ** hcl: the generic tree produced by the tokenizer *)
Module hcl.

(** [ast.ObjectItem]: the keys of an item ([job "web"] has the two keys
    [job] and [web]) and its value. *)
Record ObjectItemOf (N : Type) : Type := mkItem {
  Keys : list string;
  Val : N;
}.
Arguments mkItem {N} Keys Val.
Arguments Keys {N} o.
Arguments Val {N} o.

Section ast.
Context `{Runtime}.

(** The literal tokens: [token.STRING] and [token.HEREDOC], [token.NUMBER],
    [token.FLOAT], [token.BOOL]. *)
Inductive Literal : Type :=
| LString (s : string)
| LNumber (n : Z)
| LFloat (f : float64)
| LBool (b : bool).

(** [ast.Node]: [*ast.LiteralType], [*ast.ListType] or [*ast.ObjectType];
    an [*ast.ObjectList] is the list of items itself. *)
Inductive Node : Type :=
| LiteralType (tok : Literal)
| ListType (elems : list Node)
| ObjectType (items : list (ObjectItemOf Node)).

#[local] Abbreviation ObjectItem := (ObjectItemOf Node).
#[local] Abbreviation ObjectList := (list (ObjectItemOf Node)).

(** [ObjectList.Filter(key)]: the items whose first key is [key], with
    that key stripped. *)
Definition Filter (key : string) (l : ObjectList) : ObjectList :=
  omap (λ item : ObjectItem,
    match Keys item with
    | k :: ks => if EqualFold k key then Some (mkItem ks (Val item)) else None
    | [] => None
    end) l.

(** [ObjectList.Children()]: the items that still carry a key. *)
Definition Children (l : ObjectList) : ObjectList :=
  filter (λ item : ObjectItem, Keys item ≠ []) l.

(** [ObjectList.Elem()]: the items with no key left. *)
Definition Elem (l : ObjectList) : ObjectList :=
  filter (λ item : ObjectItem, Keys item = []) l.

(** The type assertion of [o.Val] to an [ast.ObjectType]. *)
Definition asObjectType (n : Node) : option ObjectList :=
  match n with
  | ObjectType items => Some items
  | _ => None
  end.

(** A Go [interface{}] value as [hcl.DecodeObject] produces it:
    [nil], [string], [int], [float64], [bool], [[]interface{}],
    [map[string]interface{}] and [[]map[string]interface{}]. *)
Inductive value : Type :=
| VNil
| VString (s : string)
| VInt (n : Z)
| VFloat (f : float64)
| VBool (b : bool)
| VList (l : list value)
| VMap (m : gmap string value)
| VMaps (l : list (gmap string value)).

(** [m[key]] on a [map[string]interface{}]: [nil] when absent. *)
Definition at_key (m : gmap string value) (key : string) : value :=
  default VNil (m !! key).

(** [hcl.DecodeObject(&m, node)] into a [map[string]interface{}] belongs to
    the tokenizer library; the transform is stated for any decoder. *)
Class Decoder := {
  DecodeObject : Node → result (gmap string value);
}.

End ast.

(** [*ast.ObjectItem] and [*ast.ObjectList]. *)
Abbreviation ObjectItem := (ObjectItemOf Node).
Abbreviation ObjectList := (list (ObjectItemOf Node)).

End hcl.
Export hcl.

(** ** mapstructure: weak decoding of loosely typed values *)
Module mapstructure.
Section weak.
Context `{Runtime}.

(** Weakly typed decode into a [string]. *)
Definition weak_string (v : value) : result string :=
  match v with
  | VString s => Ok s
  | VBool b => Ok (if b then "1" else "0")
  | VInt n => Ok (Itoa n)
  | VFloat f => Ok (FormatFloat f)
  | _ => Err "expected type 'string', got unconvertible type"
  end.

(** Weakly typed decode into a [bool]. *)
Definition weak_bool (v : value) : result bool :=
  match v with
  | VBool b => Ok b
  | VInt n => Ok (negb (n =? 0))
  | VFloat f => Ok (float_nonzero f)
  | VString s =>
      match ParseBool s with
      | Ok b => Ok b
      | _ => if bool_decide (s = "") then Ok false
             else Err "cannot parse as bool"
      end
  | _ => Err "expected type 'bool', got unconvertible type"
  end.

(** Weakly typed decode into a signed integer of [bits] bits. *)
Definition weak_int (bits : Z) (v : value) : result Z :=
  match v with
  | VInt n => Ok (wrap bits n)
  | VFloat f => Ok (wrap bits (float_to_int f))
  | VBool b => Ok (if b then 1 else 0)
  | VString s => Prefix (ParseInt s bits) "cannot parse as int:"
  | _ => Err "expected type 'int', got unconvertible type"
  end.

(** Weakly typed decode into an unsigned integer of [bits] bits. *)
Definition weak_uint (bits : Z) (v : value) : result Z :=
  match v with
  | VInt n => Ok (n mod 2 ^ bits)
  | VFloat f => Ok (float_to_int f mod 2 ^ bits)
  | VBool b => Ok (if b then 1 else 0)
  | VString s => Prefix (ParseUint s bits) "cannot parse as uint:"
  | _ => Err "expected type 'uint', got unconvertible type"
  end.

(** Decode into a [time.Duration] under
    [StringToTimeDurationHookFunc]: a string goes through
    [time.ParseDuration], anything else is decoded as an [int64]. *)
Definition weak_duration (v : value) : result Z :=
  match v with
  | VString s => ParseDuration s
  | _ => weak_int 64 v
  end.

(** The map entry a struct field named [name] is decoded from: the entry
    under exactly that key, otherwise an entry whose key differs only by
    case (the first one in the map's iteration order). *)
Definition field (m : gmap string value) (name : string) : option value :=
  match m !! name with
  | Some v => Some v
  | None =>
      (λ r : nat * (string * value), r.2.2) <$>
        list_find (λ kv : string * value, EqualFold kv.1 name) (map_to_list m)
  end.

(** Decoding one field: an absent entry or a [nil] value leaves the field
    as it is. *)
Definition decode_field {A} (conv : value → result A) (cur : A)
    (o : option value) : result A :=
  match o with
  | None | Some VNil => Ok cur
  | Some v => conv v
  end.

(** The same for a pointer field, which is allocated on decode. *)
Definition decode_ptr {A} (conv : value → result A) (cur : option A)
    (o : option value) : result (option A) :=
  match o with
  | None | Some VNil => Ok cur
  | Some v => Some <$> conv v
  end.

(** Weakly typed decode into a [[]string] field holding [cur]: a list is
    decoded element by element over the elements already there, an empty
    map gives the empty slice, any other value is lifted to a one-element
    list first. *)
Definition decode_strings (cur : list string) (o : option value)
  : result (list string) :=
  let over (l : list value) :=
    new ← traverse (λ v, decode_field weak_string "" (Some v)) l;
    Ok (new ++ drop (length new) cur) in
  match o with
  | None | Some VNil => Ok cur
  | Some (VList l) => over l
  | Some (VMaps l) => over (VMap <$> l)
  | Some (VMap m) => if bool_decide (m = ∅) then Ok [] else over [VMap m]
  | Some v => over [v]
  end.

(** [WeakDecode(m, &target)] for a [map[string]string] target: the
    entries of [m] are written over those already in the target. *)
Definition decode_string_map (m : gmap string value)
    (cur : gmap string string) : result (gmap string string) :=
  foldM (λ acc (kv : string * value),
           s ← decode_field weak_string "" (Some kv.2); Ok (<[kv.1 := s]> acc))
        cur (map_to_list m).

(** The same for a [map[string]interface{}] target. *)
Definition decode_value_map (m : gmap string value)
    (cur : gmap string value) : gmap string value :=
  m ∪ cur.

End weak.
End mapstructure.
Export mapstructure.

(** ** helper *)
Module helper.
Section keys.
Context `{Runtime}.

(** Modelled from the spec: [helper.CheckHCLKeys] is declared outside
    [jobspec/parse.go].  "Given a block's actual key set and a declared
    whitelist for that block kind, fails with SchemaError naming the first
    unrecognized key.  No side effects."  The key of an item is its first
    key; the message is the one the path prefixes of the callers are put
    in front of. *)
Definition CheckHCLKeys (items : ObjectList) (valid : list string)
  : result unit :=
  match list_find (λ k : string, k ∉ valid)
          (omap (λ item : ObjectItem, head (Keys item)) items) with
  | Some (_, k) => Err ("invalid key: " +:+ k)
  | None => Ok ()
  end.

(** [CheckHCLKeys] is also handed the value of an item, which has a key
    set only when it is a block. *)
Definition CheckHCLKeysNode (node : Node) (valid : list string)
  : result unit :=
  match node with
  | ObjectType items => CheckHCLKeys items valid
  | _ => Err "cannot check HCL keys of a value that is not a block"
  end.

End keys.
End helper.
Export helper.

(** ** api: the job model *)
Module api.
Section model.
Context `{Runtime}.

Record Constraint : Type := mkConstraint {
  LTarget : string;
  RTarget : string;
  Operand : string;
}.

Record Affinity : Type := mkAffinity {
  Affinity_LTarget : string;
  Affinity_RTarget : string;
  Affinity_Operand : string;
  Affinity_Weight : Z;
}.

Record Port : Type := mkPort {
  Label : string;
  Value : Z;
}.

Record NetworkResource : Type := mkNetworkResource {
  MBits : option Z;
  ReservedPorts : list Port;
  DynamicPorts : list Port;
}.

Record RequestedDevice : Type := mkRequestedDevice {
  Device_Name : string;
  Device_Count : option Z;
  Device_Constraints : list Constraint;
  Device_Affinities : list Affinity;
}.

Record Resources : Type := mkResources {
  CPU : option Z;
  MemoryMB : option Z;
  DiskMB : option Z;
  IOPS : option Z;
  Networks : list NetworkResource;
  Devices : list RequestedDevice;
}.

Record Vault : Type := mkVault {
  Policies : list string;
  Env : option bool;
  ChangeMode : option string;
  ChangeSignal : option string;
}.

(** The records of the model whose declaration and field-by-field decoding
    this file does not need: each is produced from the decoded attributes of
    its block by one [mapstructure] decode. *)
Class Structs := {
  RestartPolicy : Type;
  decodeRestartPolicy : gmap string value → result RestartPolicy;
  ReschedulePolicy : Type;
  decodeReschedulePolicy : gmap string value → result ReschedulePolicy;
  EphemeralDisk : Type;
  decodeEphemeralDisk : gmap string value → result EphemeralDisk;
  UpdateStrategy : Type;
  decodeUpdateStrategy : gmap string value → result UpdateStrategy;
  MigrateStrategy : Type;
  decodeMigrateStrategy : gmap string value → result MigrateStrategy;
  PeriodicConfig : Type;
  decodePeriodicConfig : gmap string value → result PeriodicConfig;
  ParameterizedJobConfig : Type;
  decodeParameterizedJobConfig
    : gmap string value → result ParameterizedJobConfig;
  LogConfig : Type;
  decodeLogConfig : gmap string value → result LogConfig;
  DispatchPayloadConfig : Type;
  decodeDispatchPayloadConfig
    : gmap string value → result DispatchPayloadConfig;
  (** a template, decoded over [ChangeMode = "restart"], [Splay = 5s],
      [Perms = "0644"] *)
  Template : Type;
  decodeTemplate : gmap string value → result Template;
  (** the attributes of an artifact other than its getter options *)
  ArtifactFields : Type;
  decodeArtifact : gmap string value → result ArtifactFields;
  (** the attributes of a spread other than its targets *)
  SpreadFields : Type;
  decodeSpread : gmap string value → result SpreadFields;
  (** a spread target, decoded over [Value = n] *)
  SpreadTarget : Type;
  decodeSpreadTarget : string → gmap string value → result SpreadTarget;
  CheckRestart : Type;
  decodeCheckRestart : gmap string value → result CheckRestart;
  (** the attributes of a check other than its headers and restart policy *)
  CheckFields : Type;
  decodeCheck : gmap string value → result CheckFields;
  Check_Name : CheckFields → string;
  (** the attributes of a service other than its checks and restart
      policy *)
  ServiceFields : Type;
  decodeService : gmap string value → result ServiceFields;
  Service_Name : ServiceFields → string;
}.
Context `{Structs}.

Record TaskArtifact : Type := mkTaskArtifact {
  Artifact_Fields : ArtifactFields;
  GetterOptions : option (gmap string string);
}.

Record Spread : Type := mkSpread {
  Spread_Fields : SpreadFields;
  Spread_Target : list SpreadTarget;
}.

Record ServiceCheck : Type := mkServiceCheck {
  Check_Fields : CheckFields;
  Header : option (gmap string (list string));
  Check_CheckRestart : option CheckRestart;
}.

Record Service : Type := mkService {
  Service_Fields : ServiceFields;
  Checks : list ServiceCheck;
  Service_CheckRestart : option CheckRestart;
}.

Record Task : Type := mkTask {
  Task_Name : string;
  Driver : string;
  User : string;
  Config : gmap string value;
  Task_Constraints : list Constraint;
  Task_Affinities : list Affinity;
  Task_Env : gmap string string;
  Services : list Service;
  Task_Resources : option Resources;
  Task_Meta : gmap string string;
  KillTimeout : option Z;
  Task_LogConfig : option LogConfig;
  Artifacts : list TaskArtifact;
  Task_Vault : option Vault;
  Templates : list Template;
  DispatchPayload : option DispatchPayloadConfig;
  Leader : bool;
  ShutdownDelay : Z;
  KillSignal : string;
}.

Record TaskGroup : Type := mkTaskGroup {
  TaskGroup_Name : option string;
  Count : option Z;
  TaskGroup_Constraints : list Constraint;
  TaskGroup_Affinities : list Affinity;
  Tasks : list Task;
  TaskGroup_Spreads : list Spread;
  TaskGroup_RestartPolicy : option RestartPolicy;
  TaskGroup_ReschedulePolicy : option ReschedulePolicy;
  TaskGroup_EphemeralDisk : option EphemeralDisk;
  TaskGroup_Update : option UpdateStrategy;
  TaskGroup_Migrate : option MigrateStrategy;
  TaskGroup_Meta : gmap string string;
}.

Record Job : Type := mkJob {
  Region : option string;
  Namespace : option string;
  ID : option string;
  Name : option string;
  Type_ : option string;
  Priority : option Z;
  AllAtOnce : option bool;
  Datacenters : list string;
  Constraints : list Constraint;
  Affinities : list Affinity;
  TaskGroups : list TaskGroup;
  Update : option UpdateStrategy;
  Spreads : list Spread;
  Periodic : option PeriodicConfig;
  ParameterizedJob : option ParameterizedJobConfig;
  Reschedule : option ReschedulePolicy;
  Migrate : option MigrateStrategy;
  Meta : gmap string string;
  VaultToken : option string;
}.

(** [task.Vault = v] *)
Definition Task_set_Vault (v : option Vault) (t : Task) : Task :=
  mkTask (Task_Name t) (Driver t) (User t) (Config t) (Task_Constraints t)
    (Task_Affinities t) (Task_Env t) (Services t) (Task_Resources t)
    (Task_Meta t) (KillTimeout t) (Task_LogConfig t) (Artifacts t) v
    (Templates t) (DispatchPayload t) (Leader t) (ShutdownDelay t)
    (KillSignal t).

(** [tg.Tasks = ts] *)
Definition TaskGroup_set_Tasks (ts : list Task) (g : TaskGroup) : TaskGroup :=
  mkTaskGroup (TaskGroup_Name g) (Count g) (TaskGroup_Constraints g)
    (TaskGroup_Affinities g) ts (TaskGroup_Spreads g)
    (TaskGroup_RestartPolicy g) (TaskGroup_ReschedulePolicy g)
    (TaskGroup_EphemeralDisk g) (TaskGroup_Update g) (TaskGroup_Migrate g)
    (TaskGroup_Meta g).

(** [result.TaskGroups = tgs] *)
Definition Job_set_TaskGroups (tgs : list TaskGroup) (j : Job) : Job :=
  mkJob (Region j) (Namespace j) (ID j) (Name j) (Type_ j) (Priority j)
    (AllAtOnce j) (Datacenters j) (Constraints j) (Affinities j) tgs
    (Update j) (Spreads j) (Periodic j) (ParameterizedJob j) (Reschedule j)
    (Migrate j) (Meta j) (VaultToken j).

End model.
End api.
Export api.

(** ** structs: operand names *)
Module structs.

(** Modelled from the spec: the constants of [nomad/structs] are declared
    outside [jobspec/parse.go]; the spec names the alias attributes
    [version], [regexp], [set_contains], [set_contains_any],
    [set_contains_all], [distinct_hosts] and [distinct_property], each of
    which is also the operand it selects, and the [cron] schedule. *)
Definition ConstraintDistinctProperty : string := "distinct_property".
Definition ConstraintDistinctHosts : string := "distinct_hosts".
Definition ConstraintRegex : string := "regexp".
Definition ConstraintVersion : string := "version".
Definition ConstraintSetContains : string := "set_contains".
Definition ConstraintSetContainsAll : string := "set_contains_all".
Definition ConstraintSetContainsAny : string := "set_contains_any".
Definition PeriodicSpecCron : string := "cron".

End structs.

(** ** jobspec: the transform *)
Module jobspec.
Section parse.
Context `{Runtime} `{!Decoder} `{!Structs}.

Implicit Types (m : gmap string value) (items : ObjectList) (o : ObjectItem).

(** The characters of the class [[a-zA-Z0-9_]]. *)
Definition is_word_char (c : ascii) : bool :=
  is_lower c || is_upper c || is_digit c || bool_decide (c = "_"%char).

(** [reDynamicPorts], the expression [^[a-zA-Z0-9_]+$]: a non-empty string
    of ASCII letters, digits and underscores. *)
Definition reDynamicPorts_MatchString (s : string) : bool :=
  negb (bool_decide (s = "")) && all_chars is_word_char s.

Definition errPortLabel : string :=
  "Port label does not conform to naming requirements ^[a-zA-Z0-9_]+$".

(** [parseBool] takes an interface value and tries to convert it to a
    boolean and returns an error if the type can't be converted. *)
Definition parseBool (v : value) : result bool :=
  match v with
  | VString s => ParseBool s
  | VBool b => Ok b
  | _ => Err "value couldn't be converted to boolean value"
  end.

(** [mapstructure.WeakDecode(m, &c)] for an [api.Constraint]. *)
Definition decodeConstraint m : result Constraint :=
  l ← decode_field weak_string "" (field m "LTarget");
  r ← decode_field weak_string "" (field m "RTarget");
  op ← decode_field weak_string "" (field m "Operand");
  Ok (mkConstraint l r op).

(** The alias step shared by the loops: when [key] is present, it becomes
    the operand and its value is stored under [target]. *)
Definition alias (key target : string) m : gmap string value :=
  match m !! key with
  | Some v => <[target := v]> (<["Operand" := VString key]> m)
  | None => m
  end.

(** The three plain assignments both loops start with:
    [m["LTarget"] = m["attribute"]], [m["RTarget"] = m["value"]],
    [m["Operand"] = m["operator"]]. *)
Definition plainTargets m : gmap string value :=
  let m := <["LTarget" := at_key m "attribute"]> m in
  let m := <["RTarget" := at_key m "value"]> m in
  <["Operand" := at_key m "operator"]> m.

(** The [distinct_hosts] step: [None] is the [continue] of a disabled
    [distinct_hosts]. *)
Definition distinctHosts m : result (option (gmap string value)) :=
  match m !! structs.ConstraintDistinctHosts with
  | Some v =>
      match parseBool v with
      | Ok enabled =>
          if enabled
          then Ok (Some (<["Operand" :=
                             VString structs.ConstraintDistinctHosts]> m))
          else Ok None
      | Err e => Err ("distinct_hosts should be set to true or false; " +:+ e)
      | Panic => Panic
      end
  | None => Ok (Some m)
  end.

(** [if c.Operand == "" { c.Operand = "=" }] *)
Definition defaultOperand (c : Constraint) : Constraint :=
  if bool_decide (Operand c = "")
  then mkConstraint (LTarget c) (RTarget c) "="
  else c.

(** The body of the loop of [parseConstraints]. *)
Definition parseConstraint o : result (option Constraint) :=
  let valid := ["attribute"; "distinct_hosts"; "distinct_property";
                "operator"; "regexp"; "set_contains"; "value"; "version"] in
  CheckHCLKeysNode (Val o) valid;;
  m ← DecodeObject (Val o);
  let m := plainTargets m in
  let m := alias structs.ConstraintVersion "RTarget" m in
  let m := alias structs.ConstraintRegex "RTarget" m in
  let m := alias structs.ConstraintSetContains "RTarget" m in
  hosts ← distinctHosts m;
  match hosts with
  | None => Ok None
  | Some m =>
      let m := alias structs.ConstraintDistinctProperty "LTarget" m in
      c ← decodeConstraint m;
      Ok (Some (defaultOperand c))
  end.

Definition parseConstraints (result : list Constraint) items
  : Go.result (list Constraint) :=
  foldM (λ acc o, c ← parseConstraint o; Ok (acc ++ option_list c))
        result (Elem items).

(** [mapstructure.WeakDecode(m, &a)] for an [api.Affinity]. *)
Definition decodeAffinity m : result Affinity :=
  l ← decode_field weak_string "" (field m "LTarget");
  r ← decode_field weak_string "" (field m "RTarget");
  op ← decode_field weak_string "" (field m "Operand");
  w ← decode_field (weak_int 8) 0 (field m "Weight");
  Ok (mkAffinity l r op w).

Definition parseAffinity o : result Affinity :=
  let valid := ["attribute"; "operator"; "regexp"; "set_contains";
                "set_contains_any"; "set_contains_all"; "value"; "version";
                "weight"] in
  CheckHCLKeysNode (Val o) valid;;
  m ← DecodeObject (Val o);
  let m := plainTargets m in
  let m := alias structs.ConstraintVersion "RTarget" m in
  let m := alias structs.ConstraintRegex "RTarget" m in
  let m := alias structs.ConstraintSetContainsAny "RTarget" m in
  let m := alias structs.ConstraintSetContainsAll "RTarget" m in
  let m := alias structs.ConstraintSetContains "RTarget" m in
  a ← decodeAffinity m;
  Ok (if bool_decide (Affinity_Operand a = "")
      then mkAffinity (Affinity_LTarget a) (Affinity_RTarget a) "="
             (Affinity_Weight a)
      else a).

Definition parseAffinities (result : list Affinity) items
  : Go.result (list Affinity) :=
  foldM (λ acc o, a ← parseAffinity o; Ok (acc ++ [a])) result (Elem items).

(** The singleton policy blocks share one shape: the unlabelled items of
    the filtered list, at most one of them, and an unguarded
    [list.Items[0]]. *)
Definition parseRestartPolicy items : result RestartPolicy :=
  let items := Elem items in
  if bool_decide (1 < length items)%nat
  then Err "only one 'restart' block allowed" else
  obj ← index items 0;
  let valid := ["attempts"; "interval"; "delay"; "mode"] in
  CheckHCLKeysNode (Val obj) valid;;
  m ← DecodeObject (Val obj);
  decodeRestartPolicy m.

Definition parseReschedulePolicy items : result ReschedulePolicy :=
  let items := Elem items in
  if bool_decide (1 < length items)%nat
  then Err "only one 'reschedule' block allowed" else
  obj ← index items 0;
  let valid := ["attempts"; "interval"; "unlimited"; "delay"; "max_delay";
                "delay_function"] in
  CheckHCLKeysNode (Val obj) valid;;
  m ← DecodeObject (Val obj);
  decodeReschedulePolicy m.

Definition parseEphemeralDisk items : result EphemeralDisk :=
  let items := Elem items in
  if bool_decide (1 < length items)%nat
  then Err "only one 'ephemeral_disk' block allowed" else
  obj ← index items 0;
  let valid := ["sticky"; "size"; "migrate"] in
  CheckHCLKeysNode (Val obj) valid;;
  m ← DecodeObject (Val obj);
  decodeEphemeralDisk m.

(** [parseSpreadTarget] loops over every item it is given, labelled or
    not; the state is the [seen] set and the targets so far. *)
Definition parseSpreadTargetItem (st : gset string * list SpreadTarget)
    (item : ObjectItem) : result (gset string * list SpreadTarget) :=
  let '(seen, acc) := st in
  match Keys item with
  | [n] =>
      if bool_decide (n ∈ seen)
      then Err ("target '" +:+ n +:+ "' defined more than once") else
      let seen := {[n]} ∪ seen in
      match asObjectType (Val item) with
      | None => Err "target should be an object"
      | Some listVal =>
          let valid := ["percent"; "value"] in
          Prefix (CheckHCLKeys listVal valid) ("'" +:+ n +:+ "' ->");;
          m ← DecodeObject (Val item);
          g ← decodeSpreadTarget n m;
          Ok (seen, acc ++ [g])
      end
  | _ => Err "missing spread target"
  end.

Definition parseSpreadTarget (result : list SpreadTarget) items
  : Go.result (list SpreadTarget) :=
  snd <$> foldM parseSpreadTargetItem (∅, result) items.

Definition parseSpread (result : list Spread) items
  : Go.result (list Spread) :=
  foldM (λ acc o,
    let valid := ["attribute"; "weight"; "target"] in
    CheckHCLKeysNode (Val o) valid;;
    match asObjectType (Val o) with
    | None => Err "spread should be an object"
    | Some listVal =>
        m ← DecodeObject (Val o);
        let m := delete "target" m in
        s ← decodeSpread m;
        targets ←
          when_present (Filter "target" listVal) []
            (λ o : ObjectList, Prefix (parseSpreadTarget [] o) "target ->");
        Ok (acc ++ [mkSpread s targets])
    end) result (Elem items).

Definition parseUpdate items : result UpdateStrategy :=
  let items := Elem items in
  if bool_decide (1 < length items)%nat
  then Err "only one 'update' block allowed" else
  o ← index items 0;
  m ← DecodeObject (Val o);
  let valid := ["stagger"; "max_parallel"; "health_check";
                "min_healthy_time"; "healthy_deadline"; "progress_deadline";
                "auto_revert"; "canary"] in
  CheckHCLKeysNode (Val o) valid;;
  decodeUpdateStrategy m.

Definition parseMigrate items : result MigrateStrategy :=
  let items := Elem items in
  if bool_decide (1 < length items)%nat
  then Err "only one 'migrate' block allowed" else
  o ← index items 0;
  m ← DecodeObject (Val o);
  let valid := ["max_parallel"; "health_check"; "min_healthy_time";
                "healthy_deadline"] in
  CheckHCLKeysNode (Val o) valid;;
  decodeMigrateStrategy m.

Definition parsePeriodic items : result PeriodicConfig :=
  let items := Elem items in
  if bool_decide (1 < length items)%nat
  then Err "only one 'periodic' block allowed per job" else
  o ← index items 0;
  m ← DecodeObject (Val o);
  let valid := ["enabled"; "cron"; "prohibit_overlap"; "time_zone"] in
  CheckHCLKeysNode (Val o) valid;;
  m ←
    match m !! "enabled" with
    | Some v =>
        match parseBool v with
        | Ok enabled => Ok (<["Enabled" := VBool enabled]> m)
        | Err e =>
            Err ("periodic.enabled should be set to true or false; " +:+ e)
        | Panic => Panic
        end
    | None => Ok m
    end;
  let m :=
    match m !! "cron" with
    | Some cron =>
        <["Spec" := cron]> (<["SpecType" := VString structs.PeriodicSpecCron]> m)
    | None => m
    end in
  decodePeriodicConfig m.

(** [mapstructure.WeakDecode(m, result)] for an [api.Vault]. *)
Definition decodeVault m (result : Vault) : Go.result Vault :=
  ps ← decode_strings (Policies result) (field m "Policies");
  env ← decode_ptr weak_bool (Env result) (field m "Env");
  mode ← decode_ptr weak_string (ChangeMode result) (field m "change_mode");
  sig ← decode_ptr weak_string (ChangeSignal result) (field m "change_signal");
  Ok (mkVault ps env mode sig).

Definition parseVault (result : Vault) items : Go.result Vault :=
  let items := Elem items in
  if bool_decide (length items = 0)%nat then Ok result else
  if bool_decide (1 < length items)%nat
  then Err "only one 'vault' block allowed per task" else
  o ← index items 0;
  match asObjectType (Val o) with
  | None => Err "vault: should be an object"
  | Some listVal =>
      let valid := ["policies"; "env"; "change_mode"; "change_signal"] in
      Prefix (CheckHCLKeys listVal valid) "vault ->";;
      m ← DecodeObject (Val o);
      decodeVault m result
  end.

Definition parseParameterizedJob items : result ParameterizedJobConfig :=
  let items := Elem items in
  if bool_decide (1 < length items)%nat
  then Err "only one 'parameterized' block allowed per job" else
  o ← index items 0;
  m ← DecodeObject (Val o);
  let valid := ["payload"; "meta_required"; "meta_optional"] in
  CheckHCLKeysNode (Val o) valid;;
  decodeParameterizedJobConfig m.

(** [mapstructure.WeakDecode(p, &res)] for an [api.Port], whose [Value] is
    read from the attribute [static]. *)
Definition decodePort (p : gmap string value) : result Port :=
  label ← decode_field weak_string "" (field p "Label");
  v ← decode_field (weak_int 64) 0 (field p "static");
  Ok (mkPort label v).

(** The body of the loop of [parsePorts]: the state is [knownPortLabels]
    and the network resource being filled. *)
Definition parsePort (st : gset string * NetworkResource) (port : ObjectItem)
  : result (gset string * NetworkResource) :=
  let '(knownPortLabels, nw) := st in
  match Keys port with
  | [] => Err "ports must be named"
  | label :: _ =>
      if negb (reDynamicPorts_MatchString label) then Err errPortLabel else
      let l := ToLower label in
      if bool_decide (l ∈ knownPortLabels)
      then Err ("found a port label collision: " +:+ label) else
      p ← DecodeObject (Val port);
      res ← decodePort p;
      let res := mkPort label (Value res) in
      let nw :=
        if bool_decide (0 < Value res)
        then mkNetworkResource (MBits nw) (ReservedPorts nw ++ [res])
               (DynamicPorts nw)
        else mkNetworkResource (MBits nw) (ReservedPorts nw)
               (DynamicPorts nw ++ [res]) in
      Ok ({[l]} ∪ knownPortLabels, nw)
  end.

Definition parsePorts (networkObj : ObjectList) (nw : NetworkResource)
  : result NetworkResource :=
  let valid := ["mbits"; "port"] in
  CheckHCLKeys networkObj valid;;
  let portsObjList := Filter "port" networkObj in
  snd <$> foldM parsePort (∅, nw) portsObjList.

(** [mapstructure.WeakDecode(m, result)] for the attributes of an
    [api.Resources]. *)
Definition decodeResources m (result : Resources) : Go.result Resources :=
  cpu ← decode_ptr (weak_int 64) (CPU result) (field m "CPU");
  mem ← decode_ptr (weak_int 64) (MemoryMB result) (field m "memory");
  disk ← decode_ptr (weak_int 64) (DiskMB result) (field m "disk");
  iops ← decode_ptr (weak_int 64) (IOPS result) (field m "IOPS");
  Ok (mkResources cpu mem disk iops (Networks result) (Devices result)).

(** The [network] sub-block of [parseResources]. *)
Definition parseNetwork (o : ObjectList) : result (list NetworkResource) :=
  if bool_decide (1 < length o)%nat
  then Err "only one 'network' resource allowed" else
  o0 ← index o 0;
  let valid := ["mbits"; "port"] in
  Prefix (CheckHCLKeysNode (Val o0) valid) "resources, network ->";;
  m ← DecodeObject (Val o0);
  mbits ← decode_ptr (weak_int 64) None (field m "MBits");
  let r := mkNetworkResource mbits [] [] in
  match asObjectType (Val o0) with
  | None => Err "resource: should be an object"
  | Some networkObj =>
      r ← Prefix (parsePorts networkObj r) "resources, network, ports ->";
      Ok [r]
  end.

(** The body of the [device] loop of [parseResources]. *)
Definition parseDevice (idx : nat) (do : ObjectItem) : result RequestedDevice :=
  let at_idx := "resources, device[" +:+ pretty idx +:+ "]->" in
  match Keys do with
  | [] => Prefix (Err "missing device name") at_idx
  | _ :: _ :: _ => Prefix (Err "only one name may be specified") at_idx
  | [name] =>
      match asObjectType (Val do) with
      | None => Err "device should be an object"
      | Some listVal =>
          let valid := ["name"; "count"; "affinity"; "constraint"] in
          Prefix (CheckHCLKeysNode (Val do) valid) at_idx;;
          m ← DecodeObject (Val do);
          let m := delete "constraint" m in
          let m := delete "affinity" m in
          name ← decode_field weak_string name (field m "Name");
          count ← decode_ptr (weak_uint 64) None (field m "Count");
          cs ← when_present (Filter "constraint" listVal) []
                 (λ o : ObjectList, Prefix (parseConstraints [] o) "constraint ->");
          afs ← when_present (Filter "affinity" listVal) []
                  (λ o : ObjectList, Prefix (parseAffinities [] o) "affinity ->");
          Ok (mkRequestedDevice name count cs afs)
      end
  end.

Definition parseResources (result : Resources) items : Go.result Resources :=
  let items := Elem items in
  if bool_decide (length items = 0)%nat then Ok result else
  if bool_decide (1 < length items)%nat
  then Err "only one 'resource' block allowed per task" else
  o ← index items 0;
  match asObjectType (Val o) with
  | None => Err "resource: should be an object"
  | Some listVal =>
      let valid := ["cpu"; "iops"; "disk"; "memory"; "network"; "device"] in
      Prefix (CheckHCLKeys listVal valid) "resources ->";;
      m ← DecodeObject (Val o);
      let m := delete "network" m in
      let m := delete "device" m in
      result ← decodeResources m result;
      networks ← when_present (Filter "network" listVal) (Networks result)
                   parseNetwork;
      devices ← when_present (Filter "device" listVal) (Devices result)
                  (λ o : ObjectList,
                     traverse (λ d : nat * ObjectItem, parseDevice d.1 d.2)
                       (imap pair o));
      Ok (mkResources (CPU result) (MemoryMB result) (DiskMB result)
            (IOPS result) networks devices)
  end.

Definition parseCheckRestart (cro : ObjectItem) : result CheckRestart :=
  let valid := ["limit"; "grace"; "ignore_warnings"] in
  Prefix (CheckHCLKeysNode (Val cro) valid) "check_restart ->";;
  crm ← DecodeObject (Val cro);
  decodeCheckRestart crm.

(** The [header] merge of [parseChecks]: repeated [header] blocks are merged
    into one map from a header name to its values. *)
Definition mergeHeader (headerRaw : list (gmap string value))
  : result (gmap string (list string)) :=
  foldM (λ hdr rawm,
    foldM (λ hdr (kv : string * value),
      match kv.2 with
      | VList vs =>
          foldM (λ (hdr : gmap string (list string)) vI,
            match vI with
            | VString v =>
                Ok (<[kv.1 := default [] (hdr !! kv.1) ++ [v]]> hdr)
            | _ => Err ("check -> header -> " +:+ kv.1
                        +:+ " expected a string")
            end) hdr vs
      | _ => Err ("check -> header -> " +:+ kv.1 +:+ " expected a []string")
      end) hdr (map_to_list rawm)) ∅ headerRaw.

(** The body of the loop of [parseChecks]. *)
Definition parseCheck (co : ObjectItem) : result ServiceCheck :=
  let valid := ["name"; "type"; "interval"; "timeout"; "path"; "protocol";
                "port"; "command"; "args"; "initial_status";
                "tls_skip_verify"; "header"; "method"; "check_restart";
                "address_mode"; "grpc_service"; "grpc_use_tls"] in
  Prefix (CheckHCLKeysNode (Val co) valid) "check ->";;
  cm ← DecodeObject (Val co);
  header ←
    match cm !! "header" with
    | Some (VMaps headerRaw) => Some <$> mergeHeader headerRaw
    | Some _ =>
        Err "check -> header -> expected a []map[string][]string"
    | None => Ok None
    end;
  let cm := delete "header" cm in
  let cm := delete "check_restart" cm in
  check ← decodeCheck cm;
  match asObjectType (Val co) with
  | None =>
      Err ("check_restart '" +:+ Check_Name check
           +:+ "': should be an object")
  | Some checkRestartList =>
      cr ← when_present (Filter "check_restart" checkRestartList) None
             (λ cro,
                if bool_decide (1 < length cro)%nat
                then Err ("check_restart '" +:+ Check_Name check
                          +:+ "': cannot have more than 1 check_restart")
                else
                  cro0 ← index cro 0;
                  Some <$> Prefix (parseCheckRestart cro0)
                             ("check: '" +:+ Check_Name check +:+ "',"));
      Ok (mkServiceCheck check header cr)
  end.

Definition parseChecks (checkObjs : ObjectList) : result (list ServiceCheck) :=
  traverse parseCheck checkObjs.

(** The body of the loop of [parseServices]. *)
Definition parseService (idx : nat) (o : ObjectItem) : result Service :=
  let valid := ["name"; "tags"; "canary_tags"; "port"; "check";
                "address_mode"; "check_restart"] in
  Prefix (CheckHCLKeysNode (Val o) valid)
    ("service (" +:+ pretty idx +:+ ") ->");;
  m ← DecodeObject (Val o);
  let m := delete "check" m in
  let m := delete "check_restart" m in
  service ← decodeService m;
  match asObjectType (Val o) with
  | None =>
      Err ("service '" +:+ Service_Name service +:+ "': should be an object")
  | Some checkList =>
      checks ← when_present (Filter "check" checkList) []
                 (λ co, Prefix (parseChecks co)
                          ("service: '" +:+ Service_Name service +:+ "',"));
      cr ← when_present (Filter "check_restart" checkList) None
             (λ cro,
                if bool_decide (1 < length cro)%nat
                then Err ("check_restart '" +:+ Service_Name service
                          +:+ "': cannot have more than 1 check_restart")
                else
                  cro0 ← index cro 0;
                  Some <$> Prefix (parseCheckRestart cro0)
                             ("service: '" +:+ Service_Name service +:+ "',"));
      Ok (mkService service checks cr)
  end.

(** [parseServices] reads neither the job name nor the group name it is
    given. *)
Definition parseServices (jobName taskGroupName : string)
    (serviceObjs : ObjectList) : result (list Service) :=
  traverse (λ s : nat * ObjectItem, parseService s.1 s.2)
    (imap pair serviceObjs).

Definition parseArtifactOption (result : gmap string string) items
  : Go.result (gmap string string) :=
  let items := Elem items in
  if bool_decide (1 < length items)%nat
  then Err "only one 'options' block allowed per artifact" else
  o ← index items 0;
  m ← DecodeObject (Val o);
  decode_string_map m result.

Definition parseArtifacts (result : list TaskArtifact) items
  : Go.result (list TaskArtifact) :=
  foldM (λ acc o,
    let valid := ["source"; "options"; "mode"; "destination"] in
    CheckHCLKeysNode (Val o) valid;;
    m ← DecodeObject (Val o);
    let m := delete "options" m in
    ta ← decodeArtifact m;
    match asObjectType (Val o) with
    | None => Err "artifact should be an object"
    | Some optionList =>
        options ← when_present (Filter "options" optionList) None
                    (λ oo, Some <$> Prefix (parseArtifactOption ∅ oo)
                                      "options: ");
        Ok (acc ++ [mkTaskArtifact ta options])
    end) result (Elem items).

Definition parseTemplates (result : list Template) items
  : Go.result (list Template) :=
  foldM (λ acc o,
    let valid := ["change_mode"; "change_signal"; "data"; "destination";
                  "left_delimiter"; "perms"; "right_delimiter"; "source";
                  "splay"; "env"; "vault_grace"] in
    CheckHCLKeysNode (Val o) valid;;
    m ← DecodeObject (Val o);
    templ ← decodeTemplate m;
    Ok (acc ++ [templ])) result (Elem items).

(** [meta] and [env] blocks: every unlabelled block is decoded and merged
    into the same [map[string]string]. *)
Definition mergeStringBlocks (cur : gmap string string) (blocks : ObjectList)
  : result (gmap string string) :=
  foldM (λ acc o, m ← DecodeObject (Val o); decode_string_map m acc)
        cur (Elem blocks).

(** [config] blocks, merged into a [map[string]interface{}]. *)
Definition mergeValueBlocks (cur : gmap string value) (blocks : ObjectList)
  : result (gmap string value) :=
  foldM (λ acc o, m ← DecodeObject (Val o); Ok (decode_value_map m acc))
        cur (Elem blocks).

(** The [logs] block of a task. *)
Definition parseLogs (n : string) (o : ObjectList) : result (option LogConfig) :=
  if bool_decide (1 < length o)%nat
  then Err ("only one logs block is allowed in a Task. Number of logs block found: "
            +:+ pretty (length o)) else
  logsBlock ← index o 0;
  let valid := ["max_files"; "max_file_size"] in
  Prefix (CheckHCLKeysNode (Val logsBlock) valid) ("'" +:+ n +:+ "', logs ->");;
  m ← DecodeObject (Val logsBlock);
  Some <$> decodeLogConfig m.

(** The [dispatch_payload] block of a task. *)
Definition parseDispatchPayload (n : string) (o : ObjectList)
  : result (option DispatchPayloadConfig) :=
  if bool_decide (1 < length o)%nat
  then Err ("only one dispatch_payload block is allowed in a task. Number of dispatch_payload blocks found: "
            +:+ pretty (length o)) else
  dispatchBlock ← index o 0;
  let valid := ["file"] in
  Prefix (CheckHCLKeysNode (Val dispatchBlock) valid)
    ("'" +:+ n +:+ "', dispatch_payload ->");;
  m ← DecodeObject (Val dispatchBlock);
  Some <$> decodeDispatchPayloadConfig m.

(** The defaults every vault block is decoded over. *)
Definition defaultVault : Vault :=
  mkVault [] (Some true) (Some "restart") None.

(** The body of the loop of [parseTasks], from the whitelist check on, for
    the task named [n]; [taskGroupName] is the group name after the
    [taskGroupName == ""] assignment.  The entries of [m] are under keys
    of the block, which the whitelist has checked, so the attributes that
    [dec.Decode(m)] can reach are those decoded here. *)
Definition parseTask (jobName taskGroupName n : string) (item : ObjectItem)
  : result Task :=
  match asObjectType (Val item) with
  | None => Err ("group '" +:+ n +:+ "': should be an object")
  | Some listVal =>
      let valid := ["artifact"; "config"; "constraint"; "affinity";
                    "dispatch_payload"; "driver"; "env"; "kill_timeout";
                    "leader"; "logs"; "meta"; "resources"; "service";
                    "shutdown_delay"; "template"; "user"; "vault";
                    "kill_signal"] in
      Prefix (CheckHCLKeys listVal valid) ("'" +:+ n +:+ "' ->");;
      m ← DecodeObject (Val item);
      let m := foldr delete m ["artifact"; "config"; "constraint"; "affinity";
                               "dispatch_payload"; "env"; "logs"; "meta";
                               "resources"; "service"; "template"; "vault"] in
      name ← decode_field weak_string n (field m "Name");
      driver ← decode_field weak_string "" (field m "Driver");
      user ← decode_field weak_string "" (field m "User");
      killTimeout ← decode_ptr weak_duration None (field m "kill_timeout");
      leader ← decode_field weak_bool false (field m "Leader");
      shutdownDelay ← decode_field weak_duration 0 (field m "shutdown_delay");
      killSignal ← decode_field weak_string "" (field m "kill_signal");
      env ← when_present (Filter "env" listVal) ∅ (mergeStringBlocks ∅);
      services ← when_present (Filter "service" listVal) []
                   (λ o : ObjectList,
                      Prefix (parseServices jobName taskGroupName o)
                        ("'" +:+ n +:+ "',"));
      config ← when_present (Filter "config" listVal) ∅ (mergeValueBlocks ∅);
      constraints ← when_present (Filter "constraint" listVal) []
                      (λ o : ObjectList,
                         Prefix (parseConstraints [] o)
                           ("'" +:+ n +:+ "', constraint ->"));
      affinities ← when_present (Filter "affinity" listVal) []
                     (λ o : ObjectList,
                        Prefix (parseAffinities [] o) "affinity ->");
      meta ← when_present (Filter "meta" listVal) ∅ (mergeStringBlocks ∅);
      resources ← when_present (Filter "resources" listVal) None
                    (λ o : ObjectList,
                       Some <$> Prefix
                         (parseResources (mkResources None None None None [] []) o)
                         ("'" +:+ n +:+ "',"));
      logs ← when_present (Filter "logs" listVal) None (parseLogs n);
      artifacts ← when_present (Filter "artifact" listVal) []
                    (λ o : ObjectList,
                       Prefix (parseArtifacts [] o)
                         ("'" +:+ n +:+ "', artifact ->"));
      templates ← when_present (Filter "template" listVal) []
                    (λ o : ObjectList,
                       Prefix (parseTemplates [] o)
                         ("'" +:+ n +:+ "', template ->"));
      vault ← when_present (Filter "vault" listVal) None
                (λ o : ObjectList,
                   Some <$> Prefix (parseVault defaultVault o)
                              ("'" +:+ n +:+ "', vault ->"));
      dispatch ← when_present (Filter "dispatch_payload" listVal) None
                   (parseDispatchPayload n);
      Ok (mkTask name driver user config constraints affinities env services
            resources meta killTimeout logs artifacts vault templates dispatch
            leader shutdownDelay killSignal)
  end.

(** One iteration of the loop of [parseTasks]; the state is the [seen]
    set, the [taskGroupName] parameter (assigned to by the loop) and the
    tasks so far. *)
Definition parseTasksItem (jobName : string)
    (st : gset string * string * list Task) (item : ObjectItem)
  : result (gset string * string * list Task) :=
  let '(seen, taskGroupName, acc) := st in
  n ← index (Keys item) 0;
  if bool_decide (n ∈ seen)
  then Err ("task '" +:+ n +:+ "' defined more than once") else
  let seen := {[n]} ∪ seen in
  let taskGroupName :=
    if bool_decide (taskGroupName = "") then n else taskGroupName in
  t ← parseTask jobName taskGroupName n item;
  Ok (seen, taskGroupName, acc ++ [t]).

Definition parseTasks (jobName taskGroupName : string) (result : list Task)
    items : Go.result (list Task) :=
  let items := Children items in
  if bool_decide (length items = 0)%nat then Ok result else
  snd <$> foldM (parseTasksItem jobName) (∅, taskGroupName, result) items.

(** The vault push-down: [if task.Vault == nil { task.Vault = v }]. *)
Definition inheritVault (v : Vault) (t : Task) : Task :=
  match Task_Vault t with
  | None => Task_set_Vault (Some v) t
  | Some _ => t
  end.

(** The body of the loop of [parseGroups] for the group named [n], up to
    the [meta] blocks: the group without its tasks, and the items of its
    block. *)
Definition parseGroupHead (n : string) (item : ObjectItem)
  : result (TaskGroup * ObjectList) :=
  match asObjectType (Val item) with
  | None => Err ("group '" +:+ n +:+ "': should be an object")
  | Some listVal =>
      let valid := ["count"; "constraint"; "affinity"; "restart"; "meta";
                    "task"; "ephemeral_disk"; "update"; "reschedule";
                    "vault"; "migrate"; "spread"] in
      Prefix (CheckHCLKeys listVal valid) ("'" +:+ n +:+ "' ->");;
      m ← DecodeObject (Val item);
      let m := foldr delete m ["constraint"; "affinity"; "meta"; "task";
                               "restart"; "ephemeral_disk"; "update";
                               "vault"; "migrate"; "spread"] in
      name ← decode_ptr weak_string (Some n) (field m "Name");
      count ← decode_ptr (weak_int 64) None (field m "Count");
      constraints ← when_present (Filter "constraint" listVal) []
                      (λ o : ObjectList,
                         Prefix (parseConstraints [] o)
                           ("'" +:+ n +:+ "', constraint ->"));
      affinities ← when_present (Filter "affinity" listVal) []
                     (λ o : ObjectList,
                        Prefix (parseAffinities [] o)
                          ("'" +:+ n +:+ "', affinity ->"));
      restart ← when_present (Filter "restart" listVal) None
                  (λ o : ObjectList,
                     Some <$> Prefix (parseRestartPolicy o)
                                ("'" +:+ n +:+ "', restart ->"));
      spreads ← when_present (Filter "spread" listVal) []
                  (λ o : ObjectList, Prefix (parseSpread [] o) "spread ->");
      reschedule ← when_present (Filter "reschedule" listVal) None
                     (λ o : ObjectList,
                        Some <$> Prefix (parseReschedulePolicy o)
                                   ("'" +:+ n +:+ "', reschedule ->"));
      disk ← when_present (Filter "ephemeral_disk" listVal) None
               (λ o : ObjectList,
                  Some <$> Prefix (parseEphemeralDisk o)
                             ("'" +:+ n +:+ "', ephemeral_disk ->"));
      update ← when_present (Filter "update" listVal) None
                 (λ o : ObjectList,
                    Some <$> Prefix (parseUpdate o) "update ->");
      migrate ← when_present (Filter "migrate" listVal) None
                  (λ o : ObjectList,
                     Some <$> Prefix (parseMigrate o) "migrate ->");
      meta ← when_present (Filter "meta" listVal) ∅ (mergeStringBlocks ∅);
      Ok (mkTaskGroup name count constraints affinities [] spreads restart
            reschedule disk update migrate meta, listVal)
  end.

(** [*p] on a pointer: a nil pointer panics. *)
Definition deref {A} (p : option A) : result A :=
  match p with
  | Some a => Ok a
  | None => Panic
  end.

(** The tasks of the group and its vault block, which is pushed down into
    the tasks that have none. *)
Definition parseGroup (jobName n : string) (item : ObjectItem)
  : result TaskGroup :=
  gl ← parseGroupHead n item;
  let g := gl.1 in
  let listVal := gl.2 in
  gname ← deref (TaskGroup_Name g);
  tasks ← when_present (Filter "task" listVal) []
            (λ o : ObjectList,
               Prefix (parseTasks jobName gname [] o)
                 ("'" +:+ n +:+ "', task:"));
  tgVault ← when_present (Filter "vault" listVal) None
              (λ o : ObjectList,
                 Some <$> Prefix (parseVault defaultVault o)
                            ("'" +:+ n +:+ "', vault ->"));
  let tasks :=
    match tgVault with
    | Some tgVault => inheritVault tgVault <$> tasks
    | None => tasks
    end in
  Ok (TaskGroup_set_Tasks tasks g).

(** One iteration of the loop of [parseGroups]; the state is the [seen]
    set and the [collection] so far. *)
Definition parseGroupsItem (jobName : string)
    (st : gset string * list TaskGroup) (item : ObjectItem)
  : result (gset string * list TaskGroup) :=
  let '(seen, collection) := st in
  n ← index (Keys item) 0;
  if bool_decide (n ∈ seen)
  then Err ("group '" +:+ n +:+ "' defined more than once") else
  let seen := {[n]} ∪ seen in
  g ← parseGroup jobName n item;
  Ok (seen, collection ++ [g]).

(** [parseGroups] reads the name of the job and appends to its task
    groups; it is given both. *)
Definition parseGroups (jobName : string) (taskGroups : list TaskGroup) items
  : result (list TaskGroup) :=
  let items := Children items in
  if bool_decide (length items = 0)%nat then Ok taskGroups else
  st ← foldM (parseGroupsItem jobName) (∅, []) items;
  Ok (taskGroups ++ st.2).

(** The group a bare task of the job is wrapped in. *)
Definition taskGroupOf (t : Task) : TaskGroup :=
  mkTaskGroup (Some (Task_Name t)) None [] [] [t] [] None None None None None
    ∅.

(** The [task] blocks directly under the job. *)
Definition parseJobTasks (jobName : string) (o : ObjectList)
  : result (list TaskGroup) :=
  tasks ← Prefix (parseTasks jobName "" [] o) "task:";
  Ok (taskGroupOf <$> (tasks : list Task)).

(** The job-level vault push-down over every task of every group. *)
Definition inheritJobVault (jobVault : Vault) (tg : TaskGroup) : TaskGroup :=
  TaskGroup_set_Tasks (inheritVault jobVault <$> Tasks tg) tg.

(** [parseJob] up to the [meta] blocks: the job without its task groups,
    and the items of its block.  The attributes are decoded before the
    whitelist is checked; a job that passes the whitelist has no attribute
    outside the ones decoded here. *)
Definition parseJobHead items : result (Job * ObjectList) :=
  if bool_decide (length items ≠ 1%nat)
  then Err "only one 'job' block allowed" else
  let items := Children items in
  if bool_decide (length items ≠ 1%nat)
  then Err "'job' block missing name" else
  obj ← index items 0;
  m ← DecodeObject (Val obj);
  let m := foldr delete m ["constraint"; "affinity"; "meta"; "migrate";
                           "parameterized"; "periodic"; "reschedule";
                           "update"; "vault"; "spread"] in
  key ← index (Keys obj) 0;
  region ← decode_ptr weak_string None (field m "Region");
  namespace ← decode_ptr weak_string None (field m "Namespace");
  id ← decode_ptr weak_string (Some key) (field m "ID");
  name ← decode_ptr weak_string (Some key) (field m "Name");
  type ← decode_ptr weak_string None (field m "Type");
  priority ← decode_ptr (weak_int 64) None (field m "Priority");
  allAtOnce ← decode_ptr weak_bool None (field m "all_at_once");
  datacenters ← decode_strings [] (field m "Datacenters");
  vaultToken ← decode_ptr weak_string None (field m "vault_token");
  match asObjectType (Val obj) with
  | None =>
      Err ("job '" +:+ default "" id +:+ "' value: should be an object")
  | Some listVal =>
      let valid := ["all_at_once"; "constraint"; "affinity"; "spread";
                    "datacenters"; "group"; "id"; "meta"; "migrate"; "name";
                    "namespace"; "parameterized"; "periodic"; "priority";
                    "region"; "reschedule"; "task"; "type"; "update";
                    "vault"; "vault_token"] in
      Prefix (CheckHCLKeys listVal valid) "job:";;
      constraints ← when_present (Filter "constraint" listVal) []
                      (λ o : ObjectList,
                         Prefix (parseConstraints [] o) "constraint ->");
      affinities ← when_present (Filter "affinity" listVal) []
                     (λ o : ObjectList,
                        Prefix (parseAffinities [] o) "affinity ->");
      update ← when_present (Filter "update" listVal) None
                 (λ o : ObjectList,
                    Some <$> Prefix (parseUpdate o) "update ->");
      periodic ← when_present (Filter "periodic" listVal) None
                   (λ o : ObjectList,
                      Some <$> Prefix (parsePeriodic o) "periodic ->");
      spreads ← when_present (Filter "spread" listVal) []
                  (λ o : ObjectList, Prefix (parseSpread [] o) "spread ->");
      parameterized ← when_present (Filter "parameterized" listVal) None
                        (λ o : ObjectList,
                           Some <$> Prefix (parseParameterizedJob o)
                                      "parameterized ->");
      reschedule ← when_present (Filter "reschedule" listVal) None
                     (λ o : ObjectList,
                        Some <$> Prefix (parseReschedulePolicy o)
                                   "reschedule ->");
      migrate ← when_present (Filter "migrate" listVal) None
                  (λ o : ObjectList,
                     Some <$> Prefix (parseMigrate o) "migrate ->");
      meta ← when_present (Filter "meta" listVal) ∅ (mergeStringBlocks ∅);
      Ok (mkJob region namespace id name type priority allAtOnce datacenters
            constraints affinities [] update spreads periodic parameterized
            reschedule migrate meta vaultToken, listVal)
  end.

(** The task groups of the job: the bare tasks, each wrapped in a group of
    its own, then the [group] blocks, then the job-level vault block, pushed
    down last into the tasks that have none. *)
Definition parseJob items : result Job :=
  rl ← parseJobHead items;
  let result := rl.1 in
  let listVal := rl.2 in
  jobName ← deref (Name result);
  taskGroups ← when_present (Filter "task" listVal) []
                 (parseJobTasks jobName);
  taskGroups ← when_present (Filter "group" listVal) taskGroups
                 (λ o : ObjectList,
                    Prefix (parseGroups jobName taskGroups o) "group:");
  jobVault ← when_present (Filter "vault" listVal) None
               (λ o : ObjectList,
                  Some <$> Prefix (parseVault defaultVault o) "vault ->");
  let taskGroups :=
    match jobVault with
    | Some jobVault => inheritJobVault jobVault <$> taskGroups
    | None => taskGroups
    end in
  Ok (Job_set_TaskGroups taskGroups result).

(** [Parse], from the tree the tokenizer returns for the document. *)
Definition Parse (root : ObjectList) : result Job :=
  let valid := ["job"] in
  CheckHCLKeys root valid;;
  let matches := Filter "job" root in
  if bool_decide (length matches = 0)%nat
  then Err "'job' stanza not found" else
  Prefix (parseJob matches) "error parsing 'job':".

End parse.
End jobspec.

(** ** A reference instance

    The worked examples run the transform on plain documents: decimal
    integer literals, no float literal, durations written as a count and a
    unit.  [plain_decoder] decodes a block the way the tokenizer library
    does for such documents: an attribute is stored under its key, a block
    under its key as a list of maps, one map per label. *)
Module reference.

(** Decimal digits, most significant first. *)
Fixpoint digits (acc : Z) (s : string) : option Z :=
  match s with
  | EmptyString => Some acc
  | String c s' =>
      if is_digit c
      then digits (10 * acc + (Z.of_N (N_of_ascii c) - 48)) s'
      else None
  end.

Definition decimal (s : string) : option Z :=
  match s with
  | EmptyString => None
  | String "-" s' => if bool_decide (s' = "") then None else Z.opp <$> digits 0 s'
  | String "+" s' => if bool_decide (s' = "") then None else digits 0 s'
  | _ => digits 0 s
  end.

Definition parse_int (s : string) (bits : Z) : result Z :=
  match decimal s with
  | Some n =>
      if bool_decide (- 2 ^ (bits - 1) ≤ n < 2 ^ (bits - 1)) then Ok n
      else Err "value out of range"
  | None => Err "invalid syntax"
  end.

Definition parse_uint (s : string) (bits : Z) : result Z :=
  match digits 0 s with
  | Some n =>
      if bool_decide (s ≠ "" ∧ n < 2 ^ bits) then Ok n
      else Err "value out of range"
  | None => Err "invalid syntax"
  end.

(** A count followed by one of the units [ns], [us], [ms], [s], [m], [h]. *)
Fixpoint parse_duration_from (acc : Z) (s : string) : result Z :=
  match s with
  | EmptyString => Err "missing unit in duration"
  | String c s' =>
      if is_digit c
      then parse_duration_from (10 * acc + (Z.of_N (N_of_ascii c) - 48)) s'
      else if bool_decide (s = "ns") then Ok acc
      else if bool_decide (s = "us") then Ok (acc * 1000)
      else if bool_decide (s = "ms") then Ok (acc * 1000000)
      else if bool_decide (s = "s") then Ok (acc * 1000000000)
      else if bool_decide (s = "m") then Ok (acc * 60000000000)
      else if bool_decide (s = "h") then Ok (acc * 3600000000000)
      else Err "unknown unit in duration"
  end.

#[export] Instance plain_runtime : Runtime := {|
  float64 := Empty_set;
  FormatFloat := λ f, match f with end;
  float_to_int := λ f, match f with end;
  float_nonzero := λ f, match f with end;
  ParseInt := parse_int;
  ParseUint := parse_uint;
  ParseDuration := parse_duration_from 0;
|}.

(** The value a block item contributes under its first key: the decoded
    value, wrapped in one single-entry map per remaining label. *)
Fixpoint nest (labels : list string) (v : value) : value :=
  match labels with
  | [] => v
  | l :: labels' => VMaps [{[ l := nest labels' v ]}]
  end.

(** Storing a value under a key that may be there already: blocks and lists
    accumulate, an attribute replaces one of its own kind. *)
Definition store (k : string) (v : value) (m : gmap string value)
  : result (gmap string value) :=
  match m !! k, v with
  | None, _ => Ok (<[k := v]> m)
  | Some (VMaps old), VMaps new => Ok (<[k := VMaps (old ++ new)]> m)
  | Some (VList old), VList new => Ok (<[k := VList (old ++ new)]> m)
  | Some (VString _), VString _
  | Some (VInt _), VInt _
  | Some (VBool _), VBool _ => Ok (<[k := v]> m)
  | _, _ => Err ("." +:+ k +:+ ": repeated key of another kind")
  end.

Fixpoint decode_value (in_list : bool) (n : Node) : result value :=
  match n with
  | LiteralType (LString s) => Ok (VString s)
  | LiteralType (LNumber z) => Ok (VInt z)
  | LiteralType (LFloat f) => Ok (VFloat f)
  | LiteralType (LBool b) => Ok (VBool b)
  | ListType elems =>
      VList <$> (fix go (l : list Node) : result (list value) :=
                   match l with
                   | [] => Ok []
                   | x :: l' =>
                       v ← decode_value true x; vs ← go l'; Ok (v :: vs)
                   end) elems
  | ObjectType items =>
      m ← (fix go (acc : gmap string value) (l : list ObjectItem)
             : result (gmap string value) :=
             match l with
             | [] => Ok acc
             | item :: l' =>
                 match item with
                 | mkItem [] _ => Err "map must have string keys"
                 | mkItem (k :: labels) val =>
                     v ← decode_value false val;
                     acc ← store k (nest labels v) acc;
                     go acc l'
                 end
             end) ∅ items;
      Ok (if in_list then VMap m else VMaps [m])
  end.

Definition decode_object (n : Node) : result (gmap string value) :=
  match n with
  | ObjectType _ =>
      v ← decode_value true n;
      match v with VMap m => Ok m | _ => Err "not an object type for map" end
  | _ => Err "not an object type for map"
  end.

#[export] Instance plain_decoder : Decoder := {|
  DecodeObject := decode_object;
|}.

(** Every record this file leaves open is kept as the attributes it is
    decoded from. *)
Definition attr_name (m : gmap string value) : string :=
  match m !! "name" with
  | Some (VString s) => s
  | _ => ""
  end.

#[export] Instance plain_structs : Structs := {|
  RestartPolicy := gmap string value; decodeRestartPolicy := Ok;
  ReschedulePolicy := gmap string value; decodeReschedulePolicy := Ok;
  EphemeralDisk := gmap string value; decodeEphemeralDisk := Ok;
  UpdateStrategy := gmap string value; decodeUpdateStrategy := Ok;
  MigrateStrategy := gmap string value; decodeMigrateStrategy := Ok;
  PeriodicConfig := gmap string value; decodePeriodicConfig := Ok;
  ParameterizedJobConfig := gmap string value;
  decodeParameterizedJobConfig := Ok;
  LogConfig := gmap string value; decodeLogConfig := Ok;
  DispatchPayloadConfig := gmap string value;
  decodeDispatchPayloadConfig := Ok;
  Template := gmap string value; decodeTemplate := Ok;
  ArtifactFields := gmap string value; decodeArtifact := Ok;
  SpreadFields := gmap string value; decodeSpread := Ok;
  SpreadTarget := gmap string value;
  decodeSpreadTarget := λ n m, Ok (<["Value" := VString n]> m);
  CheckRestart := gmap string value; decodeCheckRestart := Ok;
  CheckFields := gmap string value; decodeCheck := Ok;
  Check_Name := attr_name;
  ServiceFields := gmap string value; decodeService := Ok;
  Service_Name := attr_name;
|}.

(** Building documents. *)
Definition attr (k : string) (l : Literal) : ObjectItem :=
  mkItem [k] (LiteralType l).
Definition block (keys : list string) (body : ObjectList) : ObjectItem :=
  mkItem keys (ObjectType body).

End reference.

(** ** Documents

    The documents of the worked examples, as the tokenizer returns them. *)
Module documents.
Import jobspec reference.

(** [job "id" { task "t" { driver = "d"  config {} } }] *)
Definition minimalJob (id t driver : string) : ObjectList :=
  [block ["job"; id]
     [block ["task"; t]
        [attr "driver" (LString driver); block ["config"] []]]].

(** The job model of [minimalJob]. *)
Definition minimalTask (t driver : string) : Task :=
  mkTask t driver "" ∅ [] [] ∅ [] None ∅ None None [] None [] None false 0 "".

Definition minimalSpec (id t driver : string) : Job :=
  mkJob None None (Some id) (Some id) None None None [] [] []
    [taskGroupOf (minimalTask t driver)] None [] None None None None ∅ None.

(** A bare task and a group of the same name:
    [job "j" { task "a" { driver = "d" }
               group "a" { task "b" { driver = "d" } } }] *)
Definition sameNameJob : ObjectList :=
  [block ["job"; "j"]
     [block ["task"; "a"] [attr "driver" (LString "d")];
      block ["group"; "a"]
        [block ["task"; "b"] [attr "driver" (LString "d")]]]].

(** Two groups of the same name. *)
Definition twoGroupsJob : ObjectList :=
  [block ["job"; "j"]
     [block ["group"; "a"]
        [block ["task"; "b"] [attr "driver" (LString "d")]];
      block ["group"; "a"]
        [block ["task"; "c"] [attr "driver" (LString "d")]]]].

(** Constraint entries: [constraint { distinct_hosts = true  value = "x" }],
    [constraint { distinct_hosts = "false" }],
    [constraint { distinct_hosts = "maybe" }],
    [constraint { version = "1.0"  regexp = "a.*" }],
    [constraint { attribute = "a"  operator = ">"  value = "3"
                  version = "1.0" }],
    [constraint { attribute = "a"  value = "3" }]. *)
Definition hostsWithValue : ObjectItem :=
  block [] [attr "distinct_hosts" (LBool true); attr "value" (LString "x")].
Definition hostsDisabled : ObjectItem :=
  block [] [attr "distinct_hosts" (LString "false")].
Definition hostsMaybe : ObjectItem :=
  block [] [attr "distinct_hosts" (LString "maybe")].
Definition versionAndRegexp : ObjectItem :=
  block [] [attr "version" (LString "1.0"); attr "regexp" (LString "a.*")].
Definition versionOverPlain : ObjectItem :=
  block [] [attr "attribute" (LString "a"); attr "operator" (LString ">");
            attr "value" (LString "3"); attr "version" (LString "1.0")].
Definition plainEntry : ObjectItem :=
  block [] [attr "attribute" (LString "a"); attr "value" (LString "3")].

(** Entries that combine aliases:
    [constraint { distinct_hosts = true  distinct_property = "rack" }],
    [constraint { version = "1.0"  set_contains = "a,b" }],
    [constraint { version = "1.0"  distinct_hosts = true }],
    [constraint { version = "1.0"  distinct_hosts = false }],
    [constraint { version = "1.0"  distinct_property = "rack" }]. *)
Definition hostsWithProperty : ObjectItem :=
  block [] [attr "distinct_hosts" (LBool true);
            attr "distinct_property" (LString "rack")].
Definition versionAndSetContains : ObjectItem :=
  block [] [attr "version" (LString "1.0");
            attr "set_contains" (LString "a,b")].
Definition versionAndHosts : ObjectItem :=
  block [] [attr "version" (LString "1.0"); attr "distinct_hosts" (LBool true)].
Definition versionAndNoHosts : ObjectItem :=
  block [] [attr "version" (LString "1.0");
            attr "distinct_hosts" (LBool false)].
Definition versionAndProperty : ObjectItem :=
  block [] [attr "version" (LString "1.0");
            attr "distinct_property" (LString "rack")].

(** Network blocks:
    [network { mbits = 10  port "http" { static = 80 }  port "db" {} }],
    [network { port "Web" {}  port "web" {} }],
    [network { port "my-port" {} }]. *)
Definition twoPorts : ObjectList :=
  [attr "mbits" (LNumber 10);
   block ["port"; "http"] [attr "static" (LNumber 80)];
   block ["port"; "db"] []].
Definition collidingPorts : ObjectList :=
  [block ["port"; "Web"] []; block ["port"; "web"] []].
Definition badLabelPort : ObjectList :=
  [block ["port"; "my-port"] []].

(** A job-level vault block over a group with two tasks, one of which has a
    vault block of its own:
    [job "j" { vault { policies = ["p"] }
               group "g" { task "a" { driver = "d" }
                           task "b" { driver = "d"
                                      vault { env = false } } } }] *)
Definition cascadeBody : ObjectList :=
  [block ["vault"]
     [mkItem ["policies"] (ListType [LiteralType (LString "p")])];
   block ["group"; "g"]
     [block ["task"; "a"] [attr "driver" (LString "d")];
      block ["task"; "b"]
        [attr "driver" (LString "d");
         block ["vault"] [attr "env" (LBool false)]]]].
Definition cascadeJob : ObjectList := [block ["job"; "j"] cascadeBody].

(** A task with an unknown key, bare and in a group. *)
Definition bogusBody : ObjectList :=
  [attr "driver" (LString "d"); attr "bogus_field" (LNumber 1)].
Definition bogusTask : ObjectItem := block ["api"] bogusBody.
Definition bogusBareJob : ObjectList :=
  [block ["job"; "j"] [block ["task"; "api"] bogusBody]].
Definition bogusGroup : ObjectItem :=
  block ["web"] [block ["task"; "api"] bogusBody].
Definition bogusGroupJob : ObjectList :=
  [block ["job"; "j"]
     [block ["group"; "web"] [block ["task"; "api"] bogusBody]]].

(** Labelled singleton blocks: [update "x" {}] as [Filter] hands it to the
    parser, a job with it, and a job with a labelled vault block
    [vault "x" { policies = ["p"] }]. *)
Definition labelledBlock : ObjectList :=
  [block ["x"] [mkItem ["policies"] (ListType [LiteralType (LString "p")])]].
Definition labelledUpdateBody : ObjectList :=
  [block ["update"; "x"]
     [mkItem ["policies"] (ListType [LiteralType (LString "p")])]].
Definition labelledUpdateJob : ObjectList :=
  [block ["job"; "j"] labelledUpdateBody].
Definition labelledVaultTask : ObjectItem :=
  block ["a"]
    [attr "driver" (LString "d");
     block ["vault"; "x"]
       [mkItem ["policies"] (ListType [LiteralType (LString "p")])]].

(** Documents without a usable [job] block: [job "a" {}  job "b" {}] and
    [job {}]. *)
Definition twoJobs : ObjectList :=
  [block ["job"; "a"] []; block ["job"; "b"] []].
Definition unnamedJob : ObjectList := [block ["job"] []].

(** The [group] blocks of [twoGroupsJob], as [Filter] hands them to
    [parseGroups]. *)
Definition twoGroups : ObjectList :=
  [block ["a"] [block ["task"; "b"] [attr "driver" (LString "d")]];
   block ["a"] [block ["task"; "c"] [attr "driver" (LString "d")]]].

(** Task blocks, as [Filter] hands them to [parseTasks]: two tasks of one
    name, and two tasks whose names differ by case only. *)
Definition twoTasks : ObjectList :=
  [block ["t"] [attr "driver" (LString "d")];
   block ["t"] [attr "driver" (LString "e")]].
Definition caseTasks : ObjectList :=
  [block ["Web"] [attr "driver" (LString "d")];
   block ["web"] [attr "driver" (LString "d")]].

(** A task block and a group block without a label, and a job with such a
    task block: [job "j" { task { bogus = 1 } }]. *)
Definition unlabelledTask : ObjectItem :=
  block [] [attr "bogus" (LNumber 1)].
Definition unlabelledTaskJob : ObjectList :=
  [block ["job"; "j"] [block ["task"] [attr "bogus" (LNumber 1)]]].

(** A labelled constraint block, and a job with it:
    [job "j" { constraint "x" { bogus = 1 } }]. *)
Definition labelledConstraint : ObjectItem :=
  block ["x"] [attr "bogus" (LNumber 1)].
Definition labelledConstraintJob : ObjectList :=
  [block ["job"; "j"] [block ["constraint"; "x"] [attr "bogus" (LNumber 1)]]].

(** An artifact whose [options] block is labelled:
    [artifact { source = "s"  options "x" {} }]. *)
Definition labelledOptionsBody : ObjectList :=
  [attr "source" (LString "s"); block ["options"; "x"] []].
Definition labelledOptionsArtifact : ObjectItem :=
  block [] labelledOptionsBody.

(** Two unlabelled blocks of one kind, and a job with two [update]
    blocks. *)
Definition twoBlocks : ObjectList := [block [] []; block [] []].
Definition twoUpdatesBody : ObjectList :=
  [block ["update"] []; block ["update"] []].
Definition twoUpdatesJob : ObjectList := [block ["job"; "j"] twoUpdatesBody].


(** A network block with a port that has no label: [network { port {} }]. *)
Definition unnamedPort : ObjectList := [block ["port"] []].

(** A resources block:
    [resources { cpu = 500
                 network { mbits = 10  port "http" { static = 80 }
                           port "db" {} }
                 device "gpu" { count = 2 } }]. *)
Definition resourcesBody : ObjectList :=
  [attr "cpu" (LNumber 500);
   block ["network"] twoPorts;
   block ["device"; "gpu"] [attr "count" (LNumber 2)]].
Definition resourcesBlock : ObjectList := [block [] resourcesBody].

(** A constraint list: a plain entry, a disabled [distinct_hosts] and a
    labelled block. *)
Definition threeConstraints : ObjectList :=
  [plainEntry; hostsDisabled; labelledConstraint].

(** An affinity entry with two aliases:
    [affinity { attribute = "a"  operator = ">"  value = "3"
                version = "1.0"  set_contains = "x,y" }]. *)
Definition affinityEntry : ObjectItem :=
  block [] [attr "attribute" (LString "a"); attr "operator" (LString ">");
            attr "value" (LString "3"); attr "version" (LString "1.0");
            attr "set_contains" (LString "x,y")].

(** A check with two [header] blocks and a restart policy, and a service
    with it:
    [service { name = "web"
               check { name = "alive"
                       header { Host = ["a"] }
                       header { Host = ["b"]  Accept = ["c"] }
                       check_restart { limit = 3 } } }]. *)
Definition checkBody : ObjectList :=
  [attr "name" (LString "alive");
   block ["header"] [mkItem ["Host"] (ListType [LiteralType (LString "a")])];
   block ["header"] [mkItem ["Host"] (ListType [LiteralType (LString "b")]);
                     mkItem ["Accept"] (ListType [LiteralType (LString "c")])];
   block ["check_restart"] [attr "limit" (LNumber 3)]].
Definition checkBlock : ObjectItem := block [] checkBody.
Definition serviceBody : ObjectList :=
  [attr "name" (LString "web"); block ["check"] checkBody].
Definition serviceBlock : ObjectItem := block [] serviceBody.

(** Periodic blocks: [periodic { enabled = "true"  cron = "@daily" }] and
    [periodic { enabled = 1 }]. *)
Definition periodicBlock : ObjectItem :=
  block [] [attr "enabled" (LString "true"); attr "cron" (LString "@daily")].
Definition periodicNumber : ObjectItem :=
  block [] [attr "enabled" (LNumber 1)].

(** A job without a vault block, whose group has one:
    [job "j" { task "a" { driver = "d" }
               group "g" { vault { policies = ["p"] }
                           task "b" { driver = "d" } } }]. *)
Definition groupVaultBody : ObjectList :=
  [block ["task"; "a"] [attr "driver" (LString "d")];
   block ["group"; "g"]
     [block ["vault"]
        [mkItem ["policies"] (ListType [LiteralType (LString "p")])];
      block ["task"; "b"] [attr "driver" (LString "d")]]].
Definition groupVaultJob : ObjectList := [block ["job"; "j"] groupVaultBody].

(** The job model of [cascadeJob]. *)
Definition cascadeSpec : Job :=
  mkJob None None (Some "j") (Some "j") None None None [] [] []
    [mkTaskGroup (Some "g") None [] []
       [mkTask "a" "d" "" ∅ [] [] ∅ [] None ∅ None None []
          (Some (mkVault ["p"] (Some true) (Some "restart") None))
          [] None false 0 "";
        mkTask "b" "d" "" ∅ [] [] ∅ [] None ∅ None None []
          (Some (mkVault [] (Some false) (Some "restart") None))
          [] None false 0 ""]
       [] None None None None None ∅]
    None [] None None None None ∅ None.


End documents.

(** ** Statements

    The vocabulary the properties are stated in. *)
Module statements.
Section statements.
Context `{Runtime} `{!Decoder} `{!Structs}.
Import jobspec.

Implicit Types (m : gmap string value) (o : ObjectItem).

(** The whitelist of a constraint entry. *)
Definition constraintKeys : list string :=
  ["attribute"; "distinct_hosts"; "distinct_property"; "operator"; "regexp";
   "set_contains"; "value"; "version"].

(** The whitelist of an affinity entry. *)
Definition affinityKeys : list string :=
  ["attribute"; "operator"; "regexp"; "set_contains"; "set_contains_any";
   "set_contains_all"; "value"; "version"; "weight"].

(** The map of a constraint entry after the plain assignments and the
    [version], [regexp] and [set_contains] steps. *)
Definition aliased m : gmap string value :=
  alias structs.ConstraintSetContains "RTarget"
    (alias structs.ConstraintRegex "RTarget"
       (alias structs.ConstraintVersion "RTarget" (plainTargets m))).

(** What these steps leave under [RTarget]: the value of the last alias
    present in the order [version], [regexp], [set_contains], otherwise the
    plain [value]. *)
Definition rtargetOf m : value :=
  match m !! "set_contains", m !! "regexp", m !! "version" with
  | Some v, _, _ => v
  | None, Some v, _ => v
  | None, None, Some v => v
  | None, None, None => at_key m "value"
  end.

(** What they leave under [Operand]. *)
Definition operandOf m : value :=
  match m !! "set_contains", m !! "regexp", m !! "version" with
  | Some _, _, _ => VString "set_contains"
  | None, Some _, _ => VString "regexp"
  | None, None, Some _ => VString "version"
  | None, None, None => at_key m "operator"
  end.

(** The whitelist of a network block. *)
Definition networkKeys : list string := ["mbits"; "port"].

(** A declared port: the [port] item, labelled [Label p], decodes to a map
    whose [static] attribute (absent: [0]) decodes to [Value p]. *)
Definition declares (port : ObjectItem) (p : Port) : Prop :=
  ∃ rest m,
    Keys port = Label p :: rest ∧
    DecodeObject (Val port) = Ok m ∧
    decode_field (weak_int 64) 0 (field m "static") = Ok (Value p).

(** The label of a port, case-folded as the collision check does. *)
Definition foldedLabel (p : Port) : string := ToLower (Label p).

(** The vault a task ends up with, given what it inherits from its
    enclosing blocks: the one of its own [vault] block when it has one,
    otherwise the inherited one. *)
Definition taskVault (inherited : option Vault) (item : ObjectItem)
    (t : Task) : Prop :=
  ∃ body,
    Val item = ObjectType body ∧
    (Filter "vault" body = [] → Task_Vault t = inherited) ∧
    (Filter "vault" body ≠ [] →
     ∃ v, parseVault defaultVault (Filter "vault" body) = Ok v ∧
          Task_Vault t = Some v).

(** The same for the group synthesized around a bare task of the job. *)
Definition bareTaskVault (inherited : option Vault) (item : ObjectItem)
    (tg : TaskGroup) : Prop :=
  ∃ t, tg = taskGroupOf t ∧ taskVault inherited item t.

(** The vaults of the tasks of a [group] block: what the tasks inherit is
    the vault of the group when it has a [vault] block, otherwise what the
    group inherits from the job. *)
Definition groupVault (inherited : option Vault) (item : ObjectItem)
    (tg : TaskGroup) : Prop :=
  ∃ body pushed,
    Val item = ObjectType body ∧
    (Filter "vault" body = [] → pushed = inherited) ∧
    (Filter "vault" body ≠ [] →
     ∃ v, parseVault defaultVault (Filter "vault" body) = Ok v ∧
          pushed = Some v) ∧
    Forall2 (taskVault pushed) (Children (Filter "task" body)) (Tasks tg).

(** The whitelist of a task block. *)
Definition taskKeys : list string :=
  ["artifact"; "config"; "constraint"; "affinity"; "dispatch_payload";
   "driver"; "env"; "kill_timeout"; "leader"; "logs"; "meta"; "resources";
   "service"; "shutdown_delay"; "template"; "user"; "vault"; "kill_signal"].

(** The key set of a block. *)
Definition blockKeys (body : ObjectList) : list string :=
  omap (λ item : ObjectItem, head (Keys item)) body.

(** The text of errors: the schema error for a key, and a message under
    the path prefix a caller puts in front of it. *)
Definition invalidKey (k : string) : string := "invalid key: " +:+ k.
Definition under (prefix msg : string) : string := prefix +:+ " " +:+ msg.

(** The first key of a block that is not in a whitelist. *)
Definition firstUnknown (body : ObjectList) (valid : list string)
    (k : string) : Prop :=
  ∃ i, blockKeys body !! i = Some k ∧ (k ∉ valid) ∧
       ∀ j y, blockKeys body !! j = Some y → (j < i)%nat → y ∈ valid.

(** The singleton policy blocks of a job and of a group. *)
Definition jobPolicyKeys : list string :=
  ["update"; "periodic"; "parameterized"; "reschedule"; "migrate"].
Definition groupPolicyKeys : list string :=
  ["restart"; "reschedule"; "ephemeral_disk"; "update"; "migrate"].

(** The label of a [group] block. *)
Definition groupLabel (item : ObjectItem) : string :=
  default "" (head (Keys item)).

(** The shape of the group of a [group] block: it has a name, and one task
    for each labelled [task] block. *)
Definition groupShape (item : ObjectItem) (tg : TaskGroup) : Prop :=
  ∃ body,
    Val item = ObjectType body ∧ is_Some (TaskGroup_Name tg) ∧
    length (Tasks tg) = length (Children (Filter "task" body)).

(** The label of a [task] block. *)
Definition taskLabel (item : ObjectItem) : string :=
  default "" (head (Keys item)).

(** The map of an affinity entry after the plain assignments and the five
    alias steps. *)
Definition affinityAliased (m : gmap string value) : gmap string value :=
  alias structs.ConstraintSetContains "RTarget"
    (alias structs.ConstraintSetContainsAll "RTarget"
       (alias structs.ConstraintSetContainsAny "RTarget"
          (alias structs.ConstraintRegex "RTarget"
             (alias structs.ConstraintVersion "RTarget" (plainTargets m))))).

(** The alias attribute that decides an affinity entry, with its value: the
    last one present in the order [version], [regexp], [set_contains_any],
    [set_contains_all], [set_contains]. *)
Definition affinityAlias (m : gmap string value) : option (string * value) :=
  match m !! "set_contains", m !! "set_contains_all",
        m !! "set_contains_any", m !! "regexp", m !! "version" with
  | Some v, _, _, _, _ => Some ("set_contains", v)
  | None, Some v, _, _, _ => Some ("set_contains_all", v)
  | None, None, Some v, _, _ => Some ("set_contains_any", v)
  | None, None, None, Some v, _ => Some ("regexp", v)
  | None, None, None, None, Some v => Some ("version", v)
  | None, None, None, None, None => None
  end.

(** The shape of a check: at most one [check_restart] block, and a restart
    policy exactly when there is one. *)
Definition checkShape (co : ObjectItem) (c : ServiceCheck) : Prop :=
  ∃ body,
    Val co = ObjectType body ∧
    (length (Filter "check_restart" body) ≤ 1)%nat ∧
    (Filter "check_restart" body = [] ↔ Check_CheckRestart c = None).

(** The shape of a service: one check for each [check] block, in their
    order, at most one [check_restart] block, and a restart policy exactly
    when there is one. *)
Definition serviceShape (o : ObjectItem) (s : Service) : Prop :=
  ∃ body,
    Val o = ObjectType body ∧
    Forall2 checkShape (Filter "check" body) (Checks s) ∧
    (length (Filter "check_restart" body) ≤ 1)%nat ∧
    (Filter "check_restart" body = [] ↔ Service_CheckRestart s = None).

(** The strings of the value of one header name in one [header] block. *)
Definition headerValues (v : option value) : list string :=
  match v with
  | Some (VList vs) =>
      omap (λ v, match v with VString s => Some s | _ => None end) vs
  | _ => []
  end.

(** The whitelist of a [periodic] block. *)
Definition periodicKeys : list string :=
  ["enabled"; "cron"; "prohibit_overlap"; "time_zone"].



End statements.
End statements.
Export statements.

(** ** Properties of the transform *)
Module properties.
Import jobspec.

Lemma Ok_inj {A} (a b : A) : Ok a = Ok b → a = b.
Proof. by intros [= ->]. Qed.

(** Inversion of the successful steps of the error monad. *)
Ltac inv_ok H :=
  match type of H with
  | (?r ≫= ?f) = Ok _ =>
      let x := fresh "x" in
      let Hx := fresh "Hx" in
      destruct r as [x| |] eqn:Hx; [cbn [mbind result_bind] in H | done..]
  | (?f <$> ?r) = Ok _ =>
      let x := fresh "x" in
      let Hx := fresh "Hx" in
      destruct r as [x| |] eqn:Hx; [cbn [fmap result_fmap] in H | done..]
  | Prefix ?r _ = Ok _ =>
      let x := fresh "x" in
      let Hx := fresh "Hx" in
      destruct r as [x| |] eqn:Hx; [cbn [Prefix] in H | done..]
  | Ok _ = Ok _ => apply Ok_inj in H
  end.

(** One step of a sequence that cannot succeed: either the step fails, or
    the rest is looked at. *)
Ltac step_not_ok :=
  match goal with
  | |- is_Ok (?r ≫= _) = false =>
      let Hr := fresh "Hr" in
      destruct r eqn:Hr; cbn [mbind result_bind is_Ok]; [|done..]
  end.

(** Inversion of one successful step, naming its value and its equation. *)
Ltac inv_as H x Hx :=
  match type of H with
  | (?r ≫= _) = Ok _ =>
      destruct r as [x| |] eqn:Hx; [cbn [mbind result_bind] in H | done..]
  | (_ <$> ?r) = Ok _ =>
      destruct r as [x| |] eqn:Hx; [cbn [fmap result_fmap] in H | done..]
  | Prefix ?r _ = Ok _ =>
      destruct r as [x| |] eqn:Hx; [cbn [Prefix] in H | done..]
  end.

Ltac inv_oks :=
  repeat match goal with
         | H : _ = Ok _ |- _ => progress (inv_ok H)
         end.

Section properties.
Context {runtime : Runtime} {decoder : Decoder} {structs_ : Structs}.

Implicit Types (m : gmap string value) (o : ObjectItem).

(** *** The error monad and its loops *)

Lemma bind_Ok {A B} (r : result A) (f : A → result B) b :
  r ≫= f = Ok b ↔ ∃ a, r = Ok a ∧ f a = Ok b.
Proof.
  destruct r as [a| |]; cbn; split; try done.
  - intros Hf. by exists a.
  - by intros (a' & [= <-] & Hf).
  - by intros (a' & [=] & _).
  - by intros (a' & [=] & _).
Qed.

Lemma Prefix_Ok {A} (r : result A) p a : Prefix r p = Ok a ↔ r = Ok a.
Proof. by destruct r. Qed.

Lemma is_Ok_false_bind {A B} (r : result A) (f : A → result B) :
  is_Ok r = false → is_Ok (r ≫= f) = false.
Proof. by destruct r. Qed.

Lemma is_Ok_true {A} (r : result A) : is_Ok r = true ↔ ∃ a, r = Ok a.
Proof.
  destruct r as [a| |]; cbn; split; try done; try by intros [? [=]].
  by exists a.
Qed.

Lemma foldM_app {A B} (f : B → A → result B) acc l1 l2 :
  foldM f acc (l1 ++ l2) = acc' ← foldM f acc l1; foldM f acc' l2.
Proof.
  revert acc. induction l1 as [|x l1 IH]; intros acc; cbn; [done|].
  destruct (f acc x); cbn; [apply IH | done..].
Qed.

(** A loop cannot succeed over an element on which its body fails from
    every state. *)
Lemma foldM_fails {A B} (f : B → A → result B) acc l x :
  x ∈ l → (∀ b, is_Ok (f b x) = false) → is_Ok (foldM f acc l) = false.
Proof.
  intros Hx Hf. revert acc. induction l as [|y l IH]; intros acc.
  - by apply elem_of_nil in Hx.
  - cbn. apply elem_of_cons in Hx as [<-|Hx].
    + apply is_Ok_false_bind, Hf.
    + destruct (f acc y); cbn; [by apply IH | done..].
Qed.

Lemma Elem_app (l1 l2 : ObjectList) : Elem (l1 ++ l2) = Elem l1 ++ Elem l2.
Proof. apply filter_app. Qed.

Lemma Elem_cons_unlabelled o (l : ObjectList) :
  Keys o = [] → Elem (o :: l) = o :: Elem l.
Proof. intros Hk. unfold Elem. by rewrite filter_cons_True. Qed.

(** *** Constraints and affinities *)

Lemma plainTargets_other m k :
  k ≠ "LTarget" → k ≠ "RTarget" → k ≠ "Operand" →
  plainTargets m !! k = m !! k.
Proof. intros. unfold plainTargets. by rewrite !lookup_insert_ne. Qed.

Lemma plainTargets_LTarget m :
  plainTargets m !! "LTarget" = Some (at_key m "attribute").
Proof.
  unfold plainTargets. rewrite !lookup_insert_ne by done.
  by rewrite lookup_insert_eq.
Qed.

Lemma plainTargets_RTarget m :
  plainTargets m !! "RTarget" = Some (at_key m "value").
Proof.
  unfold plainTargets. rewrite lookup_insert_ne by done.
  rewrite lookup_insert_eq. unfold at_key. by rewrite lookup_insert_ne.
Qed.

Lemma plainTargets_Operand m :
  plainTargets m !! "Operand" = Some (at_key m "operator").
Proof.
  unfold plainTargets. rewrite lookup_insert_eq. unfold at_key.
  by rewrite !lookup_insert_ne.
Qed.

Lemma alias_other key target m k :
  k ≠ target → k ≠ "Operand" → alias key target m !! k = m !! k.
Proof.
  intros. unfold alias. destruct (m !! key); [|done].
  by rewrite !lookup_insert_ne.
Qed.

Lemma alias_target key target m :
  alias key target m !! target =
    match m !! key with Some v => Some v | None => m !! target end.
Proof.
  unfold alias. destruct (m !! key); [|done]. by rewrite lookup_insert_eq.
Qed.

Lemma alias_Operand key target m :
  target ≠ "Operand" →
  alias key target m !! "Operand" =
    match m !! key with
    | Some _ => Some (VString key)
    | None => m !! "Operand"
    end.
Proof.
  intros. unfold alias. destruct (m !! key); [|done].
  rewrite lookup_insert_ne by done. by rewrite lookup_insert_eq.
Qed.

Lemma alias_absent key target m : m !! key = None → alias key target m = m.
Proof. unfold alias. by intros ->. Qed.

Lemma aliased_other m k :
  k ≠ "LTarget" → k ≠ "RTarget" → k ≠ "Operand" → aliased m !! k = m !! k.
Proof.
  intros. unfold aliased. rewrite !alias_other by done.
  by apply plainTargets_other.
Qed.

Lemma aliased_LTarget m : aliased m !! "LTarget" = Some (at_key m "attribute").
Proof.
  unfold aliased. rewrite !alias_other by done. apply plainTargets_LTarget.
Qed.

Lemma aliased_RTarget m : aliased m !! "RTarget" = Some (rtargetOf m).
Proof.
  unfold aliased, rtargetOf, structs.ConstraintSetContains,
    structs.ConstraintRegex, structs.ConstraintVersion.
  rewrite !alias_target, !alias_other, !plainTargets_other by done.
  rewrite plainTargets_RTarget.
  by destruct (m !! "set_contains"), (m !! "regexp"), (m !! "version").
Qed.

Lemma aliased_Operand m : aliased m !! "Operand" = Some (operandOf m).
Proof.
  unfold aliased, operandOf, structs.ConstraintSetContains,
    structs.ConstraintRegex, structs.ConstraintVersion.
  rewrite !alias_Operand, !alias_other, !plainTargets_other by done.
  rewrite plainTargets_Operand.
  by destruct (m !! "set_contains"), (m !! "regexp"), (m !! "version").
Qed.

Lemma field_exact m k v : m !! k = Some v → field m k = Some v.
Proof. unfold field. by intros ->. Qed.

(** The loop body, once the entry has passed the whitelist and is
    decoded. *)
Lemma parseConstraint_decoded o m :
  CheckHCLKeysNode (Val o) constraintKeys = Ok () →
  DecodeObject (Val o) = Ok m →
  parseConstraint o =
    hosts ← distinctHosts (aliased m);
    match hosts with
    | None => Ok None
    | Some m' =>
        c ← decodeConstraint
              (alias structs.ConstraintDistinctProperty "LTarget" m');
        Ok (Some (defaultOperand c))
    end.
Proof.
  intros Hk Hd. unfold parseConstraint. fold constraintKeys.
  by rewrite Hk, Hd.
Qed.

Lemma distinctHosts_aliased m :
  distinctHosts (aliased m) =
    match m !! "distinct_hosts" with
    | Some v =>
        match parseBool v with
        | Ok true => Ok (Some (<["Operand" := VString "distinct_hosts"]>
                                 (aliased m)))
        | Ok false => Ok None
        | Err e =>
            Err ("distinct_hosts should be set to true or false; " +:+ e)
        | Panic => Panic
        end
    | None => Ok (Some (aliased m))
    end.
Proof.
  unfold distinctHosts, structs.ConstraintDistinctHosts.
  by rewrite aliased_other.
Qed.

Lemma parseBool_no_panic v : parseBool v ≠ Panic.
Proof.
  destruct v; cbn; try done. unfold ParseBool.
  by repeat case_bool_decide.
Qed.

(** An entry that is dropped leaves the list as if it were not there. *)
Lemma parseConstraints_dropped o result (pre post : ObjectList) :
  Keys o = [] → parseConstraint o = Ok None →
  parseConstraints result (pre ++ o :: post)
  = parseConstraints result (pre ++ post).
Proof.
  intros Hk Ho. unfold parseConstraints.
  rewrite !Elem_app, Elem_cons_unlabelled, !foldM_app by done.
  destruct (foldM _ result (Elem pre)) as [acc| |]; cbn; [|done..].
  rewrite Ho. cbn. by rewrite app_nil_r.
Qed.

Lemma parseConstraints_fails o result (items : ObjectList) :
  o ∈ Elem items → is_Ok (parseConstraint o) = false →
  is_Ok (parseConstraints result items) = false.
Proof.
  intros Ho Hf. unfold parseConstraints.
  apply (foldM_fails _ _ _ o); [done|].
  intros b. by apply is_Ok_false_bind.
Qed.

(** The decode of an enabled [distinct_hosts] entry without
    [distinct_property]: the operand is fixed, the targets are decoded from
    what the earlier steps left. *)
Lemma decodeConstraint_hosts m :
  m !! "distinct_property" = None →
  decodeConstraint
    (alias structs.ConstraintDistinctProperty "LTarget"
       (<["Operand" := VString "distinct_hosts"]> (aliased m)))
  = l ← decode_field weak_string "" (Some (at_key m "attribute"));
    r ← decode_field weak_string "" (Some (rtargetOf m));
    Ok (mkConstraint l r "distinct_hosts").
Proof.
  intros Hp. rewrite alias_absent.
  2:{ unfold structs.ConstraintDistinctProperty.
      rewrite lookup_insert_ne by done. by rewrite aliased_other. }
  unfold decodeConstraint.
  rewrite (field_exact _ "LTarget" (at_key m "attribute")).
  2:{ rewrite lookup_insert_ne by done. apply aliased_LTarget. }
  rewrite (field_exact _ "RTarget" (rtargetOf m)).
  2:{ rewrite lookup_insert_ne by done. apply aliased_RTarget. }
  rewrite (field_exact _ "Operand" (VString "distinct_hosts")).
  2:{ apply lookup_insert_eq. }
  done.
Qed.

(** The decode of an entry with neither [distinct_hosts] nor
    [distinct_property]. *)
Lemma decodeConstraint_plain m :
  m !! "distinct_property" = None →
  decodeConstraint
    (alias structs.ConstraintDistinctProperty "LTarget" (aliased m))
  = l ← decode_field weak_string "" (Some (at_key m "attribute"));
    r ← decode_field weak_string "" (Some (rtargetOf m));
    op ← decode_field weak_string "" (Some (operandOf m));
    Ok (mkConstraint l r op).
Proof.
  intros Hp. rewrite alias_absent.
  2:{ unfold structs.ConstraintDistinctProperty. by rewrite aliased_other. }
  unfold decodeConstraint.
  by rewrite (field_exact _ _ _ (aliased_LTarget m)),
    (field_exact _ _ _ (aliased_RTarget m)),
    (field_exact _ _ _ (aliased_Operand m)).
Qed.

Lemma defaultOperand_nonempty (c : Constraint) :
  Operand (defaultOperand c) ≠ "".
Proof. unfold defaultOperand. by case_bool_decide. Qed.

Lemma defaultOperand_set (c : Constraint) :
  Operand c ≠ "" → defaultOperand c = c.
Proof. intros Hc. unfold defaultOperand. by rewrite bool_decide_false. Qed.

(** C3 (as amended).  For a constraint entry that passes the whitelist and
    decodes to [m] with a [distinct_hosts] value [v]:
    - if [v] parses to false (the string ["false"], the literal [false]),
      the entry yields no constraint and the resulting list is the one of
      the same block list without the entry;
    - if [v] parses to true and there is no [distinct_property], the operand
      of the resulting constraint is [distinct_hosts] and its right-target
      is the one left by [set_contains], [regexp], [version] or the plain
      [value] (in particular a plain [value] is kept, and the right-target
      is empty when none of the four is present);
    - if [v] is neither a boolean nor a string that parses as one, the
      entry, and with it every block list that holds it, fails with an
      error. *)
Theorem C3_distinct_hosts o m v :
  CheckHCLKeysNode (Val o) constraintKeys = Ok () →
  DecodeObject (Val o) = Ok m →
  m !! "distinct_hosts" = Some v →
  (parseBool v = Ok false →
     parseConstraint o = Ok None ∧
     ∀ result (pre post : ObjectList), Keys o = [] →
       parseConstraints result (pre ++ o :: post)
       = parseConstraints result (pre ++ post)) ∧
  (parseBool v = Ok true → m !! "distinct_property" = None →
     parseConstraint o
     = (l ← decode_field weak_string "" (Some (at_key m "attribute"));
        r ← decode_field weak_string "" (Some (rtargetOf m));
        Ok (Some (mkConstraint l r "distinct_hosts"))) ∧
     (∀ x, m !! "value" = Some (VString x) → m !! "version" = None →
           m !! "regexp" = None → m !! "set_contains" = None →
           rtargetOf m = VString x) ∧
     (m !! "value" = None → m !! "version" = None →
      m !! "regexp" = None → m !! "set_contains" = None →
      rtargetOf m = VNil)) ∧
  ((∀ b, parseBool v ≠ Ok b) →
     (∃ e, parseConstraint o
           = Err ("distinct_hosts should be set to true or false; " +:+ e)) ∧
     ∀ result (items : ObjectList), o ∈ Elem items →
       is_Ok (parseConstraints result items) = false).
Proof.
  intros Hk Hd Hv.
  pose proof (parseConstraint_decoded o m Hk Hd) as Hp.
  rewrite distinctHosts_aliased, Hv in Hp.
  split; [|split].
  - intros Hb. rewrite Hb in Hp. cbn in Hp. split; [done|].
    intros result pre post Hkeys. by apply parseConstraints_dropped.
  - intros Hb Hprop. rewrite Hb in Hp. cbn [mbind result_bind] in Hp.
    rewrite decodeConstraint_hosts in Hp by done.
    split; [|split].
    + rewrite Hp.
      destruct (decode_field weak_string "" (Some (at_key m "attribute")))
        as [l| |]; cbn [mbind result_bind]; [|done..].
      destruct (decode_field weak_string "" (Some (rtargetOf m)))
        as [r| |]; cbn [mbind result_bind]; [|done..].
      by rewrite defaultOperand_set.
    + intros x Hx Hver Hre Hsc. unfold rtargetOf, at_key.
      by rewrite Hsc, Hre, Hver, Hx.
    + intros Hx Hver Hre Hsc. unfold rtargetOf, at_key.
      by rewrite Hsc, Hre, Hver, Hx.
  - intros Hb.
    assert (∃ e, parseBool v = Err e) as [e He].
    { destruct (parseBool v) as [b|e|] eqn:Hpb.
      - by destruct (Hb b).
      - by exists e.
      - by destruct (parseBool_no_panic v). }
    rewrite He in Hp. cbn in Hp. split; [by exists e|].
    intros result items Ho. apply (parseConstraints_fails o); [done|].
    by rewrite Hp.
Qed.

(** C4 (as amended).  A constraint entry that provides [version = "v"]
    and none of [regexp], [set_contains], [distinct_hosts] and
    [distinct_property] yields operand [version] and right-target ["v"],
    whatever plain [operator] and [value] it also has.  The operand of a
    resulting constraint or affinity is never empty, and it is ["="] when
    the entry has neither an [operator] nor an alias attribute. *)
Theorem C4_version_alias_and_default_operand :
  (∀ o m v l,
     CheckHCLKeysNode (Val o) constraintKeys = Ok () →
     DecodeObject (Val o) = Ok m →
     m !! "version" = Some (VString v) →
     m !! "regexp" = None → m !! "set_contains" = None →
     m !! "distinct_hosts" = None → m !! "distinct_property" = None →
     decode_field weak_string "" (Some (at_key m "attribute")) = Ok l →
     parseConstraint o = Ok (Some (mkConstraint l v "version"))) ∧
  (∀ o c, parseConstraint o = Ok (Some c) → Operand c ≠ "") ∧
  (∀ o m c,
     DecodeObject (Val o) = Ok m →
     m !! "operator" = None → m !! "version" = None →
     m !! "regexp" = None → m !! "set_contains" = None →
     m !! "distinct_hosts" = None → m !! "distinct_property" = None →
     parseConstraint o = Ok (Some c) → Operand c = "=") ∧
  (∀ o a, parseAffinity o = Ok a → Affinity_Operand a ≠ "") ∧
  (∀ o m a,
     DecodeObject (Val o) = Ok m →
     m !! "operator" = None → m !! "version" = None →
     m !! "regexp" = None → m !! "set_contains_any" = None →
     m !! "set_contains_all" = None → m !! "set_contains" = None →
     parseAffinity o = Ok a → Affinity_Operand a = "=").
Proof.
  split; [|split; [|split; [|split]]].
  - intros o m v l Hk Hd Hv Hre Hsc Hh Hp Hl.
    rewrite (parseConstraint_decoded o m Hk Hd), distinctHosts_aliased, Hh.
    cbn [mbind result_bind].
    rewrite decodeConstraint_plain, Hl by done.
    unfold rtargetOf, operandOf. rewrite Hsc, Hre, Hv. cbn.
    by rewrite defaultOperand_set.
  - intros o c Ho. unfold parseConstraint in Ho.
    repeat inv_ok Ho. destruct x1 as [m'|]; [|done].
    repeat inv_ok Ho. injection Ho as <-. apply defaultOperand_nonempty.
  - intros o m c Hd Hop Hver Hre Hsc Hh Hp Ho.
    assert (CheckHCLKeysNode (Val o) constraintKeys = Ok ()) as Hk.
    { unfold parseConstraint in Ho. fold constraintKeys in Ho.
      by destruct (CheckHCLKeysNode (Val o) constraintKeys) as [[]| |]. }
    rewrite (parseConstraint_decoded o m Hk Hd), distinctHosts_aliased, Hh
      in Ho.
    cbn [mbind result_bind] in Ho.
    rewrite decodeConstraint_plain in Ho by done.
    unfold operandOf, at_key in Ho. rewrite Hsc, Hre, Hver, Hop in Ho.
    cbn [default decode_field] in Ho. inv_oks. by simplify_eq.
  - intros o a Ho. unfold parseAffinity in Ho. repeat inv_ok Ho.
    subst a. by case_bool_decide.
  - intros o m a Hd Hop Hver Hre Hany Hall Hsc Ho.
    unfold parseAffinity in Ho. inv_ok Ho. rewrite Hd in Ho.
    cbn [mbind result_bind] in Ho.
    unfold structs.ConstraintSetContains, structs.ConstraintSetContainsAll,
      structs.ConstraintSetContainsAny, structs.ConstraintRegex,
      structs.ConstraintVersion in Ho.
    rewrite (alias_absent "version") in Ho
      by (by rewrite plainTargets_other).
    rewrite (alias_absent "regexp") in Ho
      by (by rewrite plainTargets_other).
    rewrite (alias_absent "set_contains_any") in Ho
      by (by rewrite plainTargets_other).
    rewrite (alias_absent "set_contains_all") in Ho
      by (by rewrite plainTargets_other).
    rewrite (alias_absent "set_contains") in Ho
      by (by rewrite plainTargets_other).
    unfold decodeAffinity in Ho.
    rewrite (field_exact _ _ _ (plainTargets_Operand m)) in Ho.
    unfold at_key in Ho. rewrite Hop in Ho. cbn [default decode_field] in Ho.
    inv_oks. by simplify_eq.
Qed.

(** *** Ports *)

(** One accepted iteration of the port loop. *)
Lemma parsePort_Ok known nw0 (port : ObjectItem) known' nw :
  parsePort (known, nw0) port = Ok (known', nw) →
  ∃ p, declares port p ∧
       reDynamicPorts_MatchString (Label p) = true ∧
       (foldedLabel p ∉ known) ∧
       known' = {[foldedLabel p]} ∪ known ∧
       MBits nw = MBits nw0 ∧
       ReservedPorts nw
       = ReservedPorts nw0 ++ (if bool_decide (0 < Value p) then [p] else []) ∧
       DynamicPorts nw
       = DynamicPorts nw0 ++ (if bool_decide (0 < Value p) then [] else [p]).
Proof.
  unfold parsePort. intros Hp.
  destruct (Keys port) as [|label rest] eqn:Hkeys; [done|].
  destruct (reDynamicPorts_MatchString label) eqn:Hre; [|done].
  cbn [negb] in Hp. case_bool_decide as Hknown; [done|].
  inv_ok Hp. rename x into m, Hx into Hm.
  unfold decodePort in Hp.
  inv_ok Hp. inv_ok Hx. rename x0 into lbl. inv_ok Hx. rename x0 into v.
  inv_ok Hx. subst x. cbn [Value] in Hp.
  exists (mkPort label v). unfold foldedLabel. cbn [Label Value].
  split; [by exists rest, m|].
  injection Hp as <- <-.
  repeat split; try done; by case_bool_decide; cbn; rewrite ?app_nil_r.
Qed.

(** The invariant of the port loop. *)
Lemma parsePorts_loop (l : ObjectList) known nw0 known' nw :
  foldM parsePort (known, nw0) l = Ok (known', nw) →
  ∃ ps, Forall2 declares l ps ∧
        Forall (λ p, reDynamicPorts_MatchString (Label p) = true) ps ∧
        Forall (λ p, foldedLabel p ∉ known) ps ∧
        NoDup (foldedLabel <$> ps) ∧
        known' = list_to_set (foldedLabel <$> ps) ∪ known ∧
        MBits nw = MBits nw0 ∧
        ReservedPorts nw
        = ReservedPorts nw0 ++ filter (λ p, 0 < Value p) ps ∧
        DynamicPorts nw
        = DynamicPorts nw0 ++ filter (λ p, Value p ≤ 0) ps.
Proof.
  revert known nw0. induction l as [|port l IH]; intros known nw0 Hl.
  - injection Hl as <- <-. exists []. cbn.
    repeat split; try done; try constructor; try set_solver;
      by rewrite app_nil_r.
  - cbn [foldM] in Hl. inv_ok Hl. destruct x as [known1 nw1].
    apply parsePort_Ok in Hx
      as (p & Hdecl & Hre & Hfresh & -> & Hmb & Hres & Hdyn).
    apply IH in Hl
      as (ps & Hall & Hres' & Hfresh' & Hnd & -> & Hmb' & Hr & Hd).
    exists (p :: ps). cbn [fmap list_fmap list_to_set foldr].
    split; [by constructor|]. split; [by constructor|].
    split.
    { constructor; [done|].
      eapply Forall_impl; [exact Hfresh'|]. cbn. intros q Hq. set_solver. }
    split.
    { apply NoDup_cons. split; [|done].
      intros Hin. apply list_elem_of_fmap in Hin as (q & Hq & Hin).
      rewrite Forall_forall in Hfresh'. apply (Hfresh' q Hin). set_solver. }
    split; [set_solver|]. split; [congruence|].
    rewrite Hr, Hd, Hres, Hdyn, !filter_cons, <- !app_assoc.
    case_bool_decide.
    + by rewrite decide_True, decide_False by lia.
    + by rewrite decide_False, decide_True by lia.
Qed.

Lemma parsePorts_Ok (networkObj : ObjectList) nw0 nw :
  parsePorts networkObj nw0 = Ok nw →
  CheckHCLKeys networkObj networkKeys = Ok () ∧
  ∃ known, foldM parsePort (∅, nw0) (Filter "port" networkObj)
           = Ok (known, nw).
Proof.
  unfold parsePorts. fold networkKeys. intros Hp.
  inv_ok Hp. destruct x. split; [done|].
  inv_ok Hp. destruct x as [known nw']. cbn in Hp. injection Hp as ->.
  by exists known.
Qed.

(** C5.  After [parsePorts] has accepted a network block, the declared
    ports, in declaration order, are split between the two lists: a port
    whose decoded value is positive is appended to the reserved ports, any
    other port (value 0, or no [static] attribute at all) to the dynamic
    ports; on a network resource that starts without ports, every declared
    port is in exactly one of the two lists, and no two declared ports share
    a label. *)
Theorem C5_ports_split (networkObj : ObjectList) nw0 nw :
  parsePorts networkObj nw0 = Ok nw →
  ∃ ps,
    Forall2 declares (Filter "port" networkObj) ps ∧
    ReservedPorts nw = ReservedPorts nw0 ++ filter (λ p, 0 < Value p) ps ∧
    DynamicPorts nw = DynamicPorts nw0 ++ filter (λ p, Value p ≤ 0) ps ∧
    NoDup (foldedLabel <$> ps) ∧
    (∀ port p m, declares port p → DecodeObject (Val port) = Ok m →
                 field m "static" = None → Value p = 0) ∧
    (ReservedPorts nw0 = [] → DynamicPorts nw0 = [] →
     ∀ p, p ∈ ps →
       (0 < Value p ∧ p ∈ ReservedPorts nw ∧ p ∉ DynamicPorts nw) ∨
       (Value p ≤ 0 ∧ p ∈ DynamicPorts nw ∧ p ∉ ReservedPorts nw)).
Proof.
  intros Hp. apply parsePorts_Ok in Hp as (_ & known & Hl).
  apply parsePorts_loop in Hl
    as (ps & Hall & _ & _ & Hnd & _ & _ & Hr & Hd).
  exists ps. repeat split; try done.
  - intros port p m (rest & m' & _ & Hm' & Hv) Hm Hnone.
    rewrite Hm in Hm'. injection Hm' as <-. rewrite Hnone in Hv.
    by injection Hv.
  - intros Hr0 Hd0 p Hin. rewrite Hr, Hd, Hr0, Hd0. cbn.
    rewrite !list_elem_of_filter.
    destruct (decide (0 < Value p)); [left|right];
      (split; [lia|]); (split; [split; [lia|done]|]); intros [? _]; lia.
Qed.

Lemma is_word_char_lower c : is_word_char (lower_ascii c) = is_word_char c.
Proof. by destruct c as [[] [] [] [] [] [] [] []]. Qed.

Lemma all_chars_ToLower s :
  all_chars is_word_char (ToLower s) = all_chars is_word_char s.
Proof.
  induction s as [|c s IH]; [done|]. cbn.
  by rewrite is_word_char_lower, IH.
Qed.

Lemma reDynamicPorts_ToLower s :
  reDynamicPorts_MatchString (ToLower s) = reDynamicPorts_MatchString s.
Proof.
  unfold reDynamicPorts_MatchString. rewrite all_chars_ToLower.
  by destruct s.
Qed.

(** Labels that differ only by case are accepted or rejected together. *)
Lemma reDynamicPorts_fold a b :
  ToLower a = ToLower b →
  reDynamicPorts_MatchString a = reDynamicPorts_MatchString b.
Proof.
  intros Hab.
  by rewrite <- (reDynamicPorts_ToLower a), Hab, reDynamicPorts_ToLower.
Qed.

Lemma parsePorts_unfold (networkObj : ObjectList) nw :
  CheckHCLKeys networkObj networkKeys = Ok () →
  parsePorts networkObj nw
  = snd <$> foldM parsePort (∅, nw) (Filter "port" networkObj).
Proof. intros Hk. unfold parsePorts. fold networkKeys. by rewrite Hk. Qed.

Lemma parsePort_bad_label st (port : ObjectItem) label rest :
  Keys port = label :: rest →
  reDynamicPorts_MatchString label = false →
  parsePort st port = Err errPortLabel.
Proof.
  intros Hk Hre. destruct st as [known nw]. unfold parsePort.
  by rewrite Hk, Hre.
Qed.

Lemma parsePort_collision known nw (port : ObjectItem) label rest :
  Keys port = label :: rest →
  reDynamicPorts_MatchString label = true →
  ToLower label ∈ known →
  parsePort (known, nw) port
  = Err ("found a port label collision: " +:+ label).
Proof.
  intros Hk Hre Hin. unfold parsePort. rewrite Hk, Hre. cbn [negb].
  by rewrite bool_decide_true.
Qed.

(** The labels the loop has accepted are in its set, and are well formed. *)
Lemma parsePorts_loop_seen (pre mid : ObjectList) (p1 : ObjectItem) l1 r1
    nw0 known nw :
  Keys p1 = l1 :: r1 →
  foldM parsePort (∅, nw0) (pre ++ p1 :: mid) = Ok (known, nw) →
  ToLower l1 ∈ known ∧ reDynamicPorts_MatchString l1 = true.
Proof.
  intros Hk Hl.
  apply parsePorts_loop in Hl as (ps & Hall & Hre & _ & _ & -> & _).
  apply Forall2_app_inv_l in Hall as (ps1 & ps2 & _ & Hall & ->).
  apply Forall2_cons_inv_l in Hall as (p & ps3 & Hdecl & _ & ->).
  destruct Hdecl as (rest & m & Hkeys & _).
  rewrite Hk in Hkeys. injection Hkeys as -> _.
  split.
  - rewrite fmap_app, fmap_cons. unfold foldedLabel at 2. set_solver.
  - rewrite Forall_app, Forall_cons in Hre. by destruct Hre as (_ & ? & _).
Qed.

(** C6.  In a network block, a port whose label does not match
    [^[a-zA-Z0-9_]+$] makes [parsePorts] fail, with the label error when
    the block has passed the whitelist and the ports before it are
    accepted; two ports whose labels are equal up to case make it fail, with
    the collision error naming the second label when the block has passed
    the whitelist and the ports before the second one are accepted. *)
Theorem C6_port_labels (networkObj : ObjectList) nw :
  (∀ (pre post : ObjectList) (port : ObjectItem) label rest,
     Filter "port" networkObj = pre ++ port :: post →
     Keys port = label :: rest →
     reDynamicPorts_MatchString label = false →
     is_Ok (parsePorts networkObj nw) = false ∧
     (CheckHCLKeys networkObj networkKeys = Ok () →
      ∀ st, foldM parsePort (∅, nw) pre = Ok st →
            parsePorts networkObj nw = Err errPortLabel)) ∧
  (∀ (pre mid post : ObjectList) (p1 p2 : ObjectItem) l1 r1 l2 r2,
     Filter "port" networkObj = pre ++ p1 :: mid ++ p2 :: post →
     Keys p1 = l1 :: r1 → Keys p2 = l2 :: r2 →
     ToLower l1 = ToLower l2 →
     is_Ok (parsePorts networkObj nw) = false ∧
     (CheckHCLKeys networkObj networkKeys = Ok () →
      ∀ st, foldM parsePort (∅, nw) (pre ++ p1 :: mid) = Ok st →
            parsePorts networkObj nw
            = Err ("found a port label collision: " +:+ l2))).
Proof.
  split.
  - intros pre post port label rest Hf Hk Hre.
    assert (CheckHCLKeys networkObj networkKeys = Ok () →
            ∀ st, foldM parsePort (∅, nw) pre = Ok st →
                  parsePorts networkObj nw = Err errPortLabel) as Hfirst.
    { intros Hc st Hpre.
      rewrite parsePorts_unfold, Hf, foldM_app, Hpre by done.
      cbn [foldM mbind result_bind].
      by rewrite (parsePort_bad_label st port label rest). }
    split; [|done].
    destruct (CheckHCLKeys networkObj networkKeys) as [[]|e|] eqn:Hc.
    + destruct (foldM parsePort (∅, nw) pre) as [st|e|] eqn:Hpre.
      * by rewrite (Hfirst eq_refl st).
      * by rewrite parsePorts_unfold, Hf, foldM_app, Hpre.
      * by rewrite parsePorts_unfold, Hf, foldM_app, Hpre.
    + unfold parsePorts. fold networkKeys. by rewrite Hc.
    + unfold parsePorts. fold networkKeys. by rewrite Hc.
  - intros pre mid post p1 p2 l1 r1 l2 r2 Hf Hk1 Hk2 Hfold.
    assert (CheckHCLKeys networkObj networkKeys = Ok () →
            ∀ st, foldM parsePort (∅, nw) (pre ++ p1 :: mid) = Ok st →
                  parsePorts networkObj nw
                  = Err ("found a port label collision: " +:+ l2)) as Hfirst.
    { intros Hc [known nw1] Hpre.
      destruct (parsePorts_loop_seen _ _ _ _ _ _ _ _ Hk1 Hpre) as [Hin Hre].
      rewrite parsePorts_unfold, Hf by done.
      replace (pre ++ p1 :: mid ++ p2 :: post)
        with ((pre ++ p1 :: mid) ++ p2 :: post)
        by (by rewrite <- app_assoc).
      rewrite foldM_app, Hpre. cbn [foldM mbind result_bind].
      rewrite (parsePort_collision known nw1 p2 l2 r2); [done..| |].
      - by rewrite <- (reDynamicPorts_fold l1 l2).
      - by rewrite <- Hfold. }
    split; [|done].
    destruct (CheckHCLKeys networkObj networkKeys) as [[]|e|] eqn:Hc.
    + destruct (foldM parsePort (∅, nw) (pre ++ p1 :: mid))
        as [st|e|] eqn:Hpre.
      * by rewrite (Hfirst eq_refl st).
      * rewrite parsePorts_unfold, Hf by done.
        replace (pre ++ p1 :: mid ++ p2 :: post)
          with ((pre ++ p1 :: mid) ++ p2 :: post)
          by (by rewrite <- app_assoc).
        by rewrite foldM_app, Hpre.
      * rewrite parsePorts_unfold, Hf by done.
        replace (pre ++ p1 :: mid ++ p2 :: post)
          with ((pre ++ p1 :: mid) ++ p2 :: post)
          by (by rewrite <- app_assoc).
        by rewrite foldM_app, Hpre.
    + unfold parsePorts. fold networkKeys. by rewrite Hc.
    + unfold parsePorts. fold networkKeys. by rewrite Hc.
Qed.

(** *** Singleton policy blocks and the vault block *)

Lemma index_nil {A} (i : nat) : index (@nil A) i = Panic.
Proof. done. Qed.

(** With no unlabelled block, every policy parser indexes an empty
    list. *)
Lemma policy_parsers_panic (items : ObjectList) :
  Elem items = [] →
  parseRestartPolicy items = Panic ∧
  parseReschedulePolicy items = Panic ∧
  parseEphemeralDisk items = Panic ∧
  parseUpdate items = Panic ∧
  parseMigrate items = Panic ∧
  parsePeriodic items = Panic ∧
  parseParameterizedJob items = Panic.
Proof.
  intros He.
  unfold parseRestartPolicy, parseReschedulePolicy, parseEphemeralDisk,
    parseUpdate, parseMigrate, parsePeriodic, parseParameterizedJob.
  by rewrite He.
Qed.

Lemma parseVault_labelled (v : Vault) (items : ObjectList) :
  Elem items = [] → parseVault v items = Ok v.
Proof. intros He. unfold parseVault. by rewrite He. Qed.

Lemma when_present_Ok {A B} (o : list A) (cur : B) f r :
  when_present o cur f = Ok r →
  (o = [] ∧ r = cur) ∨ (o ≠ [] ∧ f o = Ok r).
Proof.
  unfold when_present. case_bool_decide as Hlen.
  - intros Hf. right. split; [|done]. by destruct o; [cbn in Hlen; lia|].
  - intros [= <-]. left. split; [|done].
    destruct o; [done|]. cbn in Hlen. lia.
Qed.

Lemma when_present_nil {A B} (cur : B) (f : list A → result B) :
  when_present [] cur f = Ok cur.
Proof. done. Qed.

Lemma when_present_cons {A B} (o : list A) (cur : B) f :
  o ≠ [] → when_present o cur f = f o.
Proof.
  intros Ho. unfold when_present. rewrite bool_decide_true; [done|].
  destruct o; [done|]. cbn. lia.
Qed.

Lemma asObjectType_Some (n : Node) (body : ObjectList) :
  asObjectType n = Some body ↔ n = ObjectType body.
Proof. destruct n; cbn; split; congruence. Qed.

(** *** The vault cascade *)

(** The vault of a task as [parseTask] leaves it: its own block or none. *)
Lemma parseTask_body jobName tg n (item : ObjectItem) t :
  parseTask jobName tg n item = Ok t →
  ∃ body,
    Val item = ObjectType body ∧
    CheckHCLKeys body taskKeys = Ok () ∧
    when_present (Filter "vault" body) None
      (λ o : ObjectList,
         Some <$> Prefix (parseVault defaultVault o)
                    ("'" +:+ n +:+ "', vault ->"))
    = Ok (Task_Vault t).
Proof.
  unfold parseTask. intros Ht.
  destruct (asObjectType (Val item)) as [body|] eqn:Hbody; [|done].
  apply asObjectType_Some in Hbody. exists body. split; [done|].
  fold taskKeys in Ht.
  inv_ok Ht. inv_ok Hx. destruct x0.
  split; [done|].
  repeat inv_ok Ht. by subst t.
Qed.

Lemma parseTask_vault jobName tg n (item : ObjectItem) t :
  parseTask jobName tg n item = Ok t → taskVault None item t.
Proof.
  intros Ht. apply parseTask_body in Ht as (body & Hbody & _ & Hv).
  exists body. split; [done|].
  apply when_present_Ok in Hv as [[Hnil Hv]|[Hcons Hv]].
  - split; [by intros _|]. intros Hne. by destruct Hne.
  - split; [intros Hnil; by destruct Hcons|]. intros _.
    inv_ok Hv. inv_ok Hx. exists x0.
    split; [done|]. congruence.
Qed.

Lemma index_0_Ok {A} (l : list A) x : index l 0 = Ok x ↔ ∃ l', l = x :: l'.
Proof.
  destruct l as [|y l]; cbn; split.
  - done.
  - by intros [? [=]].
  - intros [= ->]. by exists l.
  - by intros [? [= -> _]].
Qed.

(** One accepted iteration of the task loop. *)
Lemma parseTasksItem_Ok jobName seen tg acc (item : ObjectItem) st :
  parseTasksItem jobName (seen, tg, acc) item = Ok st →
  ∃ n rest t,
    Keys item = n :: rest ∧ (n ∉ seen) ∧
    parseTask jobName (if bool_decide (tg = "") then n else tg) n item
    = Ok t ∧
    st = ({[n]} ∪ seen, if bool_decide (tg = "") then n else tg, acc ++ [t]).
Proof.
  unfold parseTasksItem. intros Hst.
  inv_ok Hst. rename x into n. apply index_0_Ok in Hx as [rest Hkeys].
  case_bool_decide as Hseen; [done|].
  inv_ok Hst. injection Hst as <-. by exists n, rest, x.
Qed.

Lemma parseTasks_loop jobName (l : ObjectList) seen tg acc seen' tg' acc' :
  foldM (parseTasksItem jobName) (seen, tg, acc) l = Ok (seen', tg', acc') →
  ∃ ts, acc' = acc ++ ts ∧ Forall2 (taskVault None) l ts.
Proof.
  revert seen tg acc. induction l as [|item l IH]; intros seen tg acc Hl.
  - injection Hl as <- <- <-. exists []. by rewrite app_nil_r.
  - cbn [foldM] in Hl. inv_ok Hl.
    apply parseTasksItem_Ok in Hx as (n & rest & t & _ & _ & Ht & ->).
    apply IH in Hl as (ts & -> & Hall).
    exists (t :: ts). rewrite <- app_assoc. split; [done|].
    constructor; [|done]. by eapply parseTask_vault.
Qed.

Lemma parseTasks_vault jobName tg (items : ObjectList) ts :
  parseTasks jobName tg [] items = Ok ts →
  Forall2 (taskVault None) (Children items) ts.
Proof.
  unfold parseTasks. case_bool_decide as Hlen.
  - intros [= <-]. apply nil_length_inv in Hlen. rewrite Hlen. constructor.
  - intros Hl. inv_ok Hl. destruct x as [[seen' tg'] acc'].
    apply parseTasks_loop in Hx as (ts' & -> & Hall).
    cbn in Hl. by injection Hl as <-.
Qed.

Lemma Task_Vault_set v (t : Task) : Task_Vault (Task_set_Vault v t) = v.
Proof. done. Qed.

(** Pushing a vault down gives it to the tasks without a block of their
    own and leaves the others as they are. *)
Lemma taskVault_inherit v (item : ObjectItem) t :
  taskVault None item t → taskVault (Some v) item (inheritVault v t).
Proof.
  intros (body & Hbody & Hnone & Hown). exists body. split; [done|].
  unfold inheritVault. split.
  - intros Hnil. by rewrite (Hnone Hnil).
  - intros Hcons. destruct (Hown Hcons) as (v' & Hv' & Ht).
    rewrite Ht. by exists v'.
Qed.

(** A second push-down changes nothing. *)
Lemma taskVault_settled v' v (item : ObjectItem) t :
  taskVault (Some v') item t → inheritVault v t = t.
Proof.
  intros (body & _ & Hnone & Hown). unfold inheritVault.
  destruct (decide (Filter "vault" body = [])) as [Hnil|Hcons].
  - by rewrite (Hnone Hnil).
  - destruct (Hown Hcons) as (v'' & _ & ->). done.
Qed.

Lemma Forall2_taskVault_inherit v (items : ObjectList) ts :
  Forall2 (taskVault None) items ts →
  Forall2 (taskVault (Some v)) items (inheritVault v <$> ts).
Proof.
  induction 1 as [|item t items ts Ht _ IH]; [constructor|].
  rewrite fmap_cons. constructor; [|done]. by apply taskVault_inherit.
Qed.

Lemma Forall2_taskVault_settled v' v (items : ObjectList) ts :
  Forall2 (taskVault (Some v')) items ts → inheritVault v <$> ts = ts.
Proof.
  induction 1 as [|item t items ts Ht _ IH]; [done|].
  rewrite fmap_cons, IH. f_equal. by eapply taskVault_settled.
Qed.

Lemma decode_ptr_Some {A} (conv : value → result A) (a : A)
    (ov : option value) r :
  decode_ptr conv (Some a) ov = Ok r → ∃ b, r = Some b.
Proof.
  unfold decode_ptr.
  destruct ov as [v|]; [|intros [= <-]; by eexists].
  destruct v; try (intros Hr; inv_ok Hr; apply Ok_inj in Hr; by eexists).
  intros [= <-]. by eexists.
Qed.

(** What [parseGroupHead] returns: the items of the block, and a group
    under the name of the block that has no task yet. *)
Lemma parseGroupHead_Ok n (item : ObjectItem) g (listVal : ObjectList) :
  parseGroupHead n item = Ok (g, listVal) →
  Val item = ObjectType listVal ∧ Tasks g = [] ∧ ∃ gn, TaskGroup_Name g = Some gn.
Proof.
  unfold parseGroupHead. intros Hg.
  destruct (asObjectType (Val item)) as [body|] eqn:Hbody; [|done].
  apply asObjectType_Some in Hbody.
  inv_ok Hg. inv_ok Hg. inv_ok Hg. rename x1 into name, Hx1 into Hname.
  repeat inv_ok Hg. injection Hg as <- <-. cbn.
  repeat split; [done..|]. by eapply decode_ptr_Some.
Qed.

Lemma Tasks_set ts (g : TaskGroup) : Tasks (TaskGroup_set_Tasks ts g) = ts.
Proof. done. Qed.

(** The tasks of a group as [parseGroup] leaves them: the vault of the
    group, when it has one, is already pushed down. *)
Lemma parseGroup_vault jobName n (item : ObjectItem) g :
  parseGroup jobName n item = Ok g → groupVault None item g.
Proof.
  unfold parseGroup. intros Hg.
  inv_ok Hg. destruct x as [g0 body]. cbn [fst snd] in Hg.
  apply parseGroupHead_Ok in Hx as (Hbody & _ & _).
  inv_ok Hg. rename x into gname, Hx into Hgname.
  inv_ok Hg. rename x into tasks, Hx into Htasks.
  inv_ok Hg. rename x into tgVault, Hx into Hvault.
  injection Hg as <-.
  assert (Forall2 (taskVault None) (Children (Filter "task" body)) tasks)
    as Hall.
  { apply when_present_Ok in Htasks as [[Hnil ->]|[_ Htasks]].
    - rewrite Hnil. constructor.
    - inv_ok Htasks. injection Htasks as <-. by eapply parseTasks_vault. }
  exists body, tgVault. split; [done|]. rewrite Tasks_set.
  apply when_present_Ok in Hvault as [[Hnil ->]|[Hcons Hvault]].
  - split; [done|]. split; [intros Hne; by destruct Hne|]. done.
  - inv_ok Hvault. inv_ok Hx. injection Hvault as <-. injection Hx as ->.
    split; [intros Hnil; by destruct Hcons|].
    split; [intros _; by exists x|].
    by apply Forall2_taskVault_inherit.
Qed.

(** One accepted iteration of the group loop. *)
Lemma parseGroupsItem_Ok jobName seen collection (item : ObjectItem) st :
  parseGroupsItem jobName (seen, collection) item = Ok st →
  ∃ n rest g,
    Keys item = n :: rest ∧ (n ∉ seen) ∧
    parseGroup jobName n item = Ok g ∧
    st = ({[n]} ∪ seen, collection ++ [g]).
Proof.
  unfold parseGroupsItem. intros Hst.
  inv_ok Hst. rename x into n. apply index_0_Ok in Hx as [rest Hkeys].
  case_bool_decide as Hseen; [done|].
  inv_ok Hst. injection Hst as <-. by exists n, rest, x.
Qed.

Lemma parseGroups_loop jobName (l : ObjectList) seen collection st :
  foldM (parseGroupsItem jobName) (seen, collection) l = Ok st →
  ∃ gs, st.2 = collection ++ gs ∧ Forall2 (groupVault None) l gs.
Proof.
  revert seen collection.
  induction l as [|item l IH]; intros seen collection Hl.
  - injection Hl as <-. exists []. by rewrite app_nil_r.
  - cbn [foldM] in Hl. inv_ok Hl.
    apply parseGroupsItem_Ok in Hx as (n & rest & g & _ & _ & Hg & ->).
    apply IH in Hl as (gs & -> & Hall).
    exists (g :: gs). rewrite <- app_assoc. split; [done|].
    constructor; [|done]. by eapply parseGroup_vault.
Qed.

Lemma parseGroups_vault jobName taskGroups (items : ObjectList) r :
  parseGroups jobName taskGroups items = Ok r →
  ∃ gs, r = taskGroups ++ gs ∧ Forall2 (groupVault None) (Children items) gs.
Proof.
  unfold parseGroups. case_bool_decide as Hlen.
  - intros [= <-]. apply nil_length_inv in Hlen. rewrite Hlen.
    exists []. by rewrite app_nil_r.
  - intros Hl. inv_ok Hl.
    apply parseGroups_loop in Hx as (gs & Hgs & Hall).
    injection Hl as <-. exists gs. by rewrite Hgs.
Qed.

Lemma parseJobTasks_vault jobName (o : ObjectList) bare :
  parseJobTasks jobName o = Ok bare →
  Forall2 (bareTaskVault None) (Children o) bare.
Proof.
  unfold parseJobTasks. intros Hb. inv_ok Hb. inv_ok Hx.
  injection Hb as <-. injection Hx as ->.
  apply parseTasks_vault in Hx0.
  induction Hx0 as [|item t items ts Ht _ IH]; [constructor|].
  rewrite fmap_cons. constructor; [|done]. by exists t.
Qed.

(** The job-level push-down, group by group. *)
Lemma bareTaskVault_inherit v (item : ObjectItem) tg :
  bareTaskVault None item tg →
  bareTaskVault (Some v) item (inheritJobVault v tg).
Proof.
  intros (t & -> & Ht). exists (inheritVault v t).
  split; [|by apply taskVault_inherit].
  unfold inheritJobVault, inheritVault. cbn.
  by destruct (Task_Vault t).
Qed.

Lemma groupVault_inherit v (item : ObjectItem) tg :
  groupVault None item tg → groupVault (Some v) item (inheritJobVault v tg).
Proof.
  intros (body & pushed & Hbody & Hnone & Hown & Hall).
  destruct (decide (Filter "vault" body = [])) as [Hnil|Hcons].
  - exists body, (Some v). split; [done|].
    split; [done|]. split; [intros Hne; by destruct Hne|].
    unfold inheritJobVault. rewrite Tasks_set.
    rewrite (Hnone Hnil) in Hall. by apply Forall2_taskVault_inherit.
  - destruct (Hown Hcons) as (gv & Hgv & ->).
    exists body, (Some gv). split; [done|].
    split; [intros Hnil; by destruct Hcons|].
    split; [intros _; by exists gv|].
    unfold inheritJobVault. rewrite Tasks_set.
    by rewrite (Forall2_taskVault_settled gv v _ _ Hall).
Qed.

(** What [parseJobHead] returns: the items of the one labelled job block,
    and a job that has no task group yet. *)
Lemma parseJobHead_Ok (items : ObjectList) result (listVal : ObjectList) :
  parseJobHead items = Ok (result, listVal) →
  ∃ obj : ObjectItem,
    Children items = [obj] ∧ Val obj = ObjectType listVal ∧
    TaskGroups result = [].
Proof.
  unfold parseJobHead. intros Hj.
  case_bool_decide as Hlen; [done|].
  case_bool_decide as Hlen'; [done|].
  inv_ok Hj. rename x into obj, Hx into Hobj.
  apply index_0_Ok in Hobj as [rest Hobj].
  assert (rest = []) as ->.
  { destruct rest; [done|]. rewrite Hobj in Hlen'. cbn in Hlen'. lia. }
  exists obj. split; [done|].
  do 11 inv_ok Hj.
  destruct (asObjectType (Val obj)) as [body|] eqn:Hbody; [|done].
  apply asObjectType_Some in Hbody.
  repeat inv_ok Hj. by injection Hj as <- <-.
Qed.

(** The defaults of a vault survive the decode of a block that does not
    set them. *)
Lemma decodeVault_defaults m v :
  decodeVault m defaultVault = Ok v →
  (field m "Env" = None → Env v = Some true) ∧
  (field m "change_mode" = None → ChangeMode v = Some "restart").
Proof.
  unfold decodeVault. intros Hv. repeat inv_ok Hv. subst v. cbn.
  split; intros Hnone.
  - rewrite Hnone in Hx0. by injection Hx0.
  - rewrite Hnone in Hx1. by injection Hx1.
Qed.

Lemma parseVault_one (v0 v : Vault) (items : ObjectList) o m :
  parseVault v0 items = Ok v → Elem items = [o] →
  DecodeObject (Val o) = Ok m → decodeVault m v0 = Ok v.
Proof.
  unfold parseVault. intros Hv He Hm. rewrite He in Hv. cbn in Hv.
  destruct (asObjectType (Val o)); [|done].
  rewrite bool_decide_false, bool_decide_false in Hv by lia.
  inv_ok Hv. by rewrite Hm in Hv.
Qed.

(** The job-level push-down over the whole job. *)
Lemma parseJob_vault_cascade (items : ObjectList) job (obj : ObjectItem)
    (body : ObjectList) :
  parseJob items = Ok job →
  Children items = [obj] → Val obj = ObjectType body →
  Filter "vault" body ≠ [] →
  ∃ jobVault bare groups,
    parseVault defaultVault (Filter "vault" body) = Ok jobVault ∧
    TaskGroups job = bare ++ groups ∧
    Forall2 (bareTaskVault (Some jobVault))
      (Children (Filter "task" body)) bare ∧
    Forall2 (groupVault (Some jobVault))
      (Children (Filter "group" body)) groups ∧
    (∀ o m, Elem (Filter "vault" body) = [o] →
            DecodeObject (Val o) = Ok m →
            (field m "Env" = None → Env jobVault = Some true) ∧
            (field m "change_mode" = None →
             ChangeMode jobVault = Some "restart")).
Proof.
  unfold parseJob. intros Hj Hobj Hbody Hvault.
  inv_ok Hj. destruct x as [result listVal]. cbn [fst snd] in Hj.
  apply parseJobHead_Ok in Hx as (obj' & Hobj' & Hbody' & _).
  rewrite Hobj in Hobj'. injection Hobj' as <-.
  rewrite Hbody in Hbody'. injection Hbody' as <-.
  inv_ok Hj. rename x into jobName, Hx into HjobName.
  inv_ok Hj. rename x into bare, Hx into Hbare.
  inv_ok Hj. rename x into all, Hx into Hall.
  inv_ok Hj. rename x into jobVault, Hx into HjobVault.
  injection Hj as <-. cbn [TaskGroups Job_set_TaskGroups].
  rewrite when_present_cons in HjobVault by done.
  inv_ok HjobVault. inv_ok Hx. rename x0 into jv, Hx0 into Hjv.
  injection Hx as <-. injection HjobVault as <-.
  assert (Forall2 (bareTaskVault None) (Children (Filter "task" body)) bare)
    as Hb.
  { apply when_present_Ok in Hbare as [[Hnil ->]|[_ Hbare]].
    - rewrite Hnil. constructor.
    - by apply parseJobTasks_vault in Hbare. }
  assert (∃ gs, all = bare ++ gs ∧
                Forall2 (groupVault None) (Children (Filter "group" body)) gs)
    as (gs & -> & Hg).
  { apply when_present_Ok in Hall as [[Hnil ->]|[_ Hall]].
    - exists []. rewrite Hnil, app_nil_r. split; [done|constructor].
    - inv_ok Hall. injection Hall as <-. by eapply parseGroups_vault. }
  exists jv, (inheritJobVault jv <$> bare), (inheritJobVault jv <$> gs).
  split; [done|]. split; [by rewrite fmap_app|].
  split; [|split].
  - clear -Hb. induction Hb as [|item tg ? ? Htg _ IH]; [constructor|].
    rewrite fmap_cons. constructor; [|done]. by apply bareTaskVault_inherit.
  - clear -Hg. induction Hg as [|item tg ? ? Htg _ IH]; [constructor|].
    rewrite fmap_cons. constructor; [|done]. by apply groupVault_inherit.
  - intros o m Ho Hm. apply decodeVault_defaults.
    by eapply parseVault_one.
Qed.

(** C1.  When the job block has a [vault] block and the transform
    succeeds, the job-level vault is the one [parseVault] resolves over
    the defaults ([env = true], [change_mode = "restart"], kept when the
    block does not set them), and the task groups of the job are the
    groups of the bare tasks followed by those of the [group] blocks, where
    - a task with a [vault] block of its own has the vault resolved from
      that block;
    - a task without one, in a group with a [vault] block of its own, has
      the vault resolved from the block of the group;
    - every other task (a bare task, or a task of a group without a
      [vault] block) has the job-level vault. *)
Theorem C1_vault_cascade (items : ObjectList) job (obj : ObjectItem)
    (body : ObjectList) :
  parseJob items = Ok job →
  Children items = [obj] → Val obj = ObjectType body →
  Filter "vault" body ≠ [] →
  ∃ jobVault bare groups,
    parseVault defaultVault (Filter "vault" body) = Ok jobVault ∧
    TaskGroups job = bare ++ groups ∧
    Forall2 (bareTaskVault (Some jobVault))
      (Children (Filter "task" body)) bare ∧
    Forall2 (groupVault (Some jobVault))
      (Children (Filter "group" body)) groups ∧
    (∀ o m, Elem (Filter "vault" body) = [o] →
            DecodeObject (Val o) = Ok m →
            (field m "Env" = None → Env jobVault = Some true) ∧
            (field m "change_mode" = None →
             ChangeMode jobVault = Some "restart")).
Proof. apply parseJob_vault_cascade. Qed.

(** C10.  When every [vault] block of a scope carries a label, so that
    the list of unlabelled blocks is empty, [parseVault] returns the vault
    it was given, for every decoder: nothing is decoded and no error is
    reported.  A task with such blocks gets exactly the defaults
    ([env = true], [change_mode = "restart"], no policy); so do the tasks
    of a group, and of a job, with such blocks that have no [vault] block of
    their own. *)
Theorem C10_labelled_vault_block (v : Vault) (items : ObjectList) :
  Elem items = [] →
  parseVault v items = Ok v ∧
  (∀ jobName tg n (item : ObjectItem) (body : ObjectList) t,
     Val item = ObjectType body → Filter "vault" body = items →
     items ≠ [] →
     parseTask jobName tg n item = Ok t →
     Task_Vault t = Some defaultVault) ∧
  (∀ jobName n (item : ObjectItem) (body : ObjectList) g,
     Val item = ObjectType body → Filter "vault" body = items →
     items ≠ [] →
     parseGroup jobName n item = Ok g →
     Forall2 (taskVault (Some defaultVault))
       (Children (Filter "task" body)) (Tasks g)) ∧
  (∀ (jitems : ObjectList) job (obj : ObjectItem) (body : ObjectList),
     Children jitems = [obj] → Val obj = ObjectType body →
     Filter "vault" body = items → items ≠ [] →
     parseJob jitems = Ok job →
     ∃ bare groups,
       TaskGroups job = bare ++ groups ∧
       Forall2 (bareTaskVault (Some defaultVault))
         (Children (Filter "task" body)) bare ∧
       Forall2 (groupVault (Some defaultVault))
         (Children (Filter "group" body)) groups).
Proof.
  intros He. split; [by apply parseVault_labelled|]. split; [|split].
  - intros jobName tg n item body t Hbody Hitems Hne Ht.
    apply parseTask_vault in Ht as (body' & Hbody' & _ & Hown).
    rewrite Hbody in Hbody'. injection Hbody' as <-.
    rewrite Hitems in Hown. destruct (Hown Hne) as (v' & Hv' & ->).
    rewrite parseVault_labelled in Hv' by done. by injection Hv' as <-.
  - intros jobName n item body g Hbody Hitems Hne Hg.
    apply parseGroup_vault in Hg as (body' & pushed & Hbody' & _ & Hown & Hall).
    rewrite Hbody in Hbody'. injection Hbody' as <-.
    rewrite Hitems in Hown. destruct (Hown Hne) as (v' & Hv' & ->).
    rewrite parseVault_labelled in Hv' by done. by injection Hv' as <-.
  - intros jitems job obj body Hobj Hbody Hitems Hne Hj.
    destruct (parseJob_vault_cascade jitems job obj body Hj Hobj Hbody)
      as (jv & bare & groups & Hjv & Htgs & Hb & Hg & _).
    { by rewrite Hitems. }
    rewrite Hitems, parseVault_labelled in Hjv by done.
    injection Hjv as <-. by exists bare, groups.
Qed.

(** *** Labelled policy blocks in a job and in a group *)

Lemma when_present_Panic {A B} (o : list A) (cur : B) f :
  o ≠ [] → f o = Panic → when_present o cur f = Panic.
Proof. intros Ho Hf. by rewrite when_present_cons. Qed.

(** A job whose blocks of one policy kind are all labelled is never
    accepted: the stages before the policy fail, or its parser panics. *)
Lemma parseJobHead_labelled_policy (items : ObjectList) (obj : ObjectItem)
    (body : ObjectList) key :
  Children items = [obj] → Val obj = ObjectType body →
  key ∈ jobPolicyKeys →
  Filter key body ≠ [] → Elem (Filter key body) = [] →
  is_Ok (parseJobHead items) = false.
Proof.
  intros Hobj Hbody Hkey Hne He. unfold parseJobHead.
  case_bool_decide; [done|]. rewrite Hobj.
  rewrite bool_decide_false by (cbn; lia).
  cbn [index lookup list_lookup mbind result_bind].
  do 11 step_not_ok. rewrite Hbody. cbn [asObjectType].
  do 3 step_not_ok.
  destruct (policy_parsers_panic _ He)
    as (_ & Hre & _ & Hup & Hmi & Hpe & Hpa).
  unfold jobPolicyKeys in Hkey. set_unfold in Hkey.
  destruct Hkey as [->|[->|[->|[->|[->|[]]]]]].
  - rewrite (when_present_Panic (Filter "update" body)); [done..|].
    by rewrite Hup.
  - step_not_ok.
    rewrite (when_present_Panic (Filter "periodic" body)); [done..|].
    by rewrite Hpe.
  - do 3 step_not_ok.
    rewrite (when_present_Panic (Filter "parameterized" body)); [done..|].
    by rewrite Hpa.
  - do 4 step_not_ok.
    rewrite (when_present_Panic (Filter "reschedule" body)); [done..|].
    by rewrite Hre.
  - do 5 step_not_ok.
    rewrite (when_present_Panic (Filter "migrate" body)); [done..|].
    by rewrite Hmi.
Qed.

(** The same for a group. *)
Lemma parseGroupHead_labelled_policy n (item : ObjectItem)
    (body : ObjectList) key :
  Val item = ObjectType body →
  key ∈ groupPolicyKeys →
  Filter key body ≠ [] → Elem (Filter key body) = [] →
  is_Ok (parseGroupHead n item) = false.
Proof.
  intros Hbody Hkey Hne He. unfold parseGroupHead.
  rewrite Hbody. cbn [asObjectType].
  do 6 step_not_ok.
  destruct (policy_parsers_panic _ He)
    as (Hrs & Hre & Hdi & Hup & Hmi & _).
  unfold groupPolicyKeys in Hkey. set_unfold in Hkey.
  destruct Hkey as [->|[->|[->|[->|[->|[]]]]]].
  - rewrite (when_present_Panic (Filter "restart" body)); [done..|].
    by rewrite Hrs.
  - do 2 step_not_ok.
    rewrite (when_present_Panic (Filter "reschedule" body)); [done..|].
    by rewrite Hre.
  - do 3 step_not_ok.
    rewrite (when_present_Panic (Filter "ephemeral_disk" body)); [done..|].
    by rewrite Hdi.
  - do 4 step_not_ok.
    rewrite (when_present_Panic (Filter "update" body)); [done..|].
    by rewrite Hup.
  - do 5 step_not_ok.
    rewrite (when_present_Panic (Filter "migrate" body)); [done..|].
    by rewrite Hmi.
Qed.

(** C9.  When every block of a singleton policy kind carries a label, so
    that the list of unlabelled blocks is empty, each of the policy
    parsers indexes that empty list: it panics, where it returns an error
    for two blocks.  A job, or a group, with such blocks is never accepted:
    a stage before the policy fails, or the parser of the policy panics. *)
Theorem C9_labelled_policy_block_panics (items : ObjectList) :
  Elem items = [] →
  (parseRestartPolicy items = Panic ∧
   parseReschedulePolicy items = Panic ∧
   parseEphemeralDisk items = Panic ∧
   parseUpdate items = Panic ∧
   parseMigrate items = Panic ∧
   parsePeriodic items = Panic ∧
   parseParameterizedJob items = Panic) ∧
  (∀ (jitems : ObjectList) (obj : ObjectItem) (body : ObjectList) key,
     Children jitems = [obj] → Val obj = ObjectType body →
     key ∈ jobPolicyKeys → Filter key body = items → items ≠ [] →
     is_Ok (parseJob jitems) = false) ∧
  (∀ jobName n (item : ObjectItem) (body : ObjectList) key,
     Val item = ObjectType body →
     key ∈ groupPolicyKeys → Filter key body = items → items ≠ [] →
     is_Ok (parseGroup jobName n item) = false).
Proof.
  intros He. split; [by apply policy_parsers_panic|]. split.
  - intros jitems obj body key Hobj Hbody Hkey <- Hne.
    unfold parseJob. apply is_Ok_false_bind.
    by eapply parseJobHead_labelled_policy.
  - intros jobName n item body key Hbody Hkey <- Hne.
    unfold parseGroup. apply is_Ok_false_bind.
    by eapply parseGroupHead_labelled_policy.
Qed.

(** *** Unknown keys *)

Lemma Prefix_Err {A} e p : Prefix (A:=A) (Err e) p = Err (under p e).
Proof. done. Qed.

Lemma CheckHCLKeys_unknown (body : ObjectList) valid k :
  k ∈ blockKeys body → k ∉ valid →
  ∃ k', firstUnknown body valid k' ∧
        CheckHCLKeys body valid = Err (invalidKey k').
Proof.
  intros Hin Hk. unfold CheckHCLKeys. fold (blockKeys body).
  destruct (list_find (λ k0 : string, k0 ∉ valid) (blockKeys body))
    as [[i k']|] eqn:Hfind.
  - apply list_find_Some in Hfind as (Hi & Hk' & Hfirst).
    exists k'. split; [|done]. exists i. split; [done|]. split; [done|].
    intros j y Hj Hlt. destruct (decide (y ∈ valid)) as [|Hy]; [done|].
    by destruct (Hfirst j y Hj Hlt).
  - apply list_find_None in Hfind. rewrite Forall_forall in Hfind.
    by destruct (Hfind k Hin).
Qed.

(** A task block with an unknown key is rejected by the whitelist check,
    whatever the decoder. *)
Lemma parseTask_unknown jobName tg n (item : ObjectItem) (body : ObjectList) k :
  Val item = ObjectType body → k ∈ blockKeys body → k ∉ taskKeys →
  ∃ k', firstUnknown body taskKeys k' ∧
        parseTask jobName tg n item
        = Err (under ("'" +:+ n +:+ "' ->") (invalidKey k')).
Proof.
  intros Hbody Hin Hk.
  destruct (CheckHCLKeys_unknown body taskKeys k Hin Hk) as (k' & Hk' & Hc).
  exists k'. split; [done|].
  unfold parseTask. rewrite Hbody. cbn [asObjectType]. fold taskKeys.
  by rewrite Hc.
Qed.

(** The first failing task decides the outcome of the task loop. *)
Lemma parseTasks_first_error jobName tg0 (items pre post : ObjectList)
    (item : ObjectItem) n rest st e :
  Children items = pre ++ item :: post →
  foldM (parseTasksItem jobName) (∅, tg0, []) pre = Ok st →
  Keys item = n :: rest → n ∉ st.1.1 →
  (∀ tg, parseTask jobName tg n item = Err e) →
  parseTasks jobName tg0 [] items = Err e.
Proof.
  intros Hitems Hpre Hkeys Hseen He. unfold parseTasks.
  rewrite Hitems, bool_decide_false by (rewrite length_app; cbn; lia).
  rewrite foldM_app, Hpre. destruct st as [[seen tg1] acc].
  cbn [foldM mbind result_bind]. unfold parseTasksItem.
  rewrite Hkeys. cbn [index lookup list_lookup mbind result_bind].
  rewrite bool_decide_false by done. by rewrite He.
Qed.

Lemma Children_nonempty_Filter (l pre post : ObjectList) (x : ObjectItem) :
  Children l = pre ++ x :: post → l ≠ [].
Proof. intros Hc ->. by destruct pre. Qed.

(** A failure of the tasks of a group block is reported under the name of
    the group. *)
Lemma parseGroup_task_error jobName gn (gitem : ObjectItem) g
    (gbody : ObjectList) gname e :
  parseGroupHead gn gitem = Ok (g, gbody) →
  TaskGroup_Name g = Some gname →
  Filter "task" gbody ≠ [] →
  parseTasks jobName gname [] (Filter "task" gbody) = Err e →
  parseGroup jobName gn gitem = Err (under ("'" +:+ gn +:+ "', task:") e).
Proof.
  intros Hhead Hname Hne He. unfold parseGroup.
  rewrite Hhead. cbn [mbind result_bind fst snd]. rewrite Hname.
  cbn [deref mbind result_bind].
  rewrite (when_present_cons (Filter "task" gbody)) by done.
  cbn beta. by rewrite He.
Qed.

(** The same for the bare tasks of the job. *)
Lemma parseJob_task_error (jitems : ObjectList) result (jbody : ObjectList)
    jobName e :
  parseJobHead jitems = Ok (result, jbody) →
  Name result = Some jobName →
  Filter "task" jbody ≠ [] →
  parseTasks jobName "" [] (Filter "task" jbody) = Err e →
  parseJob jitems = Err (under "task:" e).
Proof.
  intros Hhead Hname Hne He. unfold parseJob.
  rewrite Hhead. cbn [mbind result_bind fst snd]. rewrite Hname.
  cbn [deref mbind result_bind].
  rewrite (when_present_cons (Filter "task" jbody)) by done.
  unfold parseJobTasks. by rewrite He.
Qed.

(** The first failing group decides the outcome of the group stage of the
    job. *)
Lemma parseJob_group_error (jitems : ObjectList) result (jbody : ObjectList)
    jobName bare (pre post : ObjectList) (gitem : ObjectItem) gn rest st e :
  parseJobHead jitems = Ok (result, jbody) →
  Name result = Some jobName →
  when_present (Filter "task" jbody) [] (parseJobTasks jobName) = Ok bare →
  Children (Filter "group" jbody) = pre ++ gitem :: post →
  foldM (parseGroupsItem jobName) (∅, []) pre = Ok st →
  Keys gitem = gn :: rest → gn ∉ st.1 →
  parseGroup jobName gn gitem = Err e →
  parseJob jitems = Err (under "group:" e).
Proof.
  intros Hhead Hname Hbare Hitems Hpre Hkeys Hseen He. unfold parseJob.
  rewrite Hhead. cbn [mbind result_bind fst snd]. rewrite Hname.
  cbn [deref mbind result_bind]. rewrite Hbare. cbn [mbind result_bind].
  rewrite (when_present_cons (Filter "group" jbody))
    by (by eapply Children_nonempty_Filter).
  unfold parseGroups.
  rewrite Hitems, bool_decide_false by (rewrite length_app; cbn; lia).
  rewrite foldM_app, Hpre. destruct st as [seen coll].
  cbn [foldM mbind result_bind]. unfold parseGroupsItem.
  rewrite Hkeys. cbn [index lookup list_lookup mbind result_bind].
  rewrite bool_decide_false by done. by rewrite He.
Qed.

(** C8.  A task block named [n] with a key outside the whitelist of a
    task is rejected by the whitelist check, which runs before the block is
    decoded (the outcome is the same for every decoder): the error is the
    schema error for the first unknown key under the path ['n' ->].  When
    the transform reaches the task (the enclosing blocks are accepted up to
    their tasks, the tasks before it are accepted and none has its name),
    the transform fails with that error under [task:] for a bare task of
    the job, and under [group:] and ['g', task:] for a task of the group
    [g]. *)
Theorem C8_unknown_task_key n rest (item : ObjectItem) (body : ObjectList) k :
  Keys item = n :: rest → Val item = ObjectType body →
  k ∈ blockKeys body → k ∉ taskKeys →
  ∃ k', firstUnknown body taskKeys k' ∧
    let e := under ("'" +:+ n +:+ "' ->") (invalidKey k') in
    (∀ jobName tg, parseTask jobName tg n item = Err e) ∧
    (∀ (jitems : ObjectList) result (jbody pre post : ObjectList) jobName st,
       parseJobHead jitems = Ok (result, jbody) →
       Name result = Some jobName →
       Children (Filter "task" jbody) = pre ++ item :: post →
       foldM (parseTasksItem jobName) (∅, "", []) pre = Ok st →
       n ∉ st.1.1 →
       parseJob jitems = Err (under "task:" e)) ∧
    (∀ jobName gn (gitem : ObjectItem) g (gbody pre post : ObjectList)
       gname st,
       parseGroupHead gn gitem = Ok (g, gbody) →
       TaskGroup_Name g = Some gname →
       Children (Filter "task" gbody) = pre ++ item :: post →
       foldM (parseTasksItem jobName) (∅, gname, []) pre = Ok st →
       n ∉ st.1.1 →
       parseGroup jobName gn gitem
       = Err (under ("'" +:+ gn +:+ "', task:") e) ∧
       ∀ (jitems : ObjectList) result (jbody gpre gpost : ObjectList) bare
         grest gst,
         parseJobHead jitems = Ok (result, jbody) →
         Name result = Some jobName →
         when_present (Filter "task" jbody) [] (parseJobTasks jobName)
         = Ok bare →
         Children (Filter "group" jbody) = gpre ++ gitem :: gpost →
         foldM (parseGroupsItem jobName) (∅, []) gpre = Ok gst →
         Keys gitem = gn :: grest → gn ∉ gst.1 →
         parseJob jitems
         = Err (under "group:" (under ("'" +:+ gn +:+ "', task:") e))).
Proof.
  intros Hkeys Hbody Hin Hk.
  destruct (CheckHCLKeys_unknown body taskKeys k Hin Hk) as (k' & Hk' & Hc).
  exists k'. split; [done|]. cbn zeta.
  assert (∀ jobName tg,
            parseTask jobName tg n item
            = Err (under ("'" +:+ n +:+ "' ->") (invalidKey k'))) as Htask.
  { intros jobName tg. unfold parseTask.
    rewrite Hbody. cbn [asObjectType]. fold taskKeys. by rewrite Hc. }
  split; [done|]. split.
  - intros jitems result jbody pre post jobName st Hhead Hname Hitems
      Hpre Hseen.
    eapply parseJob_task_error; [done..| |].
    + by eapply Children_nonempty_Filter.
    + by eapply parseTasks_first_error.
  - intros jobName gn gitem g gbody pre post gname st Hhead Hname Hitems
      Hpre Hseen.
    assert (parseGroup jobName gn gitem
            = Err (under ("'" +:+ gn +:+ "', task:")
                     (under ("'" +:+ n +:+ "' ->") (invalidKey k'))))
      as Hgroup.
    { eapply parseGroup_task_error; [done..| |].
      - by eapply Children_nonempty_Filter.
      - by eapply parseTasks_first_error. }
    split; [done|].
    intros jitems result jbody gpre gpost bare grest gst Hjhead Hjname Hbare
      Hgitems Hgpre Hgkeys Hgseen.
    by eapply parseJob_group_error.
Qed.
(** *** Names of the groups *)

(** The loop of [parseGroups] accepts a list of [group] blocks only when
    their labels are pairwise different, and different from the ones seen
    before. *)
Lemma parseGroups_loop_labels jobName (l : ObjectList) seen collection st :
  foldM (parseGroupsItem jobName) (seen, collection) l = Ok st →
  NoDup (groupLabel <$> l) ∧
  (∀ n, n ∈ groupLabel <$> l → n ∉ seen) ∧
  st.1 = list_to_set (groupLabel <$> l) ∪ seen.
Proof.
  revert seen collection.
  induction l as [|item l IH]; intros seen collection Hl.
  - injection Hl as <-. cbn. split; [constructor|]. set_solver.
  - cbn [foldM] in Hl. inv_ok Hl.
    apply parseGroupsItem_Ok in Hx as (n & rest & g & Hkeys & Hseen & _ & ->).
    apply IH in Hl as (Hnd & Hnew & ->).
    assert (groupLabel item = n) as Hn by (unfold groupLabel; by rewrite Hkeys).
    rewrite fmap_cons, Hn. split; [|split].
    + constructor; [|done]. intros Hin. apply Hnew in Hin. set_solver.
    + intros n' Hn'. apply elem_of_cons in Hn' as [->|Hn']; [done|].
      apply Hnew in Hn'. set_solver.
    + cbn. set_solver.
Qed.

(** The labels of the [group] blocks of an accepted list are pairwise
    different. *)
Lemma parseGroups_labels_NoDup jobName taskGroups (items : ObjectList) r :
  parseGroups jobName taskGroups items = Ok r →
  NoDup (groupLabel <$> Children items).
Proof.
  unfold parseGroups. case_bool_decide as Hlen.
  - intros _. apply nil_length_inv in Hlen. rewrite Hlen. constructor.
  - intros Hl. inv_ok Hl. by apply parseGroups_loop_labels in Hx as [? _].
Qed.

(** Two [group] blocks of one label are rejected, with the duplicate-name
    error for that label when the blocks before the second one are
    accepted. *)
Lemma parseGroups_duplicate jobName taskGroups (items pre mid post : ObjectList)
    (a b : ObjectItem) n ra rb :
  Children items = pre ++ a :: mid ++ b :: post →
  Keys a = n :: ra → Keys b = n :: rb →
  is_Ok (parseGroups jobName taskGroups items) = false ∧
  ∀ st, foldM (parseGroupsItem jobName) (∅, []) (pre ++ a :: mid) = Ok st →
        parseGroups jobName taskGroups items
        = Err ("group '" +:+ n +:+ "' defined more than once").
Proof.
  intros Hitems Ha Hb. split.
  - destruct (parseGroups jobName taskGroups items) as [r| |] eqn:Hr; [|done..].
    apply parseGroups_labels_NoDup in Hr. rewrite Hitems in Hr.
    rewrite fmap_app, fmap_cons, fmap_app, fmap_cons in Hr.
    apply NoDup_app in Hr as (_ & _ & Hr).
    apply NoDup_cons in Hr as [Hr _]. exfalso. apply Hr.
    unfold groupLabel at 1 3. rewrite Ha, Hb. set_solver.
  - intros st Hst. unfold parseGroups.
    rewrite Hitems, bool_decide_false by (rewrite length_app; cbn; lia).
    replace (pre ++ a :: mid ++ b :: post)
      with ((pre ++ a :: mid) ++ b :: post) by by rewrite <- app_assoc.
    rewrite foldM_app, Hst. cbn [mbind result_bind foldM].
    apply parseGroups_loop_labels in Hst as (_ & _ & Hseen).
    destruct st as [seen coll]. cbn [fst] in Hseen.
    unfold parseGroupsItem. rewrite Hb.
    cbn [index lookup list_lookup mbind result_bind].
    rewrite bool_decide_true; [done|]. rewrite Hseen.
    rewrite fmap_app, fmap_cons. unfold groupLabel at 2. rewrite Ha.
    set_solver.
Qed.

(** A job with two [group] blocks of one label is never accepted. *)
Lemma parseJob_duplicate_groups (jitems : ObjectList) (obj : ObjectItem)
    (body pre mid post : ObjectList) (a b : ObjectItem) n ra rb :
  Children jitems = [obj] → Val obj = ObjectType body →
  Children (Filter "group" body) = pre ++ a :: mid ++ b :: post →
  Keys a = n :: ra → Keys b = n :: rb →
  is_Ok (parseJob jitems) = false.
Proof.
  intros Hobj Hbody Hitems Ha Hb. unfold parseJob.
  destruct (parseJobHead jitems) as [[result listVal]| |] eqn:Hhead; [|done..].
  apply parseJobHead_Ok in Hhead as (obj' & Hobj' & Hbody' & _).
  rewrite Hobj in Hobj'. injection Hobj' as <-.
  rewrite Hbody in Hbody'. injection Hbody' as <-.
  cbn [mbind result_bind fst snd]. do 2 step_not_ok.
  rewrite (when_present_cons (Filter "group" body))
    by (by eapply Children_nonempty_Filter).
  apply is_Ok_false_bind.
  match goal with
  | |- is_Ok (Prefix (parseGroups ?jobName ?bare _) _) = false =>
      destruct (parseGroups_duplicate jobName bare _ _ _ _ _ _ _ _ _
                  Hitems Ha Hb) as [Hfalse _];
      by destruct (parseGroups jobName bare (Filter "group" body))
  end.
Qed.

(** *** The job block *)

(** X1.  Once the top-level whitelist has passed, [Parse] fails with
    ['job' stanza not found] on a document without a [job] block, and
    [parseJob] rejects, under the prefix of [Parse], a document with more
    than one [job] block and a single [job] block that has no name.  The
    job [Parse] returns is the one [parseJob] builds from the [job]
    blocks. *)
Theorem X1_Parse_job_blocks (root : ObjectList) :
  CheckHCLKeys root ["job"] = Ok () →
  (Filter "job" root = [] → Parse root = Err "'job' stanza not found") ∧
  ((1 < length (Filter "job" root))%nat →
   Parse root = Err "error parsing 'job': only one 'job' block allowed") ∧
  (∀ o, Filter "job" root = [o] → Keys o = [] →
        Parse root = Err "error parsing 'job': 'job' block missing name") ∧
  (∀ job, Parse root = Ok job ↔ parseJob (Filter "job" root) = Ok job).
Proof.
  intros Hk. unfold Parse. rewrite Hk. cbn [mbind result_bind].
  split; [|split; [|split]].
  - by intros ->.
  - intros Hlen. rewrite bool_decide_false by lia.
    unfold parseJob, parseJobHead. by rewrite bool_decide_true by lia.
  - intros o -> Ho. cbn [length]. rewrite bool_decide_false by done.
    unfold parseJob, parseJobHead. cbn [length].
    rewrite bool_decide_false by (intros Hne; by destruct Hne).
    unfold Children. rewrite filter_cons_False by (intros Hne; by destruct Hne).
    by rewrite filter_nil.
  - intros job. case_bool_decide as Hlen.
    + apply nil_length_inv in Hlen. rewrite Hlen. split; [done|].
      unfold parseJob, parseJobHead. by rewrite bool_decide_true by done.
    + apply Prefix_Ok.
Qed.

(** An accepted job block has its id and its name set. *)
Lemma parseJobHead_names (items : ObjectList) result (listVal : ObjectList) :
  parseJobHead items = Ok (result, listVal) →
  ∃ obj : ObjectItem,
    items = [obj] ∧ Keys obj ≠ [] ∧
    is_Some (ID result) ∧ is_Some (Name result).
Proof.
  unfold parseJobHead. intros Hj.
  case_bool_decide as Hlen; [done|].
  case_bool_decide as Hlen'; [done|].
  destruct items as [|obj [|? ?]]; try (cbn in Hlen; lia).
  exists obj. split; [done|].
  assert (Keys obj ≠ []) as Hkeys.
  { intros Hnil. unfold Children in Hlen'.
    by rewrite filter_cons_False, filter_nil in Hlen'
      by (intros Hne; by destruct Hne). }
  split; [done|].
  unfold Children in Hj. rewrite filter_cons_True, filter_nil in Hj by done.
  cbn [index lookup list_lookup mbind result_bind] in Hj.
  inv_ok Hj. inv_ok Hj. inv_ok Hj. inv_ok Hj.
  inv_ok Hj. rename x3 into id, Hx3 into Hid.
  inv_ok Hj. rename x3 into name, Hx3 into Hname.
  do 5 inv_ok Hj.
  destruct (asObjectType (Val obj)) as [body|]; [|done].
  repeat inv_ok Hj. injection Hj as <- _. cbn.
  apply decode_ptr_Some in Hid as [? ->].
  apply decode_ptr_Some in Hname as [? ->]. by split.
Qed.

(** The tasks of an accepted list of [task] blocks: one for each labelled
    block, and no label twice. *)
Lemma parseTasks_loop_labels jobName (l : ObjectList) seen tg acc st :
  foldM (parseTasksItem jobName) (seen, tg, acc) l = Ok st →
  ∃ ts, st.2 = acc ++ ts ∧ length ts = length l ∧
        NoDup (taskLabel <$> l) ∧
        (∀ n, n ∈ taskLabel <$> l → n ∉ seen) ∧
        st.1.1 = list_to_set (taskLabel <$> l) ∪ seen.
Proof.
  revert seen tg acc. induction l as [|item l IH]; intros seen tg acc Hl.
  - injection Hl as <-. exists []. rewrite app_nil_r. cbn.
    repeat split; [constructor|set_solver..].
  - cbn [foldM] in Hl. inv_ok Hl.
    apply parseTasksItem_Ok in Hx
      as (n & rest & t & Hkeys & Hseen & _ & ->).
    apply IH in Hl as (ts & -> & Hlen & Hnd & Hnew & ->).
    assert (taskLabel item = n) as Hn by (unfold taskLabel; by rewrite Hkeys).
    exists (t :: ts). rewrite <- app_assoc, fmap_cons, Hn. cbn [length].
    split; [done|]. split; [by rewrite Hlen|]. split; [|split].
    + constructor; [|done]. intros Hin. apply Hnew in Hin. set_solver.
    + intros n' Hn'. apply elem_of_cons in Hn' as [->|Hn']; [done|].
      apply Hnew in Hn'. set_solver.
    + cbn. set_solver.
Qed.

Lemma parseTasks_labels jobName tg (result : list Task) (items : ObjectList) r :
  parseTasks jobName tg result items = Ok r →
  ∃ ts, r = result ++ ts ∧ length ts = length (Children items) ∧
        NoDup (taskLabel <$> Children items).
Proof.
  unfold parseTasks. case_bool_decide as Hlen.
  - intros [= <-]. apply nil_length_inv in Hlen. rewrite Hlen.
    exists []. rewrite app_nil_r. repeat split. constructor.
  - intros Hl. inv_ok Hl. destruct x as [[seen' tg'] acc'].
    apply parseTasks_loop_labels in Hx as (ts & Hts & Hlen' & Hnd & _).
    cbn in Hl, Hts. injection Hl as <-. by exists ts.
Qed.

(** The group of a [group] block has one task for each labelled [task]
    block of the group. *)
Lemma parseGroup_shape jobName n (item : ObjectItem) g :
  parseGroup jobName n item = Ok g → groupShape item g.
Proof.
  unfold parseGroup. intros Hg.
  inv_as Hg gl Hhead. destruct gl as [g0 body]. cbn [fst snd] in Hg.
  apply parseGroupHead_Ok in Hhead as (Hbody & _ & gn & Hgn).
  inv_as Hg gname Hgname. inv_as Hg tasks Htasks.
  inv_as Hg tgVault Hvault. injection Hg as <-.
  exists body. split; [done|]. split; [cbn; by rewrite Hgn|].
  rewrite Tasks_set.
  assert (length tasks = length (Children (Filter "task" body))) as Hlen.
  { apply when_present_Ok in Htasks as [[Hnil ->]|[_ Htasks]].
    - by rewrite Hnil.
    - inv_ok Htasks. injection Htasks as ->.
      match goal with
      | H : parseTasks _ _ _ _ = Ok _ |- _ =>
          by apply parseTasks_labels in H as (ts & -> & ? & _)
      end. }
  destruct tgVault; [|done]. by rewrite length_fmap.
Qed.

Lemma parseGroups_loop_shape jobName (l : ObjectList) seen collection st :
  foldM (parseGroupsItem jobName) (seen, collection) l = Ok st →
  ∃ gs, st.2 = collection ++ gs ∧ Forall2 groupShape l gs.
Proof.
  revert seen collection.
  induction l as [|item l IH]; intros seen collection Hl.
  - injection Hl as <-. exists []. by rewrite app_nil_r.
  - cbn [foldM] in Hl. inv_ok Hl.
    apply parseGroupsItem_Ok in Hx as (n & rest & g & _ & _ & Hg & ->).
    apply IH in Hl as (gs & -> & Hall).
    exists (g :: gs). rewrite <- app_assoc. split; [done|].
    constructor; [|done]. by eapply parseGroup_shape.
Qed.

Lemma parseGroups_shape jobName taskGroups (items : ObjectList) r :
  parseGroups jobName taskGroups items = Ok r →
  ∃ gs, r = taskGroups ++ gs ∧ Forall2 groupShape (Children items) gs.
Proof.
  unfold parseGroups. case_bool_decide as Hlen.
  - intros [= <-]. apply nil_length_inv in Hlen. rewrite Hlen.
    exists []. by rewrite app_nil_r.
  - intros Hl. inv_ok Hl.
    apply parseGroups_loop_shape in Hx as (gs & Hgs & Hall).
    injection Hl as <-. exists gs. by rewrite Hgs.
Qed.

Lemma groupShape_inherit v (item : ObjectItem) tg :
  groupShape item tg → groupShape item (inheritJobVault v tg).
Proof.
  intros (body & Hbody & Hname & Hlen). exists body.
  unfold inheritJobVault. rewrite Tasks_set, length_fmap. by repeat split.
Qed.

Lemma inheritJobVault_taskGroupOf v (t : Task) :
  inheritJobVault v (taskGroupOf t) = taskGroupOf (inheritVault v t).
Proof.
  unfold inheritJobVault, taskGroupOf. cbn. f_equal.
  unfold inheritVault. by destruct (Task_Vault t).
Qed.

Lemma parseJobTasks_Ok jobName (o : ObjectList) bare :
  parseJobTasks jobName o = Ok bare →
  ∃ ts, parseTasks jobName "" [] o = Ok ts ∧ bare = taskGroupOf <$> ts.
Proof.
  unfold parseJobTasks. intros Hb.
  destruct (parseTasks jobName "" [] o) as [ts| |]; [|done..].
  injection Hb as <-. by exists ts.
Qed.

(** X2.  The task groups of an accepted job: first one group for each
    labelled [task] block directly under the job, named after its task,
    with that task alone and nothing else set, then one group for each
    labelled [group] block, in the order of the blocks, with one task for
    each labelled [task] block of the group; the groups of bare tasks come
    first wherever the blocks are in the document.  The job has exactly one
    block, which is named, and its id and name are set. *)
Theorem X2_task_groups_layout (items : ObjectList) job :
  parseJob items = Ok job →
  ∃ (obj : ObjectItem) (body : ObjectList) (tasks : list Task)
    (groups : list TaskGroup),
    items = [obj] ∧ Keys obj ≠ [] ∧ Val obj = ObjectType body ∧
    is_Some (ID job) ∧ is_Some (Name job) ∧
    TaskGroups job = (taskGroupOf <$> tasks) ++ groups ∧
    length tasks = length (Children (Filter "task" body)) ∧
    Forall2 groupShape (Children (Filter "group" body)) groups.
Proof.
  unfold parseJob. intros Hj.
  inv_as Hj rl Hhead. destruct rl as [result body]. cbn [fst snd] in Hj.
  pose proof (parseJobHead_names _ _ _ Hhead)
    as (obj & -> & Hkeys & Hid & Hname).
  apply parseJobHead_Ok in Hhead as (obj' & Hobj & Hbody & _).
  unfold Children in Hobj. rewrite filter_cons_True, filter_nil in Hobj by done.
  injection Hobj as <-.
  inv_as Hj jobName HjobName. inv_as Hj bare Hbare. inv_as Hj tgs Htgs.
  inv_as Hj jobVault Hvault. injection Hj as <-.
  exists obj, body.
  assert (∃ tasks, bare = taskGroupOf <$> tasks ∧
                   length tasks = length (Children (Filter "task" body)))
    as (tasks & -> & Hlen).
  { apply when_present_Ok in Hbare as [[Hnil ->]|[_ Hbare]].
    - exists []. by rewrite Hnil.
    - apply parseJobTasks_Ok in Hbare as (ts & Hts & ->).
      apply parseTasks_labels in Hts as (ts' & -> & ? & _). by exists ts'. }
  assert (∃ gs, tgs = (taskGroupOf <$> tasks) ++ gs ∧
                Forall2 groupShape (Children (Filter "group" body)) gs)
    as (gs & -> & Hgs).
  { apply when_present_Ok in Htgs as [[Hnil ->]|[_ Htgs]].
    - exists []. rewrite Hnil, app_nil_r. split; [done|constructor].
    - inv_ok Htgs. injection Htgs as <-. by eapply parseGroups_shape. }
  destruct jobVault as [jv|]; cbn.
  - exists (inheritVault jv <$> tasks), (inheritJobVault jv <$> gs).
    repeat split; try done.
    + rewrite fmap_app. f_equal. rewrite <- !list_fmap_compose.
      apply list_fmap_ext. intros i t _. cbn.
      apply inheritJobVault_taskGroupOf.
    + by rewrite length_fmap.
    + clear -Hgs. induction Hgs as [|item tg ? ? Htg _ IH]; [constructor|].
      rewrite fmap_cons. constructor; [|done]. by apply groupShape_inherit.
  - by exists tasks, gs.
Qed.

(** *** Labels *)

(** X3.  [parseGroups] accepts a list of [group] blocks only when the
    labels of its labelled blocks are pairwise different, compared as they
    are written.  With two blocks of one label it fails: with the error
    that names the label when the blocks before the second one are
    accepted, and a job with such blocks is never accepted. *)
Theorem X3_group_labels_unique jobName taskGroups (items : ObjectList) :
  (∀ r, parseGroups jobName taskGroups items = Ok r →
        NoDup (groupLabel <$> Children items)) ∧
  (∀ (pre mid post : ObjectList) (a b : ObjectItem) n ra rb,
     Children items = pre ++ a :: mid ++ b :: post →
     Keys a = n :: ra → Keys b = n :: rb →
     is_Ok (parseGroups jobName taskGroups items) = false ∧
     (∀ st, foldM (parseGroupsItem jobName) (∅, []) (pre ++ a :: mid)
            = Ok st →
            parseGroups jobName taskGroups items
            = Err ("group '" +:+ n +:+ "' defined more than once")) ∧
     (∀ (jitems : ObjectList) (obj : ObjectItem) (body : ObjectList),
        Children jitems = [obj] → Val obj = ObjectType body →
        Filter "group" body = items → is_Ok (parseJob jitems) = false)).
Proof.
  split.
  - intros r. apply parseGroups_labels_NoDup.
  - intros pre mid post a b n ra rb Hitems Ha Hb.
    destruct (parseGroups_duplicate jobName taskGroups _ _ _ _ _ _ _ _ _
                Hitems Ha Hb) as [Hfalse Herr].
    split; [done|]. split; [done|].
    intros jitems obj body Hobj Hbody <-.
    by eapply parseJob_duplicate_groups.
Qed.


Lemma Children_skip (pre post : ObjectList) (o : ObjectItem) :
  Keys o = [] → Children (pre ++ o :: post) = Children (pre ++ post).
Proof.
  intros Hk. unfold Children.
  rewrite !filter_app, filter_cons_False; [done|].
  intros Hne. by destruct Hne.
Qed.

Lemma Children_unlabelled (items : ObjectList) :
  Forall (λ o : ObjectItem, Keys o = []) items → Children items = [].
Proof.
  induction 1 as [|o items Ho _ IH]; [done|].
  unfold Children. rewrite filter_cons_False; [done|].
  intros Hne. by destruct Hne.
Qed.

(** X5.  [parseTasks] and [parseGroups] only look at the blocks that
    carry a label: a [task] or [group] block without one is dropped
    without any check, and a list without a labelled block leaves the
    tasks, or the task groups, as they are. *)
Theorem X5_unlabelled_blocks_dropped jobName tg (result : list Task)
    (taskGroups : list TaskGroup) :
  (∀ (pre post : ObjectList) (o : ObjectItem), Keys o = [] →
     parseTasks jobName tg result (pre ++ o :: post)
     = parseTasks jobName tg result (pre ++ post) ∧
     parseGroups jobName taskGroups (pre ++ o :: post)
     = parseGroups jobName taskGroups (pre ++ post)) ∧
  (∀ items : ObjectList, Forall (λ o : ObjectItem, Keys o = []) items →
     parseTasks jobName tg result items = Ok result ∧
     parseGroups jobName taskGroups items = Ok taskGroups).
Proof.
  split.
  - intros pre post o Hk. unfold parseTasks, parseGroups.
    by rewrite Children_skip.
  - intros items Hall. unfold parseTasks, parseGroups.
    by rewrite Children_unlabelled.
Qed.

Lemma Elem_skip (pre post : ObjectList) (o : ObjectItem) :
  Keys o ≠ [] → Elem (pre ++ o :: post) = Elem (pre ++ post).
Proof.
  intros Hk. unfold Elem. by rewrite !filter_app, filter_cons_False.
Qed.

(** X6.  The parsers of the repeatable blocks ([constraint], [affinity],
    [spread], [artifact], [template], and the merged [meta], [env] and
    [config] blocks) only look at the blocks without a label: a labelled
    block is skipped without any check, and a list whose blocks are all
    labelled leaves the result as it is. *)
Theorem X6_labelled_blocks_skipped :
  (∀ (pre post : ObjectList) (o : ObjectItem), Keys o ≠ [] →
     (∀ r, parseConstraints r (pre ++ o :: post)
           = parseConstraints r (pre ++ post)) ∧
     (∀ r, parseAffinities r (pre ++ o :: post)
           = parseAffinities r (pre ++ post)) ∧
     (∀ r, parseSpread r (pre ++ o :: post) = parseSpread r (pre ++ post)) ∧
     (∀ r, parseArtifacts r (pre ++ o :: post)
           = parseArtifacts r (pre ++ post)) ∧
     (∀ r, parseTemplates r (pre ++ o :: post)
           = parseTemplates r (pre ++ post)) ∧
     (∀ r, mergeStringBlocks r (pre ++ o :: post)
           = mergeStringBlocks r (pre ++ post)) ∧
     (∀ r, mergeValueBlocks r (pre ++ o :: post)
           = mergeValueBlocks r (pre ++ post))) ∧
  (∀ items : ObjectList, Elem items = [] →
     (∀ r, parseConstraints r items = Ok r) ∧
     (∀ r, parseAffinities r items = Ok r) ∧
     (∀ r, parseSpread r items = Ok r) ∧
     (∀ r, parseArtifacts r items = Ok r) ∧
     (∀ r, parseTemplates r items = Ok r) ∧
     (∀ r, mergeStringBlocks r items = Ok r) ∧
     (∀ r, mergeValueBlocks r items = Ok r)).
Proof.
  split.
  - intros pre post o Hk.
    unfold parseConstraints, parseAffinities, parseSpread, parseArtifacts,
      parseTemplates, mergeStringBlocks, mergeValueBlocks.
    by rewrite Elem_skip.
  - intros items He.
    unfold parseConstraints, parseAffinities, parseSpread, parseArtifacts,
      parseTemplates, mergeStringBlocks, mergeValueBlocks.
    by rewrite He.
Qed.

(** *** Loops that stop at the first failure *)

Lemma foldM_first_error {A B} (f : B → A → result B) acc pre x post st e :
  foldM f acc pre = Ok st → f st x = Err e →
  foldM f acc (pre ++ x :: post) = Err e.
Proof.
  intros Hpre Hx. rewrite foldM_app, Hpre. cbn [mbind result_bind foldM].
  by rewrite Hx.
Qed.

Lemma fmap_not_ok {A B} (g : A → B) (r : result A) :
  is_Ok r = false → is_Ok (g <$> r) = false.
Proof. by destruct r. Qed.

Lemma Prefix_not_ok {A} (r : result A) p :
  is_Ok r = false → is_Ok (Prefix r p) = false.
Proof. by destruct r. Qed.

(** *** Singleton blocks *)

(** X7.  When every [options] block of an artifact carries a label,
    [parseArtifactOption] indexes an empty list and panics; an artifact
    list that holds such an artifact is never accepted, and the panic is
    the outcome when the artifact is the first one and its attributes are
    accepted. *)
Theorem X7_labelled_options_panic (options : ObjectList) :
  Elem options = [] →
  (∀ r, parseArtifactOption r options = Panic) ∧
  (∀ result (items : ObjectList) (o : ObjectItem) (body : ObjectList),
     o ∈ Elem items → Val o = ObjectType body →
     Filter "options" body = options → options ≠ [] →
     is_Ok (parseArtifacts result items) = false) ∧
  (∀ result (post : ObjectList) (o : ObjectItem) (body : ObjectList) m ta,
     Keys o = [] → Val o = ObjectType body →
     Filter "options" body = options → options ≠ [] →
     CheckHCLKeys body ["source"; "options"; "mode"; "destination"]
     = Ok () →
     DecodeObject (Val o) = Ok m →
     decodeArtifact (delete "options" m) = Ok ta →
     parseArtifacts result (o :: post) = Panic).
Proof.
  intros He.
  assert (∀ r, parseArtifactOption r options = Panic) as Hpanic.
  { intros r. unfold parseArtifactOption. by rewrite He. }
  split; [done|]. split.
  - intros result items o body Ho Hbody <- Hne. unfold parseArtifacts.
    apply (foldM_fails _ _ _ o); [done|]. intros acc.
    step_not_ok. step_not_ok. step_not_ok.
    rewrite Hbody. cbn [asObjectType].
    rewrite (when_present_cons (Filter "options" body)) by done.
    by rewrite Hpanic.
  - intros result post o body m ta Hk Hbody <- Hne Hc Hm Hta.
    unfold parseArtifacts. rewrite Elem_cons_unlabelled by done.
    cbn [foldM]. rewrite Hbody. cbn [CheckHCLKeysNode]. rewrite Hc.
    cbn [mbind result_bind]. rewrite <- Hbody, Hm. cbn [mbind result_bind].
    rewrite Hta. cbn [mbind result_bind]. rewrite Hbody. cbn [asObjectType].
    rewrite (when_present_cons (Filter "options" body)) by done.
    by rewrite Hpanic.
Qed.

(** A job is not accepted when the parser of one of its policy blocks
    fails. *)
Lemma parseJobHead_policy_fails (items : ObjectList) (obj : ObjectItem)
    (body : ObjectList) key :
  Children items = [obj] → Val obj = ObjectType body →
  key ∈ jobPolicyKeys → Filter key body ≠ [] →
  is_Ok (parseUpdate (Filter key body)) = false →
  is_Ok (parsePeriodic (Filter key body)) = false →
  is_Ok (parseParameterizedJob (Filter key body)) = false →
  is_Ok (parseReschedulePolicy (Filter key body)) = false →
  is_Ok (parseMigrate (Filter key body)) = false →
  is_Ok (parseJobHead items) = false.
Proof.
  intros Hobj Hbody Hkey Hne Hup Hpe Hpa Hre Hmi. unfold parseJobHead.
  case_bool_decide; [done|]. rewrite Hobj.
  rewrite bool_decide_false by (cbn; lia).
  cbn [index lookup list_lookup mbind result_bind].
  do 11 step_not_ok. rewrite Hbody. cbn [asObjectType].
  do 3 step_not_ok.
  unfold jobPolicyKeys in Hkey. set_unfold in Hkey.
  destruct Hkey as [->|[->|[->|[->|[->|[]]]]]].
  - rewrite (when_present_cons (Filter "update" body)) by done.
    by apply is_Ok_false_bind, fmap_not_ok, Prefix_not_ok.
  - step_not_ok.
    rewrite (when_present_cons (Filter "periodic" body)) by done.
    by apply is_Ok_false_bind, fmap_not_ok, Prefix_not_ok.
  - do 3 step_not_ok.
    rewrite (when_present_cons (Filter "parameterized" body)) by done.
    by apply is_Ok_false_bind, fmap_not_ok, Prefix_not_ok.
  - do 4 step_not_ok.
    rewrite (when_present_cons (Filter "reschedule" body)) by done.
    by apply is_Ok_false_bind, fmap_not_ok, Prefix_not_ok.
  - do 5 step_not_ok.
    rewrite (when_present_cons (Filter "migrate" body)) by done.
    by apply is_Ok_false_bind, fmap_not_ok, Prefix_not_ok.
Qed.

(** The same for a group. *)
Lemma parseGroupHead_policy_fails n (item : ObjectItem) (body : ObjectList)
    key :
  Val item = ObjectType body →
  key ∈ groupPolicyKeys → Filter key body ≠ [] →
  is_Ok (parseRestartPolicy (Filter key body)) = false →
  is_Ok (parseReschedulePolicy (Filter key body)) = false →
  is_Ok (parseEphemeralDisk (Filter key body)) = false →
  is_Ok (parseUpdate (Filter key body)) = false →
  is_Ok (parseMigrate (Filter key body)) = false →
  is_Ok (parseGroupHead n item) = false.
Proof.
  intros Hbody Hkey Hne Hrs Hre Hdi Hup Hmi. unfold parseGroupHead.
  rewrite Hbody. cbn [asObjectType].
  do 6 step_not_ok.
  unfold groupPolicyKeys in Hkey. set_unfold in Hkey.
  destruct Hkey as [->|[->|[->|[->|[->|[]]]]]].
  - rewrite (when_present_cons (Filter "restart" body)) by done.
    by apply is_Ok_false_bind, fmap_not_ok, Prefix_not_ok.
  - do 2 step_not_ok.
    rewrite (when_present_cons (Filter "reschedule" body)) by done.
    by apply is_Ok_false_bind, fmap_not_ok, Prefix_not_ok.
  - do 3 step_not_ok.
    rewrite (when_present_cons (Filter "ephemeral_disk" body)) by done.
    by apply is_Ok_false_bind, fmap_not_ok, Prefix_not_ok.
  - do 4 step_not_ok.
    rewrite (when_present_cons (Filter "update" body)) by done.
    by apply is_Ok_false_bind, fmap_not_ok, Prefix_not_ok.
  - do 5 step_not_ok.
    rewrite (when_present_cons (Filter "migrate" body)) by done.
    by apply is_Ok_false_bind, fmap_not_ok, Prefix_not_ok.
Qed.

(** X8.  With more than one unlabelled block, each parser of a singleton
    block returns its own error before it looks at any block: the seven
    policy parsers, [parseVault], [parseResources] and
    [parseArtifactOption].  A job, or a group, with two unlabelled blocks
    of one of its policy kinds is never accepted. *)
Theorem X8_duplicate_singleton_blocks (items : ObjectList) :
  (1 < length (Elem items))%nat →
  (parseRestartPolicy items = Err "only one 'restart' block allowed" ∧
   parseReschedulePolicy items = Err "only one 'reschedule' block allowed" ∧
   parseEphemeralDisk items
   = Err "only one 'ephemeral_disk' block allowed" ∧
   parseUpdate items = Err "only one 'update' block allowed" ∧
   parseMigrate items = Err "only one 'migrate' block allowed" ∧
   parsePeriodic items = Err "only one 'periodic' block allowed per job" ∧
   parseParameterizedJob items
   = Err "only one 'parameterized' block allowed per job" ∧
   (∀ v, parseVault v items
         = Err "only one 'vault' block allowed per task") ∧
   (∀ r, parseResources r items
         = Err "only one 'resource' block allowed per task") ∧
   (∀ r, parseArtifactOption r items
         = Err "only one 'options' block allowed per artifact")) ∧
  (∀ (jitems : ObjectList) (obj : ObjectItem) (body : ObjectList) key,
     Children jitems = [obj] → Val obj = ObjectType body →
     key ∈ jobPolicyKeys → Filter key body = items →
     is_Ok (parseJob jitems) = false) ∧
  (∀ jobName n (item : ObjectItem) (body : ObjectList) key,
     Val item = ObjectType body →
     key ∈ groupPolicyKeys → Filter key body = items →
     is_Ok (parseGroup jobName n item) = false).
Proof.
  intros Hlen.
  assert (items ≠ []) as Hne by (intros ->; cbn in Hlen; lia).
  assert (parseRestartPolicy items = Err "only one 'restart' block allowed" ∧
   parseReschedulePolicy items = Err "only one 'reschedule' block allowed" ∧
   parseEphemeralDisk items
   = Err "only one 'ephemeral_disk' block allowed" ∧
   parseUpdate items = Err "only one 'update' block allowed" ∧
   parseMigrate items = Err "only one 'migrate' block allowed" ∧
   parsePeriodic items = Err "only one 'periodic' block allowed per job" ∧
   parseParameterizedJob items
   = Err "only one 'parameterized' block allowed per job" ∧
   (∀ v, parseVault v items
         = Err "only one 'vault' block allowed per task") ∧
   (∀ r, parseResources r items
         = Err "only one 'resource' block allowed per task") ∧
   (∀ r, parseArtifactOption r items
         = Err "only one 'options' block allowed per artifact"))
    as Hall.
  { unfold parseRestartPolicy, parseReschedulePolicy, parseEphemeralDisk,
      parseUpdate, parseMigrate, parsePeriodic, parseParameterizedJob,
      parseVault, parseResources, parseArtifactOption.
    rewrite (bool_decide_true (1 < _)%nat) by done.
    rewrite (bool_decide_false (_ = 0)%nat) by lia. done. }
  split; [done|].
  destruct Hall as (Hrs & Hre & Hdi & Hup & Hmi & Hpe & Hpa & _).
  split.
  - intros jitems obj body key Hobj Hbody Hkey <-.
    unfold parseJob. apply is_Ok_false_bind.
    eapply parseJobHead_policy_fails; try done.
    + by rewrite Hup.
    + by rewrite Hpe.
    + by rewrite Hpa.
    + by rewrite Hre.
    + by rewrite Hmi.
  - intros jobName n item body key Hbody Hkey <-.
    unfold parseGroup. apply is_Ok_false_bind.
    eapply parseGroupHead_policy_fails; try done.
    + by rewrite Hrs.
    + by rewrite Hre.
    + by rewrite Hdi.
    + by rewrite Hup.
    + by rewrite Hmi.
Qed.

(** *** Spread targets *)





(** *** Ports and resources *)

(** X10.  [parsePorts] keeps the [mbits] of the network resource it
    fills, and every port of an accepted network block has a label that
    matches the pattern of port labels.  A [port] block without a label
    makes it fail, with [ports must be named] when the block has passed the
    whitelist and the ports before it are accepted. *)
Theorem X10_ports_named (networkObj : ObjectList) nw0 :
  (∀ nw, parsePorts networkObj nw0 = Ok nw →
         MBits nw = MBits nw0 ∧
         Forall (λ port : ObjectItem,
                   ∃ label rest, Keys port = label :: rest ∧
                                 reDynamicPorts_MatchString label = true)
           (Filter "port" networkObj)) ∧
  (∀ (pre post : ObjectList) (port : ObjectItem),
     Filter "port" networkObj = pre ++ port :: post → Keys port = [] →
     is_Ok (parsePorts networkObj nw0) = false ∧
     (CheckHCLKeys networkObj networkKeys = Ok () →
      ∀ st, foldM parsePort (∅, nw0) pre = Ok st →
            parsePorts networkObj nw0 = Err "ports must be named")).
Proof.
  split.
  - intros nw Hp. apply parsePorts_Ok in Hp as (_ & known & Hl).
    apply parsePorts_loop in Hl as (ps & Hall & Hre & _ & _ & _ & Hmb & _).
    split; [done|].
    clear -Hall Hre. induction Hall as [|port p l ps Hp _ IH]; [constructor|].
    apply Forall_cons in Hre as [Hre Hres]. constructor; [|by apply IH].
    destruct Hp as (rest & m & Hkeys & _). by exists (Label p), rest.
  - intros pre post port Hf Hkeys.
    assert (∀ st, parsePort st port = Err "ports must be named") as Hport.
    { intros [known nw]. unfold parsePort. by rewrite Hkeys. }
    split.
    + unfold parsePorts. step_not_ok. apply fmap_not_ok.
      apply (foldM_fails _ _ _ port); [rewrite Hf; set_solver|].
      intros st. by rewrite Hport.
    + intros Hc st Hst. rewrite parsePorts_unfold, Hf by done.
      by rewrite (foldM_first_error _ _ _ _ _ st "ports must be named").
Qed.

Lemma parseNetwork_Ok (o : ObjectList) ns :
  parseNetwork o = Ok ns →
  ∃ (o0 : ObjectItem) (networkObj : ObjectList) mbits n,
    o = [o0] ∧ Val o0 = ObjectType networkObj ∧
    parsePorts networkObj (mkNetworkResource mbits [] []) = Ok n ∧
    ns = [n].
Proof.
  unfold parseNetwork. intros Hn. case_bool_decide as Hlen; [done|].
  destruct o as [|o0 [|? ?]]; [done| |cbn in Hlen; lia].
  cbn [index lookup list_lookup mbind result_bind] in Hn.
  inv_as Hn u Hu. inv_as Hn m Hm. inv_as Hn mbits Hmb.
  destruct (asObjectType (Val o0)) as [networkObj|] eqn:Hobj; [|done].
  apply asObjectType_Some in Hobj. inv_as Hn n Hp.
  apply Prefix_Ok in Hp. injection Hn as <-.
  by exists o0, networkObj, mbits, n.
Qed.

Lemma parseDevice_Ok idx (do : ObjectItem) d :
  parseDevice idx do = Ok d → length (Keys do) = 1%nat.
Proof. unfold parseDevice. by destruct (Keys do) as [|? [|? ?]]. Qed.

Lemma traverse_Ok {A B} (f : A → result B) l r :
  traverse f l = Ok r → Forall2 (λ x y, f x = Ok y) l r.
Proof.
  revert r. induction l as [|x l IH]; intros r Hr.
  - injection Hr as <-. constructor.
  - cbn [traverse] in Hr. inv_as Hr y Hy. inv_as Hr ys Hys.
    injection Hr as <-. constructor; [done|by apply IH].
Qed.

Lemma Forall2_imap_pair {A B} (P : nat → A → B → Prop) (l : list A) r :
  Forall2 (λ x y, P x.1 x.2 y) (imap pair l) r →
  Forall2 (λ x y, ∃ i, P i x y) l r.
Proof.
  assert (∀ (f : nat → nat),
            Forall2 (λ x y, P x.1 x.2 y) (imap (λ i x, (f i, x)) l) r →
            Forall2 (λ x y, ∃ i, P i x y) l r) as Hgen.
  { revert r. induction l as [|x l IH]; intros r f Hall.
    - inversion Hall. constructor.
    - cbn [imap] in Hall. inversion Hall as [|? y ? r' Hx Hl]; subst.
      constructor; [by exists (f 0%nat)|]. by apply (IH r' (f ∘ S)). }
  apply (Hgen id).
Qed.

(** X11.  [parseResources] returns the resources it was given when no
    [resources] block is unlabelled.  From an accepted block, the networks
    are replaced by the single network of its one [network] block, whose
    ports are collected by [parsePorts] from no ports, and the devices by
    one device for each [device] block, each of which has exactly one labelled
    name; without such blocks the networks and devices stay as they are. *)
Theorem X11_resources_layout (result : Resources) (items : ObjectList) :
  (Elem items = [] → parseResources result items = Ok result) ∧
  (∀ r, parseResources result items = Ok r → Elem items ≠ [] →
     ∃ (o : ObjectItem) (body : ObjectList),
       Elem items = [o] ∧ Val o = ObjectType body ∧
       (Filter "network" body = [] → Networks r = Networks result) ∧
       (Filter "network" body ≠ [] →
        ∃ (o0 : ObjectItem) (networkObj : ObjectList) mbits n,
          Filter "network" body = [o0] ∧ Val o0 = ObjectType networkObj ∧
          parsePorts networkObj (mkNetworkResource mbits [] []) = Ok n ∧
          Networks r = [n]) ∧
       (Filter "device" body = [] → Devices r = Devices result) ∧
       (Filter "device" body ≠ [] →
        length (Devices r) = length (Filter "device" body) ∧
        Forall (λ d : ObjectItem, length (Keys d) = 1%nat)
          (Filter "device" body))).
Proof.
  split.
  - intros He. unfold parseResources. by rewrite He.
  - intros r Hr Hne. unfold parseResources in Hr.
    case_bool_decide as Hlen0.
    { by apply nil_length_inv in Hlen0. }
    case_bool_decide as Hlen1; [done|].
    destruct (Elem items) as [|o [|? ?]] eqn:He;
      [done| |cbn in Hlen1; lia].
    cbn [index lookup list_lookup mbind result_bind] in Hr.
    destruct (asObjectType (Val o)) as [body|] eqn:Hobj; [|done].
    apply asObjectType_Some in Hobj.
    inv_as Hr u Hu. inv_as Hr m Hm. inv_as Hr res Hres.
    inv_as Hr networks Hnet. inv_as Hr devices Hdev.
    injection Hr as <-. cbn [Networks Devices].
    assert (Networks res = Networks result ∧ Devices res = Devices result)
      as [Hn Hd].
    { unfold decodeResources in Hres.
      inv_as Hres cpu Hcpu. inv_as Hres mem Hmem. inv_as Hres disk Hdisk.
      inv_as Hres iops Hiops. by injection Hres as <-. }
    exists o, body. split; [done|]. split; [done|].
    apply when_present_Ok in Hnet as [[Hnil ->]|[Hcons Hnet]];
      apply when_present_Ok in Hdev as [[Hnil' ->]|[Hcons' Hdev]].
    + repeat split; try done; by intros [].
    + repeat split; try done; try (by intros []).
      * apply traverse_Ok, Forall2_length in Hdev.
        by rewrite length_imap in Hdev.
      * apply traverse_Ok in Hdev.
        apply (Forall2_imap_pair (λ i x y, parseDevice i x = Ok y)) in Hdev.
        eapply Forall2_Forall_l; [exact Hdev|].
        apply Forall_true. intros d y [i Hi]. by eapply parseDevice_Ok.
    + apply parseNetwork_Ok in Hnet as (o0 & networkObj & mbits & n & ?).
      repeat split; try done; try (by intros []).
      intros _. by exists o0, networkObj, mbits, n.
    + apply parseNetwork_Ok in Hnet as (o0 & networkObj & mbits & n & ?).
      repeat split; try done; try (by intros []).
      * intros _. by exists o0, networkObj, mbits, n.
      * apply traverse_Ok, Forall2_length in Hdev.
        by rewrite length_imap in Hdev.
      * apply traverse_Ok in Hdev.
        apply (Forall2_imap_pair (λ i x y, parseDevice i x = Ok y)) in Hdev.
        eapply Forall2_Forall_l; [exact Hdev|].
        apply Forall_true. intros d y [i Hi]. by eapply parseDevice_Ok.
Qed.

(** *** Constraints and affinities, as lists *)




(** *** Alias attributes *)

Lemma affinityAliased_LTarget m :
  affinityAliased m !! "LTarget" = Some (at_key m "attribute").
Proof.
  unfold affinityAliased. rewrite !alias_other by done.
  apply plainTargets_LTarget.
Qed.

Lemma affinityAliased_RTarget m :
  affinityAliased m !! "RTarget"
  = Some (match affinityAlias m with
          | Some (_, v) => v
          | None => at_key m "value"
          end).
Proof.
  unfold affinityAliased, affinityAlias, structs.ConstraintSetContains,
    structs.ConstraintSetContainsAll, structs.ConstraintSetContainsAny,
    structs.ConstraintRegex, structs.ConstraintVersion.
  rewrite !alias_target, !alias_other, !plainTargets_other by done.
  rewrite plainTargets_RTarget.
  by destruct (m !! "set_contains"), (m !! "set_contains_all"),
    (m !! "set_contains_any"), (m !! "regexp"), (m !! "version").
Qed.

Lemma affinityAliased_Operand m :
  affinityAliased m !! "Operand"
  = Some (match affinityAlias m with
          | Some (key, _) => VString key
          | None => at_key m "operator"
          end).
Proof.
  unfold affinityAliased, affinityAlias, structs.ConstraintSetContains,
    structs.ConstraintSetContainsAll, structs.ConstraintSetContainsAny,
    structs.ConstraintRegex, structs.ConstraintVersion.
  rewrite !alias_Operand, !alias_other, !plainTargets_other by done.
  rewrite plainTargets_Operand.
  by destruct (m !! "set_contains"), (m !! "set_contains_all"),
    (m !! "set_contains_any"), (m !! "regexp"), (m !! "version").
Qed.

Lemma affinityAlias_key m key v :
  affinityAlias m = Some (key, v) → key ≠ "".
Proof.
  unfold affinityAlias.
  destruct (m !! "set_contains"), (m !! "set_contains_all"),
    (m !! "set_contains_any"), (m !! "regexp"), (m !! "version");
    by intros [= <- _].
Qed.

(** X13.  In an accepted affinity entry the alias attributes are applied
    in the order [version], [regexp], [set_contains_any],
    [set_contains_all], [set_contains], so that the last one present gives
    the operand, which is its own name, and the right-target, which is its
    value, whatever [operator] and [value] say; without any of them the
    right-target is the plain [value].  The left-target is always the
    [attribute]. *)
Theorem X13_affinity_alias_order (o : ObjectItem) m a :
  DecodeObject (Val o) = Ok m → parseAffinity o = Ok a →
  (∀ key v, affinityAlias m = Some (key, VString v) →
            Affinity_Operand a = key ∧ Affinity_RTarget a = v) ∧
  (∀ v, affinityAlias m = None → m !! "value" = Some (VString v) →
        Affinity_RTarget a = v) ∧
  (∀ l, m !! "attribute" = Some (VString l) → Affinity_LTarget a = l).
Proof.
  intros Hd Ho. unfold parseAffinity in Ho.
  inv_as Ho u Hu. rewrite Hd in Ho. cbn [mbind result_bind] in Ho.
  fold (affinityAliased m) in Ho. inv_as Ho a0 Ha0. injection Ho as <-.
  unfold decodeAffinity in Ha0.
  rewrite (field_exact _ _ _ (affinityAliased_LTarget m)),
    (field_exact _ _ _ (affinityAliased_RTarget m)),
    (field_exact _ _ _ (affinityAliased_Operand m)) in Ha0.
  inv_as Ha0 l0 Hl0. inv_as Ha0 r0 Hr0. inv_as Ha0 op Hop.
  inv_as Ha0 w Hw. injection Ha0 as <-. cbn [Affinity_Operand].
  split; [|split].
  - intros key v Hkey. rewrite Hkey in Hr0, Hop.
    cbn in Hr0, Hop. injection Hr0 as <-. injection Hop as <-.
    rewrite bool_decide_false by (by eapply affinityAlias_key). done.
  - intros v Hnone Hv. rewrite Hnone in Hr0. unfold at_key in Hr0.
    rewrite Hv in Hr0. cbn in Hr0. injection Hr0 as <-.
    by case_bool_decide.
  - intros l Hl. unfold at_key in Hl0. rewrite Hl in Hl0. cbn in Hl0.
    injection Hl0 as <-. by case_bool_decide.
Qed.

(** X14.  A constraint entry with [distinct_property = "p"] that is not
    dropped yields the operand [distinct_property] and the left-target
    ["p"], whatever its [attribute], its [operator], its other alias
    attributes and an enabled [distinct_hosts] say. *)
Theorem X14_distinct_property (o : ObjectItem) m c p :
  DecodeObject (Val o) = Ok m → parseConstraint o = Ok (Some c) →
  m !! "distinct_property" = Some (VString p) →
  Operand c = "distinct_property" ∧ LTarget c = p.
Proof.
  intros Hd Ho Hp.
  assert (CheckHCLKeysNode (Val o) constraintKeys = Ok ()) as Hk.
  { unfold parseConstraint in Ho. fold constraintKeys in Ho.
    by destruct (CheckHCLKeysNode (Val o) constraintKeys) as [[]| |]. }
  rewrite (parseConstraint_decoded o m Hk Hd), distinctHosts_aliased in Ho.
  assert (∀ m', m' !! "distinct_property" = Some (VString p) →
     (c' ← decodeConstraint
             (alias structs.ConstraintDistinctProperty "LTarget" m');
      Ok (Some (defaultOperand c'))) = Ok (Some c) →
     Operand c = "distinct_property" ∧ LTarget c = p) as Hdec.
  { intros m' Hm' Hc. inv_as Hc c' Hc'. injection Hc as <-.
    unfold decodeConstraint in Hc'.
    unfold alias, structs.ConstraintDistinctProperty in Hc'.
    rewrite Hm' in Hc'.
    rewrite (field_exact _ "LTarget" (VString p)) in Hc'
      by apply lookup_insert_eq.
    rewrite (field_exact _ "Operand" (VString "distinct_property")) in Hc'
      by (rewrite lookup_insert_ne by done; apply lookup_insert_eq).
    inv_as Hc' l Hl. inv_as Hc' r Hr. inv_as Hc' op Hop.
    injection Hc' as <-. cbn in Hl, Hop.
    injection Hl as <-. injection Hop as <-.
    by rewrite defaultOperand_set. }
  destruct (m !! "distinct_hosts") as [v|] eqn:Hh.
  - destruct (parseBool v) as [[]| |]; try done.
    cbn [mbind result_bind] in Ho. apply (Hdec _) in Ho; [done|].
    rewrite lookup_insert_ne by done. by rewrite aliased_other.
  - cbn [mbind result_bind] in Ho. apply (Hdec _) in Ho; [done|].
    by rewrite aliased_other.
Qed.

(** *** Services and checks *)

Lemma check_restart_shape {A} (cro : ObjectList)
    (f : ObjectItem → result A) e (cr : option A) :
  when_present cro None
    (λ cro : ObjectList,
       if bool_decide (1 < length cro)%nat then Err e
       else cro0 ← index cro 0; Some <$> f cro0) = Ok cr →
  (length cro ≤ 1)%nat ∧ (cro = [] ↔ cr = None).
Proof.
  intros Hcr. apply when_present_Ok in Hcr as [[-> ->]|[Hne Hcr]].
  - split; [cbn; lia|done].
  - case_bool_decide as Hlen; [done|]. split; [lia|].
    inv_as Hcr cro0 Hcro0. inv_as Hcr x Hx. injection Hcr as <-.
    split; [done|]. intros [=].
Qed.

Lemma parseCheck_shape (co : ObjectItem) c :
  parseCheck co = Ok c → checkShape co c.
Proof.
  unfold parseCheck. intros Hc.
  inv_as Hc u Hu. inv_as Hc cm Hcm. inv_as Hc header Hheader.
  inv_as Hc check Hcheck.
  destruct (asObjectType (Val co)) as [body|] eqn:Hbody; [|done].
  apply asObjectType_Some in Hbody. inv_as Hc cr Hcr. injection Hc as <-.
  exists body. split; [done|]. cbn [Check_CheckRestart].
  exact (check_restart_shape _ _ _ _ Hcr).
Qed.

Lemma parseChecks_shape (checkObjs : ObjectList) cs :
  parseChecks checkObjs = Ok cs → Forall2 checkShape checkObjs cs.
Proof.
  unfold parseChecks. intros Hcs. apply traverse_Ok in Hcs.
  eapply Forall2_impl; [exact Hcs|]. intros co c. apply parseCheck_shape.
Qed.

Lemma parseService_shape idx (o : ObjectItem) s :
  parseService idx o = Ok s → serviceShape o s.
Proof.
  unfold parseService. intros Hs.
  inv_as Hs u Hu. inv_as Hs m Hm. inv_as Hs service Hservice.
  destruct (asObjectType (Val o)) as [body|] eqn:Hbody; [|done].
  apply asObjectType_Some in Hbody.
  inv_as Hs checks Hchecks. inv_as Hs cr Hcr. injection Hs as <-.
  exists body. split; [done|]. cbn [Checks Service_CheckRestart]. split.
  - apply when_present_Ok in Hchecks as [[-> ->]|[_ Hchecks]];
      [constructor|].
    apply Prefix_Ok in Hchecks. by apply parseChecks_shape.
  - exact (check_restart_shape _ _ _ _ Hcr).
Qed.

Lemma parseServices_shape jobName tg (serviceObjs : ObjectList) ss :
  parseServices jobName tg serviceObjs = Ok ss →
  Forall2 serviceShape serviceObjs ss.
Proof.
  unfold parseServices. intros Hss. apply traverse_Ok in Hss.
  apply (Forall2_imap_pair (λ i x y, parseService i x = Ok y)) in Hss.
  eapply Forall2_impl; [exact Hss|]. intros o s [i Hi].
  by eapply parseService_shape.
Qed.

Lemma parseTask_services jobName tg n (item : ObjectItem) t :
  parseTask jobName tg n item = Ok t →
  ∃ body,
    Val item = ObjectType body ∧
    when_present (Filter "service" body) []
      (λ o : ObjectList,
         Prefix (parseServices jobName tg o) ("'" +:+ n +:+ "',"))
    = Ok (Services t).
Proof.
  unfold parseTask. intros Ht.
  destruct (asObjectType (Val item)) as [body|] eqn:Hbody; [|done].
  apply asObjectType_Some in Hbody. exists body. split; [done|].
  repeat inv_ok Ht. by subst t.
Qed.

(** X15.  [parseServices] yields one service for each [service] block it
    is given, labelled or not, in the order of the blocks, and
    [parseChecks] one check for each [check] block; a service and a check
    have at most one [check_restart] block, and a restart policy exactly
    when they have one.  The services of an accepted task are those of its
    [service] blocks. *)
Theorem X15_services_and_checks :
  (∀ jobName tg (serviceObjs : ObjectList) ss,
     parseServices jobName tg serviceObjs = Ok ss →
     Forall2 serviceShape serviceObjs ss) ∧
  (∀ (checkObjs : ObjectList) cs,
     parseChecks checkObjs = Ok cs → Forall2 checkShape checkObjs cs) ∧
  (∀ jobName tg n (item : ObjectItem) t,
     parseTask jobName tg n item = Ok t →
     ∃ body, Val item = ObjectType body ∧
             Forall2 serviceShape (Filter "service" body) (Services t)).
Proof.
  split; [|split].
  - apply parseServices_shape.
  - apply parseChecks_shape.
  - intros jobName tg n item t Ht.
    apply parseTask_services in Ht as (body & Hbody & Hs).
    exists body. split; [done|].
    apply when_present_Ok in Hs as [[-> ->]|[_ Hs]]; [constructor|].
    apply Prefix_Ok in Hs. by eapply parseServices_shape.
Qed.

(** *** Headers of a check *)

Lemma headerValues_strings (ss : list string) :
  headerValues (Some (VList (VString <$> ss))) = ss.
Proof.
  cbn. induction ss as [|s ss IH]; [done|]. cbn. by rewrite IH.
Qed.

(** The values of one header name in one block: strings, appended to the
    values the name has so far. *)
Lemma header_values_loop k e (vs : list value)
    (hdr hdr' : gmap string (list string)) :
  foldM (λ (hdr : gmap string (list string)) vI,
           match vI with
           | VString v => Ok (<[k := default [] (hdr !! k) ++ [v]]> hdr)
           | _ => Err e
           end) hdr vs = Ok hdr' →
  ∃ ss, vs = VString <$> ss ∧
        (∀ k', k' ≠ k → hdr' !! k' = hdr !! k') ∧
        default [] (hdr' !! k) = default [] (hdr !! k) ++ ss ∧
        ((∀ l, hdr !! k = Some l → l ≠ []) →
         ∀ l, hdr' !! k = Some l → l ≠ []).
Proof.
  revert hdr. induction vs as [|vI vs IH]; intros hdr Hl.
  - injection Hl as <-. exists []. by rewrite app_nil_r.
  - cbn [foldM] in Hl. destruct vI as [|v| | | | | |]; try done.
    cbn [mbind result_bind] in Hl.
    apply IH in Hl as (ss & -> & Hother & Hk & Hne).
    exists (v :: ss). split; [done|]. split; [|split].
    + intros k' Hk'. rewrite Hother by done. by rewrite lookup_insert_ne.
    + rewrite Hk, lookup_insert_eq. cbn. by rewrite <- app_assoc.
    + intros _. apply Hne. intros l. rewrite lookup_insert_eq.
      intros [= <-]. by destruct (default [] (hdr !! k)).
Qed.

(** One [header] block, name by name. *)
Lemma header_block_loop (l : list (string * value))
    (hdr hdr' : gmap string (list string)) :
  NoDup l.*1 →
  foldM (λ (hdr : gmap string (list string)) (kv : string * value),
           match kv.2 with
           | VList vs =>
               foldM (λ (hdr : gmap string (list string)) vI,
                        match vI with
                        | VString v =>
                            Ok (<[kv.1 := default [] (hdr !! kv.1) ++ [v]]>
                                  hdr)
                        | _ => Err ("check -> header -> " +:+ kv.1
                                    +:+ " expected a string")
                        end) hdr vs
           | _ => Err ("check -> header -> " +:+ kv.1
                       +:+ " expected a []string")
           end) hdr l = Ok hdr' →
  Forall (λ kv, ∃ ss, kv.2 = VList (VString <$> ss)) l ∧
  (∀ k v, (k, v) ∈ l →
          default [] (hdr' !! k)
          = default [] (hdr !! k) ++ headerValues (Some v)) ∧
  (∀ k, k ∉ l.*1 → hdr' !! k = hdr !! k) ∧
  ((∀ k ss, hdr !! k = Some ss → ss ≠ []) →
   ∀ k ss, hdr' !! k = Some ss → ss ≠ []).
Proof.
  revert hdr. induction l as [|[k v] l IH]; intros hdr Hnd Hl.
  - injection Hl as <-. repeat split; try done; try constructor.
    intros k v Hin. by apply elem_of_nil in Hin.
  - cbn [foldM] in Hl. inv_as Hl hdr1 Hhdr1. cbn [fst snd] in Hhdr1.
    destruct v as [| | | | |vs| |]; try done.
    apply header_values_loop in Hhdr1 as (ss & -> & Hother & Hk & Hne).
    rewrite fmap_cons in Hnd. apply NoDup_cons in Hnd as [Hfresh Hnd].
    cbn [fst] in Hfresh.
    apply IH in Hl as (Hall & Hin & Hout & Hne'); [|done].
    split; [|split; [|split]].
    + constructor; [by exists ss|done].
    + intros k' v' Hkv. apply elem_of_cons in Hkv as [[= -> ->]|Hkv].
      * rewrite Hout by done. by rewrite Hk, headerValues_strings.
      * rewrite (Hin _ _ Hkv). rewrite Hother; [done|].
        intros ->. apply Hfresh. apply list_elem_of_fmap.
        by exists (k, v').
    + intros k' Hk'. rewrite fmap_cons in Hk'. cbn [fst] in Hk'.
      apply not_elem_of_cons in Hk' as [Hne1 Hk'].
      rewrite Hout by done. by apply Hother.
    + intros Hhdr. apply Hne'. intros k' l'.
      destruct (decide (k' = k)) as [->|Hkk].
      * apply Hne. apply Hhdr.
      * rewrite Hother by done. apply Hhdr.
Qed.

(** The merge of the [header] blocks of a check. *)
Lemma mergeHeader_loop (headerRaw : list (gmap string value))
    (hdr hdr' : gmap string (list string)) :
  foldM (λ (hdr : gmap string (list string)) (rawm : gmap string value),
    foldM (λ (hdr : gmap string (list string)) (kv : string * value),
      match kv.2 with
      | VList vs =>
          foldM (λ (hdr : gmap string (list string)) vI,
            match vI with
            | VString v =>
                Ok (<[kv.1 := default [] (hdr !! kv.1) ++ [v]]> hdr)
            | _ => Err ("check -> header -> " +:+ kv.1
                        +:+ " expected a string")
            end) hdr vs
      | _ => Err ("check -> header -> " +:+ kv.1 +:+ " expected a []string")
      end) hdr (map_to_list rawm)) hdr headerRaw = Ok hdr' →
  Forall (map_Forall (λ _ v, ∃ ss, v = VList (VString <$> ss))) headerRaw ∧
  (∀ k, default [] (hdr' !! k)
        = default [] (hdr !! k)
          ++ concat ((λ rawm, headerValues (rawm !! k)) <$> headerRaw)) ∧
  ((∀ k ss, hdr !! k = Some ss → ss ≠ []) →
   ∀ k ss, hdr' !! k = Some ss → ss ≠ []).
Proof.
  revert hdr. induction headerRaw as [|rawm hs IH]; intros hdr Hl.
  - injection Hl as <-. cbn. split; [constructor|].
    split; [|done]. intros k. by rewrite app_nil_r.
  - cbn [foldM] in Hl. inv_as Hl hdr1 Hhdr1.
    apply header_block_loop in Hhdr1 as (Hall & Hin & Hout & Hne);
      [|apply NoDup_fst_map_to_list].
    apply IH in Hl as (Hall' & Hk & Hne').
    split; [|split].
    + constructor; [|done]. intros k v Hkv.
      apply elem_of_map_to_list in Hkv.
      rewrite Forall_forall in Hall. apply (Hall (k, v) Hkv).
    + intros k. rewrite Hk, fmap_cons. cbn [concat].
      rewrite app_assoc. f_equal.
      destruct (rawm !! k) as [v|] eqn:Hv.
      * apply elem_of_map_to_list in Hv. by apply Hin.
      * rewrite Hout; [by rewrite app_nil_r|].
        intros Hk'. apply list_elem_of_fmap in Hk' as ([k' v'] & -> & Hk').
        apply elem_of_map_to_list in Hk'. cbn in Hv. congruence.
    + intros Hhdr. by apply Hne', Hne.
Qed.

(** X16.  The [header] blocks of an accepted check are merged into one
    map: the values of a header name are the values it has in each block,
    concatenated in the order of the blocks; every value of every block is
    a list of strings, and no name of the merged map is left without a
    value.  A check without a [header] entry has no header map. *)
Theorem X16_check_headers (co : ObjectItem) cm c :
  DecodeObject (Val co) = Ok cm → parseCheck co = Ok c →
  (cm !! "header" = None → Header c = None) ∧
  (∀ v, cm !! "header" = Some v →
     ∃ headerRaw h,
       v = VMaps headerRaw ∧ Header c = Some h ∧
       mergeHeader headerRaw = Ok h ∧
       Forall (map_Forall (λ _ v, ∃ ss, v = VList (VString <$> ss)))
         headerRaw ∧
       (∀ k, default [] (h !! k)
             = concat ((λ rawm, headerValues (rawm !! k)) <$> headerRaw)) ∧
       (∀ k ss, h !! k = Some ss → ss ≠ [])).
Proof.
  intros Hd Hc. unfold parseCheck in Hc.
  inv_as Hc u Hu. rewrite Hd in Hc. cbn [mbind result_bind] in Hc.
  inv_as Hc header Hheader. inv_as Hc check Hcheck.
  destruct (asObjectType (Val co)) as [body|]; [|done].
  inv_as Hc cr Hcr. injection Hc as <-. cbn [Header].
  split.
  - intros Hnone. rewrite Hnone in Hheader. by injection Hheader as <-.
  - intros v Hv. rewrite Hv in Hheader.
    destruct v as [| | | | | | |headerRaw]; try done.
    inv_as Hheader h Hh. injection Hheader as <-.
    exists headerRaw, h. split; [done|]. split; [done|]. split; [done|].
    unfold mergeHeader in Hh.
    apply mergeHeader_loop in Hh as (Hall & Hk & Hne).
    split; [done|]. split.
    + intros k. by rewrite Hk, lookup_empty.
    + apply Hne. intros k ss. by rewrite lookup_empty.
Qed.

(** *** Booleans *)

(** X17.  [parseBool] never panics, and it converts exactly a boolean and
    the strings that [strconv.ParseBool] reads: a number is not converted.
    In a [periodic] block that has passed the whitelist, an [enabled]
    value that converts is handed to the decoder as that boolean, and one
    that does not makes [parsePeriodic] fail. *)
Theorem X17_boolean_values :
  (∀ v b, parseBool v = Ok b ↔
          v = VBool b ∨
          ∃ s, v = VString s ∧
               s ∈ (if b then ["1"; "t"; "T"; "TRUE"; "true"; "True"]
                    else ["0"; "f"; "F"; "FALSE"; "false"; "False"])) ∧
  (∀ v, parseBool v ≠ Panic) ∧
  (∀ (items : ObjectList) (o : ObjectItem) m v,
     Elem items = [o] → DecodeObject (Val o) = Ok m →
     CheckHCLKeysNode (Val o) periodicKeys = Ok () →
     m !! "enabled" = Some v →
     (∀ b, parseBool v = Ok b →
        ∃ m', parsePeriodic items = decodePeriodicConfig m' ∧
              m' !! "Enabled" = Some (VBool b) ∧
              m' !! "enabled" = Some v) ∧
     ((∀ b, parseBool v ≠ Ok b) →
        ∃ e, parsePeriodic items
             = Err ("periodic.enabled should be set to true or false; "
                    +:+ e))).
Proof.
  split; [|split].
  - intros v b. split.
    + destruct v as [|s| | |b'| | |]; cbn; try done.
      * unfold ParseBool. intros Hs. right. exists s. split; [done|].
        repeat case_bool_decide; try done; by injection Hs as <-.
      * intros [= ->]. by left.
    + intros [->|(s & -> & Hs)]; [done|]. cbn. unfold ParseBool.
      destruct b.
      * by rewrite bool_decide_true.
      * rewrite bool_decide_false, bool_decide_true; [done..|].
        set_unfold. naive_solver.
  - apply parseBool_no_panic.
  - intros items o m v He Hd Hk Hv.
    assert (parsePeriodic items
            = m1 ← match parseBool v with
                   | Ok enabled => Ok (<["Enabled" := VBool enabled]> m)
                   | Err e =>
                       Err ("periodic.enabled should be set to true or "
                            +:+ "false; " +:+ e)
                   | Panic => Panic
                   end;
              decodePeriodicConfig
                match m1 !! "cron" with
                | Some cron =>
                    <["Spec" := cron]>
                      (<["SpecType" := VString structs.PeriodicSpecCron]> m1)
                | None => m1
                end) as Hp.
    { unfold parsePeriodic. rewrite He. cbn [length].
      rewrite bool_decide_false by lia.
      cbn [index lookup list_lookup mbind result_bind].
      rewrite Hd. cbn [mbind result_bind]. fold periodicKeys.
      rewrite Hk. cbn [mbind result_bind]. by rewrite Hv. }
    split.
    + intros b Hb. rewrite Hb in Hp. cbn [mbind result_bind] in Hp.
      eexists. split; [exact Hp|].
      destruct (_ !! "cron");
        (split; [rewrite ?lookup_insert_ne by done; apply lookup_insert_eq
                |by rewrite ?lookup_insert_ne by done]).
    + intros Hb.
      destruct (parseBool v) as [b|e|] eqn:Hpb.
      * by destruct (Hb b).
      * exists e. by rewrite Hp.
      * by destruct (parseBool_no_panic v).
Qed.

(** *** A job without a vault block *)

(** X18.  When the job block has no [vault] block, the vaults of the
    tasks are left as the tasks and the groups resolve them: a task with a
    [vault] block of its own has the vault of that block, a task without
    one in a group with a [vault] block has the vault of the group, and
    every other task has none. *)
Theorem X18_no_job_vault (items : ObjectList) job (obj : ObjectItem)
    (body : ObjectList) :
  parseJob items = Ok job →
  Children items = [obj] → Val obj = ObjectType body →
  Filter "vault" body = [] →
  ∃ bare groups,
    TaskGroups job = bare ++ groups ∧
    Forall2 (bareTaskVault None) (Children (Filter "task" body)) bare ∧
    Forall2 (groupVault None) (Children (Filter "group" body)) groups.
Proof.
  unfold parseJob. intros Hj Hobj Hbody Hvault.
  inv_as Hj rl Hhead. destruct rl as [result listVal]. cbn [fst snd] in Hj.
  apply parseJobHead_Ok in Hhead as (obj' & Hobj' & Hbody' & _).
  rewrite Hobj in Hobj'. injection Hobj' as <-.
  rewrite Hbody in Hbody'. injection Hbody' as <-.
  inv_as Hj jobName HjobName. inv_as Hj bare Hbare. inv_as Hj tgs Htgs.
  rewrite Hvault, when_present_nil in Hj. cbn [mbind result_bind] in Hj.
  injection Hj as <-. cbn [TaskGroups Job_set_TaskGroups].
  assert (Forall2 (bareTaskVault None) (Children (Filter "task" body)) bare)
    as Hb.
  { apply when_present_Ok in Hbare as [[Hnil ->]|[_ Hbare]].
    - rewrite Hnil. constructor.
    - by apply parseJobTasks_vault in Hbare. }
  assert (∃ gs, tgs = bare ++ gs ∧
                Forall2 (groupVault None) (Children (Filter "group" body)) gs)
    as (gs & -> & Hg).
  { apply when_present_Ok in Htgs as [[Hnil ->]|[_ Htgs]].
    - exists []. rewrite Hnil, app_nil_r. split; [done|constructor].
    - inv_ok Htgs. injection Htgs as <-. by eapply parseGroups_vault. }
  by exists bare, gs.
Qed.

(** *** Spreads, artifacts and templates *)



End properties.
End properties.

(** ** Worked examples

    The properties at concrete documents, under the reference instance. *)
Module worked.
Import jobspec reference documents statements properties.

(** C1 at [cascadeJob]: task [a] has no vault block and gets the job-level
    vault, task [b] keeps its own. *)
Lemma C1_witness :
  ∃ job,
    parseJob (Filter "job" cascadeJob) = Ok job ∧
    Children (Filter "job" cascadeJob)
    = [mkItem ["j"] (ObjectType cascadeBody)] ∧
    Filter "vault" cascadeBody ≠ [] ∧
    ∃ jobVault bare groups,
      parseVault defaultVault (Filter "vault" cascadeBody) = Ok jobVault ∧
      TaskGroups job = bare ++ groups ∧
      Forall2 (bareTaskVault (Some jobVault))
        (Children (Filter "task" cascadeBody)) bare ∧
      Forall2 (groupVault (Some jobVault))
        (Children (Filter "group" cascadeBody)) groups ∧
      (∀ o m, Elem (Filter "vault" cascadeBody) = [o] →
              DecodeObject (Val o) = Ok m →
              (field m "Env" = None → Env jobVault = Some true) ∧
              (field m "change_mode" = None →
               ChangeMode jobVault = Some "restart")).
Proof.
  eexists. split; [reflexivity|]. split; [reflexivity|].
  split; [intros Hnil; discriminate Hnil|].
  apply (C1_vault_cascade (Filter "job" cascadeJob) _
           (mkItem ["j"] (ObjectType cascadeBody)) cascadeBody);
    [reflexivity | reflexivity | reflexivity | ].
  intros Hnil; discriminate Hnil.
Defined.

(** The outcome on [cascadeJob], in full. *)
Example cascadeJob_outcome :
  Parse cascadeJob
  = Ok (mkJob None None (Some "j") (Some "j") None None None [] [] []
          [mkTaskGroup (Some "g") None [] []
             [mkTask "a" "d" "" ∅ [] [] ∅ [] None ∅ None None []
                (Some (mkVault ["p"] (Some true) (Some "restart") None))
                [] None false 0 "";
              mkTask "b" "d" "" ∅ [] [] ∅ [] None ∅ None None []
                (Some (mkVault [] (Some false) (Some "restart") None))
                [] None false 0 ""]
             [] None None None None None ∅]
          None [] None None None None ∅ None).
Proof. reflexivity. Qed.

(** C2 at [sameNameJob]: the job is accepted with two task groups named
    [a], the one synthesized around the bare task and the one of the
    [group] block. *)
Theorem C2_same_name_accepted :
  ∃ job,
    Parse sameNameJob = Ok job ∧
    TaskGroup_Name <$> TaskGroups job = [Some "a"; Some "a"].
Proof. eexists. split; reflexivity. Qed.

(** Two [group] blocks of the same name are rejected. *)
Example twoGroupsJob_rejected :
  Parse twoGroupsJob
  = Err "error parsing 'job': group: group 'a' defined more than once".
Proof. reflexivity. Qed.

(** C3 as stated fails at [hostsWithValue]: with [distinct_hosts = true]
    the plain value is not ignored, it is the right-target. *)
Lemma C3_counterexample :
  ∃ c, parseConstraints [] [hostsWithValue] = Ok [c] ∧
       Operand c = "distinct_hosts" ∧ RTarget c = "x" ∧ RTarget c ≠ "".
Proof. eexists. repeat split; [reflexivity..|discriminate]. Qed.

(** With a [distinct_property] next to [distinct_hosts = true], the operand
    is the one of the property. *)
Example hostsWithProperty_outcome :
  parseConstraints [] [hostsWithProperty]
  = Ok [mkConstraint "rack" "" "distinct_property"].
Proof. reflexivity. Qed.

(** C3 (as amended) at [hostsDisabled], [hostsWithValue] and
    [hostsMaybe]. *)
Lemma C3_witness :
  parseConstraint hostsDisabled = Ok None ∧
  parseConstraint hostsWithValue
  = Ok (Some (mkConstraint "" "x" "distinct_hosts")) ∧
  ∃ e, parseConstraint hostsMaybe
       = Err ("distinct_hosts should be set to true or false; " +:+ e).
Proof.
  split; [|split].
  - edestruct (C3_distinct_hosts hostsDisabled) as [Hfalse _];
      [reflexivity..|].
    by apply Hfalse.
  - edestruct (C3_distinct_hosts hostsWithValue) as (_ & Htrue & _);
      [reflexivity..|].
    destruct (Htrue eq_refl eq_refl) as [-> _]. reflexivity.
  - edestruct (C3_distinct_hosts hostsMaybe) as (_ & _ & Hneither);
      [reflexivity..|].
    apply Hneither. intros b Hb. discriminate Hb.
Defined.

(** C4 as stated fails at [versionAndRegexp]: the entry provides
    [version], and the operand is [regexp]. *)
Lemma C4_counterexample :
  ∃ c, parseConstraints [] [versionAndRegexp] = Ok [c] ∧
       Operand c = "regexp" ∧ RTarget c = "a.*" ∧ Operand c ≠ "version".
Proof. eexists. repeat split; [reflexivity..|discriminate]. Qed.

(** Each of the other aliases wins over [version] as well, and a disabled
    [distinct_hosts] drops the entry. *)
Example version_overridden :
  parseConstraints [] [versionAndSetContains]
  = Ok [mkConstraint "" "a,b" "set_contains"] ∧
  parseConstraints [] [versionAndHosts]
  = Ok [mkConstraint "" "1.0" "distinct_hosts"] ∧
  parseConstraints [] [versionAndNoHosts] = Ok [] ∧
  parseConstraints [] [versionAndProperty]
  = Ok [mkConstraint "rack" "1.0" "distinct_property"].
Proof. repeat split; reflexivity. Qed.

(** C4 (as amended) at [versionOverPlain] and [plainEntry]. *)
Lemma C4_witness :
  parseConstraint versionOverPlain
  = Ok (Some (mkConstraint "a" "1.0" "version")) ∧
  (∀ c, parseConstraint plainEntry = Ok (Some c) → Operand c = "=") ∧
  (∀ a, parseAffinity plainEntry = Ok a → Affinity_Operand a = "=").
Proof.
  destruct C4_version_alias_and_default_operand
    as (Hversion & _ & Hdefault & _ & Hdefault').
  split; [|split].
  - eapply (Hversion versionOverPlain); reflexivity.
  - intros c. eapply (Hdefault plainEntry); reflexivity.
  - intros a. eapply (Hdefault' plainEntry); reflexivity.
Defined.

(** C5 at [twoPorts]: [http] is reserved, [db] is dynamic. *)
Lemma C5_witness :
  parsePorts twoPorts (mkNetworkResource (Some 10) [] [])
  = Ok (mkNetworkResource (Some 10) [mkPort "http" 80] [mkPort "db" 0]) ∧
  ∃ ps,
    Forall2 declares (Filter "port" twoPorts) ps ∧
    [mkPort "http" 80] = [] ++ filter (λ p, 0 < Value p) ps ∧
    [mkPort "db" 0] = [] ++ filter (λ p, Value p ≤ 0) ps ∧
    NoDup (foldedLabel <$> ps).
Proof.
  split; [reflexivity|].
  edestruct (C5_ports_split twoPorts (mkNetworkResource (Some 10) [] []))
    as (ps & Hdecl & Hres & Hdyn & Hnodup & _); [reflexivity|].
  by exists ps.
Defined.

(** C6 at [badLabelPort] and [collidingPorts]. *)
Lemma C6_witness :
  parsePorts badLabelPort (mkNetworkResource None [] []) = Err errPortLabel ∧
  parsePorts collidingPorts (mkNetworkResource None [] [])
  = Err "found a port label collision: web".
Proof.
  split.
  - destruct (C6_port_labels badLabelPort (mkNetworkResource None [] []))
      as [Hlabel _].
    edestruct (Hlabel [] [] (block ["my-port"] []) "my-port" [])
      as [_ Hfirst]; [reflexivity..|].
    eapply Hfirst; reflexivity.
  - destruct (C6_port_labels collidingPorts (mkNetworkResource None [] []))
      as [_ Hdup].
    edestruct (Hdup [] [] [] (block ["Web"] []) (block ["web"] [])
                 "Web" [] "web" []) as [_ Hfirst]; [reflexivity..|].
    eapply Hfirst; reflexivity.
Defined.

(** C7.  The minimal job: an id, one bare task with a driver and an empty
    [config] block.  The job is named after its id, its only task group is
    the group synthesized around the task, named after it, and every
    optional part (update, periodic, reschedule, migrate, parameterized,
    the vault of the task) is absent or empty. *)
Theorem C7_minimal_job (id t driver : string) :
  Parse (minimalJob id t driver) = Ok (minimalSpec id t driver).
Proof. reflexivity. Qed.

(** C8 at [bogusTask], bare under the job and in the group [web]. *)
Lemma C8_witness :
  ∃ k', firstUnknown bogusBody taskKeys k' ∧
    parseJob (Filter "job" bogusBareJob)
    = Err (under "task:" (under "'api' ->" (invalidKey k'))) ∧
    parseJob (Filter "job" bogusGroupJob)
    = Err (under "group:"
             (under "'web', task:" (under "'api' ->" (invalidKey k')))).
Proof.
  edestruct (C8_unknown_task_key "api" [] bogusTask bogusBody "bogus_field")
    as (k' & Hfirst & _ & Hbare & Hgroup); [reflexivity..| | |].
  { apply list_elem_of_In. cbn. auto. }
  { intros Hin. apply list_elem_of_In in Hin. cbn in Hin.
    repeat destruct Hin as [Hin|Hin]; try discriminate Hin. done. }
  exists k'. split; [done|]. split.
  - eapply (Hbare (Filter "job" bogusBareJob) _ _ [] []);
      [reflexivity..|set_solver].
  - edestruct Hgroup
      with (jobName := "j") (gn := "web") (gitem := bogusGroup)
           (pre := @nil ObjectItem) (post := @nil ObjectItem)
      as [_ Hjob]; [reflexivity..|set_solver|].
    eapply (Hjob (Filter "job" bogusGroupJob) _ _ [] []);
      [reflexivity..|set_solver].
Defined.

(** The same outcomes, in full. *)
Example bogusBareJob_outcome :
  Parse bogusBareJob
  = Err "error parsing 'job': task: 'api' -> invalid key: bogus_field".
Proof. reflexivity. Qed.

Example bogusGroupJob_outcome :
  Parse bogusGroupJob
  = Err "error parsing 'job': group: 'web', task: 'api' -> invalid key: bogus_field".
Proof. reflexivity. Qed.

(** C9 at [labelledBlock], and at the job [labelledUpdateJob]. *)
Lemma C9_witness :
  Elem labelledBlock = [] ∧
  parseUpdate labelledBlock = Panic ∧
  parsePeriodic labelledBlock = Panic ∧
  parseRestartPolicy labelledBlock = Panic ∧
  is_Ok (parseJob (Filter "job" labelledUpdateJob)) = false.
Proof.
  split; [reflexivity|].
  edestruct (C9_labelled_policy_block_panics
               (Filter "update" labelledUpdateBody))
    as ((Hrs & _ & _ & Hup & _ & Hpe & _) & Hjob & _); [reflexivity|].
  split; [exact Hup|]. split; [exact Hpe|]. split; [exact Hrs|].
  eapply (Hjob (Filter "job" labelledUpdateJob) _ labelledUpdateBody "update");
    [reflexivity| reflexivity| | reflexivity |].
  - apply list_elem_of_In. cbn. auto.
  - intros Hnil. discriminate Hnil.
Defined.

(** The whole transform panics on [job "j" { update "x" {} }]. *)
Example labelledUpdateJob_outcome : Parse labelledUpdateJob = Panic.
Proof. reflexivity. Qed.

(** C10 at [labelledBlock] and [labelledVaultTask]: the policies of the
    labelled block are not in the vault of the task. *)
Lemma C10_witness :
  Elem labelledBlock = [] ∧
  parseVault defaultVault labelledBlock = Ok defaultVault ∧
  ∃ t, parseTask "j" "a" "a" labelledVaultTask = Ok t ∧
       Task_Vault t = Some defaultVault.
Proof.
  split; [reflexivity|].
  edestruct (C10_labelled_vault_block defaultVault labelledBlock)
    as (Hvault & Htask & _); [reflexivity|].
  split; [done|]. eexists. split; [reflexivity|].
  eapply (Htask "j" "a" "a" labelledVaultTask); [reflexivity..| |reflexivity].
  intros Hnil; discriminate Hnil.
Defined.

(** X1 at the empty document, [twoJobs] and [unnamedJob]. *)
Lemma X1_witness :
  Parse [] = Err "'job' stanza not found" ∧
  Parse twoJobs = Err "error parsing 'job': only one 'job' block allowed" ∧
  Parse unnamedJob = Err "error parsing 'job': 'job' block missing name" ∧
  (Parse cascadeJob = Ok cascadeSpec ↔
   parseJob (Filter "job" cascadeJob) = Ok cascadeSpec).
Proof.
  split; [|split; [|split]].
  - edestruct (X1_Parse_job_blocks []) as (Hnone & _); [reflexivity|].
    apply Hnone. reflexivity.
  - edestruct (X1_Parse_job_blocks twoJobs) as (_ & Htwo & _);
      [reflexivity|].
    apply Htwo. exact (le_n 2).
  - edestruct (X1_Parse_job_blocks unnamedJob) as (_ & _ & Hname & _);
      [reflexivity|].
    eapply Hname; reflexivity.
  - edestruct (X1_Parse_job_blocks cascadeJob) as (_ & _ & _ & Hjob);
      [reflexivity|].
    apply Hjob.
Defined.

(** X2 at [sameNameJob]. *)
Lemma X2_witness :
  ∃ job,
    parseJob (Filter "job" sameNameJob) = Ok job ∧
    ∃ (obj : ObjectItem) (body : ObjectList) (tasks : list Task)
      (groups : list TaskGroup),
      Filter "job" sameNameJob = [obj] ∧ Keys obj ≠ [] ∧
      Val obj = ObjectType body ∧
      is_Some (ID job) ∧ is_Some (Name job) ∧
      TaskGroups job = (taskGroupOf <$> tasks) ++ groups ∧
      length tasks = length (Children (Filter "task" body)) ∧
      Forall2 groupShape (Children (Filter "group" body)) groups.
Proof.
  eexists. split; [reflexivity|].
  apply X2_task_groups_layout. reflexivity.
Defined.

(** X3 at [twoGroups], the [group] blocks of [twoGroupsJob], and at the
    one group of [cascadeJob]. *)
Lemma X3_witness :
  parseGroups "j" [] twoGroups = Err "group 'a' defined more than once" ∧
  is_Ok (parseJob (Filter "job" twoGroupsJob)) = false ∧
  NoDup (groupLabel <$> Children (Filter "group" cascadeBody)).
Proof.
  destruct (X3_group_labels_unique "j" [] twoGroups) as [_ Hdup].
  edestruct (Hdup [] [] []
               (block ["a"]
                  [block ["task"; "b"] [attr "driver" (LString "d")]])
               (block ["a"]
                  [block ["task"; "c"] [attr "driver" (LString "d")]])
               "a" [] []) as (_ & Herr & Hjob); [reflexivity..|].
  split; [|split].
  - eapply Herr. reflexivity.
  - eapply (Hjob (Filter "job" twoGroupsJob)); reflexivity.
  - destruct (X3_group_labels_unique "j" [] (Filter "group" cascadeBody))
      as [Hnd _].
    eapply Hnd. reflexivity.
Defined.


(** X5 at [unlabelledTask]: the block is dropped, whatever it holds. *)
Lemma X5_witness :
  parseTasks "j" "g" [] (twoTasks ++ unlabelledTask :: caseTasks)
  = parseTasks "j" "g" [] (twoTasks ++ caseTasks) ∧
  parseTasks "j" "g" [] [unlabelledTask] = Ok [] ∧
  parseGroups "j" [] [unlabelledTask] = Ok [].
Proof.
  destruct (X5_unlabelled_blocks_dropped "j" "g" [] []) as [Hskip Hnone].
  split.
  - edestruct (Hskip twoTasks caseTasks unlabelledTask) as [Htasks _];
      [reflexivity|].
    exact Htasks.
  - apply (Hnone [unlabelledTask]). constructor; [reflexivity|constructor].
Defined.

(** A job whose only [task] block has no label is accepted without any
    task group. *)
Example unlabelledTaskJob_outcome :
  Parse unlabelledTaskJob
  = Ok (mkJob None None (Some "j") (Some "j") None None None [] [] [] []
          None [] None None None None ∅ None).
Proof. reflexivity. Qed.

(** X6 at [labelledConstraint]: the block is skipped, whatever it holds. *)
Lemma X6_witness :
  parseConstraints [] [plainEntry; labelledConstraint]
  = parseConstraints [] [plainEntry] ∧
  parseConstraints [] [labelledConstraint] = Ok [] ∧
  parseAffinities [] [labelledConstraint] = Ok [] ∧
  parseTemplates [] [labelledConstraint] = Ok [].
Proof.
  destruct X6_labelled_blocks_skipped as [Hskip Hnone].
  split.
  - edestruct (Hskip [plainEntry] [] labelledConstraint)
      as (Hc & _); [intros Hnil; discriminate Hnil|].
    apply Hc.
  - edestruct (Hnone [labelledConstraint]) as (Hc & Ha & _ & _ & Ht & _);
      [reflexivity|].
    split; [apply Hc|]. split; [apply Ha|apply Ht].
Defined.

(** A job with a labelled [constraint] block of unknown content is
    accepted without any constraint. *)
Example labelledConstraintJob_outcome :
  Parse labelledConstraintJob
  = Ok (mkJob None None (Some "j") (Some "j") None None None [] [] [] []
          None [] None None None None ∅ None).
Proof. reflexivity. Qed.

(** X7 at [labelledOptionsArtifact]. *)
Lemma X7_witness :
  parseArtifactOption ∅ (Filter "options" labelledOptionsBody) = Panic ∧
  parseArtifacts [] [labelledOptionsArtifact] = Panic.
Proof.
  edestruct (X7_labelled_options_panic
               (Filter "options" labelledOptionsBody))
    as (Hpanic & _ & Hfirst); [reflexivity|].
  split; [apply Hpanic|].
  eapply (Hfirst [] [] labelledOptionsArtifact labelledOptionsBody);
    [reflexivity | reflexivity | reflexivity | | reflexivity
    | reflexivity | reflexivity].
  intros Hnil. discriminate Hnil.
Defined.

(** X8 at [twoBlocks], and at the job [twoUpdatesJob]. *)
Lemma X8_witness :
  parseUpdate twoBlocks = Err "only one 'update' block allowed" ∧
  parseVault defaultVault twoBlocks
  = Err "only one 'vault' block allowed per task" ∧
  is_Ok (parseJob (Filter "job" twoUpdatesJob)) = false.
Proof.
  edestruct (X8_duplicate_singleton_blocks
               (Filter "update" twoUpdatesBody))
    as ((_ & _ & _ & Hup & _ & _ & _ & Hvault & _) & Hjob & _);
    [exact (le_n 2)|].
  split; [exact Hup|]. split; [apply Hvault|].
  eapply (Hjob (Filter "job" twoUpdatesJob) _ twoUpdatesBody "update");
    [reflexivity | reflexivity | | reflexivity].
  apply list_elem_of_In. cbn. auto.
Defined.

(** The outcome on [job "j" { update {}  update {} }], in full. *)
Example twoUpdatesJob_outcome :
  Parse twoUpdatesJob
  = Err "error parsing 'job': update -> only one 'update' block allowed".
Proof. reflexivity. Qed.


(** X10 at [twoPorts] and [unnamedPort]. *)
Lemma X10_witness :
  (∃ nw, parsePorts twoPorts (mkNetworkResource (Some 10) [] []) = Ok nw ∧
         MBits nw = Some 10) ∧
  parsePorts unnamedPort (mkNetworkResource None [] [])
  = Err "ports must be named".
Proof.
  split.
  - destruct (X10_ports_named twoPorts (mkNetworkResource (Some 10) [] []))
      as [Hok _].
    eexists. split; [reflexivity|].
    edestruct Hok as [Hmb _]; [reflexivity|]. exact Hmb.
  - destruct (X10_ports_named unnamedPort (mkNetworkResource None [] []))
      as [_ Hbad].
    edestruct (Hbad [] [] (block [] [])) as [_ Herr]; [reflexivity..|].
    eapply Herr; reflexivity.
Defined.

(** X11 at [resourcesBlock], and at a labelled block. *)
Lemma X11_witness :
  parseResources (mkResources None None None None [] []) [labelledConstraint]
  = Ok (mkResources None None None None [] []) ∧
  ∃ r, parseResources (mkResources None None None None [] []) resourcesBlock
       = Ok r ∧
       length (Networks r) = 1%nat ∧ length (Devices r) = 1%nat.
Proof.
  split.
  - destruct (X11_resources_layout (mkResources None None None None [] [])
                [labelledConstraint]) as [Hnone _].
    apply Hnone. reflexivity.
  - destruct (X11_resources_layout (mkResources None None None None [] [])
                resourcesBlock) as [_ Hok].
    eexists. split; [reflexivity|].
    edestruct Hok as (o & body & Ho & Hbody & _ & Hnet & _ & Hdev);
      [reflexivity | intros Hnil; discriminate Hnil |].
    injection Ho as <-. injection Hbody as <-.
    split.
    + destruct Hnet as (o0 & networkObj & mbits & n & _ & _ & _ & Hn);
        [intros Hnil; discriminate Hnil|].
      by rewrite Hn.
    + destruct Hdev as [Hlen _]; [intros Hnil; discriminate Hnil|].
      exact Hlen.
Defined.


Example threeConstraints_outcome :
  parseConstraints [] threeConstraints = Ok [mkConstraint "a" "3" "="].
Proof. reflexivity. Qed.

(** X13 at [affinityEntry]: [set_contains] wins over [version] and over
    the plain operator and value. *)
Lemma X13_witness :
  ∃ a, parseAffinity affinityEntry = Ok a ∧
       Affinity_Operand a = "set_contains" ∧ Affinity_RTarget a = "x,y" ∧
       Affinity_LTarget a = "a".
Proof.
  eexists. split; [reflexivity|].
  edestruct (X13_affinity_alias_order affinityEntry) as (Halias & _ & Hl);
    [reflexivity | reflexivity |].
  destruct (Halias "set_contains" "x,y") as [Hop Hr]; [reflexivity|].
  split; [exact Hop|]. split; [exact Hr|].
  apply Hl. reflexivity.
Defined.

(** X14 at [hostsWithProperty]. *)
Lemma X14_witness :
  ∃ c, parseConstraint hostsWithProperty = Ok (Some c) ∧
       Operand c = "distinct_property" ∧ LTarget c = "rack".
Proof.
  eexists. split; [reflexivity|].
  eapply (X14_distinct_property hostsWithProperty); reflexivity.
Defined.

(** X15 at [serviceBlock]. *)
Lemma X15_witness :
  ∃ ss, parseServices "j" "g" [serviceBlock] = Ok ss ∧
        Forall2 serviceShape [serviceBlock] ss.
Proof.
  destruct X15_services_and_checks as (Hs & _).
  eexists. split; [reflexivity|]. eapply (Hs "j" "g"). reflexivity.
Defined.

(** X16 at [checkBlock]: [Host] has the values of both blocks, in their
    order. *)
Lemma X16_witness :
  ∃ c h, parseCheck checkBlock = Ok c ∧ Header c = Some h ∧
         default [] (h !! "Host") = ["a"; "b"] ∧
         default [] (h !! "Accept") = ["c"].
Proof.
  eexists.
  edestruct (X16_check_headers checkBlock) as [_ Hsome];
    [reflexivity | reflexivity |].
  edestruct Hsome as (headerRaw & h & Hv & Hh & _ & _ & Hk & _);
    [reflexivity|].
  exists h. split; [reflexivity|]. split; [exact Hh|].
  injection Hv as <-. split; [apply (Hk "Host")|apply (Hk "Accept")].
Defined.

(** X17 at [periodicBlock] and [periodicNumber]: the string [true] is
    handed on as a boolean, the number [1] is rejected. *)
Lemma X17_witness :
  parseBool (VString "true") = Ok true ∧
  (∃ m', parsePeriodic [periodicBlock] = decodePeriodicConfig m' ∧
         m' !! "Enabled" = Some (VBool true)) ∧
  ∃ e, parsePeriodic [periodicNumber]
       = Err ("periodic.enabled should be set to true or false; " +:+ e).
Proof.
  destruct X17_boolean_values as (Hiff & _ & Hperiodic).
  split; [|split].
  - apply Hiff. right. exists "true". split; [done|].
    apply list_elem_of_In. cbn. auto 10.
  - edestruct (Hperiodic [periodicBlock] periodicBlock) as [Hok _];
      [reflexivity..|].
    destruct (Hok true) as (m' & Hp & He & _); [reflexivity|].
    by exists m'.
  - edestruct (Hperiodic [periodicNumber] periodicNumber) as [_ Hbad];
      [reflexivity..|].
    apply Hbad. intros b Hb. discriminate Hb.
Defined.

(** X18 at [groupVaultJob]: the bare task has no vault, the task of the
    group has the vault of the group. *)
Lemma X18_witness :
  ∃ job,
    parseJob (Filter "job" groupVaultJob) = Ok job ∧
    ∃ bare groups,
      TaskGroups job = bare ++ groups ∧
      Forall2 (bareTaskVault None)
        (Children (Filter "task" groupVaultBody)) bare ∧
      Forall2 (groupVault None)
        (Children (Filter "group" groupVaultBody)) groups.
Proof.
  eexists. split; [reflexivity|].
  apply (X18_no_job_vault (Filter "job" groupVaultJob) _
           (mkItem ["j"] (ObjectType groupVaultBody)) groupVaultBody);
    reflexivity.
Defined.

Example groupVaultJob_outcome :
  Parse groupVaultJob
  = Ok (mkJob None None (Some "j") (Some "j") None None None [] [] []
          [taskGroupOf (mkTask "a" "d" "" ∅ [] [] ∅ [] None ∅ None None []
                          None [] None false 0 "");
           mkTaskGroup (Some "g") None [] []
             [mkTask "b" "d" "" ∅ [] [] ∅ [] None ∅ None None []
                (Some (mkVault ["p"] (Some true) (Some "restart") None))
                [] None false 0 ""]
             [] None None None None None ∅]
          None [] None None None None ∅ None).
Proof. reflexivity. Qed.


End worked.
